(** * nano-nvr: retention and indexing of recorded segments

    A shallow embedding of [backend/scheduler.py] (the retention sweep
    [cleanup_old_videos] and its helper [parse_filename_time]) and of
    the handlers of [backend/main.py], together with the properties the
    design document states about them.

    How the program is modelled:
    - the recording store is a tree; a directory lists its entries in
      the order in which the operating system enumerates them, and
      names are unique within a directory ([FS.wf]);
    - file names and query strings are ASCII strings, and the store
      lives on a POSIX file system, where [Path.rglob] matches names
      case sensitively;
    - a call that may raise returns a [Py.result]; whether the sweep may
      [unlink] a file or [rmdir] an emptied directory, and whether
      [shutil.rmtree] gets through, is decided by the operating system,
      given as a function of the path;
    - the sweep and the index ([Scheduler], [Main]) are modelled on the
      tree below the root of the store; the requests that name a path
      by their query strings ([Requests]) are modelled on the whole
      file system, with the paths joined as [pathlib] joins them;
    - nothing else changes the file system while an operation runs;
    - [utils.get_video_shanghai_time], the media server and the
      arithmetic of Python numbers are parameters of the handlers. *)

From Stdlib Require Import QArith Qround DecimalString.
From Stdlib Require Import ZArith String Ascii Bool Lia Permutation Sorted List.
Import ListNotations.
Open Scope string_scope.
Open Scope list_scope.
Open Scope Z_scope.

Set Warnings "-register-all".

(* ================================================================== *)
(** * Python values the program relies on *)
(* ================================================================== *)

Module Py.

(** Exceptions that the modelled code can see. *)
Inductive exn : Type :=
| ValueError
| FileNotFoundError
| IsADirectoryError
| NotADirectoryError
| PermissionError
| OSError
| OverflowError
| RequestError.

(** A computation that returns or raises. *)
Inductive result (A : Type) : Type :=
| Ok (a : A)
| Raise (e : exn).
Arguments Ok {A} a.
Arguments Raise {A} e.

Definition bind {A B} (m : result A) (k : A -> result B) : result B :=
  match m with
  | Ok a => k a
  | Raise e => Raise e
  end.

(** [map f xs] for an [f] that may raise: elements are visited left to
    right and the first exception aborts the traversal. *)
Fixpoint mapM {A B} (f : A -> result B) (xs : list A) : result (list B) :=
  match xs with
  | [] => Ok []
  | x :: xs' =>
      bind (f x) (fun y => bind (mapM f xs') (fun ys => Ok (y :: ys)))
  end.

(** [l[k:]] with Python's treatment of a negative start. *)
Definition slice_from {A} (k : Z) (l : list A) : list A :=
  if k <? 0
  then skipn (Z.to_nat (Z.max 0 (Z.of_nat (length l) + k))) l
  else skipn (Z.to_nat k) l.

(** [any(xs)] on an iterator of objects that are all truthy (paths). *)
Definition any {A} (l : list A) : bool :=
  match l with
  | [] => false
  | _ :: _ => true
  end.

(** ** Strings *)

Definition is_digit (c : ascii) : bool :=
  let n := N_of_ascii c in ((48 <=? n) && (n <=? 57))%N.

Definition digit_value (c : ascii) : Z := Z.of_N (N_of_ascii c) - 48.

Fixpoint int_from (acc : Z) (s : string) : Z :=
  match s with
  | EmptyString => acc
  | String c r => int_from (acc * 10 + digit_value c) r
  end.

(** [int(s)] on a string of decimal digits. *)
Definition int (s : string) : Z := int_from 0 s.

Fixpoint all_digits (s : string) : bool :=
  match s with
  | EmptyString => true
  | String c r => is_digit c && all_digits r
  end.

(** [c.lower()] on one ASCII character. *)
Definition lower_ascii (c : ascii) : ascii :=
  let n := N_of_ascii c in
  if ((65 <=? n) && (n <=? 90))%N then ascii_of_N (n + 32) else c.

Fixpoint lower (s : string) : string :=
  match s with
  | EmptyString => EmptyString
  | String c r => String (lower_ascii c) (lower r)
  end.

Fixpoint rev_from (acc s : string) : string :=
  match s with
  | EmptyString => acc
  | String c r => rev_from (String c acc) r
  end.

(** [s.endswith(suffix)]: the reversed suffix is a prefix of the
    reversed string. *)
Definition endswith (s suffix : string) : bool :=
  String.prefix (rev_from "" suffix) (rev_from "" s).

(** [s.rfind(".")], as [None] where Python answers [-1]. *)
Fixpoint rfind_dot (s : string) : option nat :=
  match s with
  | EmptyString => None
  | String c r =>
      match rfind_dot r with
      | Some i => Some (S i)
      | None => if Ascii.eqb c "." then Some 0%nat else None
      end
  end.

Fixpoint drop (n : nat) (s : string) : string :=
  match n, s with
  | O, _ => s
  | S n', String _ r => drop n' r
  | S _, EmptyString => EmptyString
  end.

(** ** [datetime] *)

(** A naive [datetime]; the microsecond field is always 0 in this
    program and is left out. *)
Record datetime : Type := mk_datetime {
  year : Z; month : Z; day : Z; hour : Z; minute : Z; second : Z
}.

Definition is_leap (y : Z) : bool :=
  (y mod 4 =? 0) && (negb (y mod 100 =? 0) || (y mod 400 =? 0)).

Definition days_in_month (y m : Z) : Z :=
  if m =? 2 then (if is_leap y then 29 else 28)
  else if (m =? 4) || (m =? 6) || (m =? 9) || (m =? 11) then 30
  else 31.

(** The range checks of the [datetime(...)] constructor. *)
Definition valid_datetime (y mo d h mi s : Z) : bool :=
  (1 <=? y) && (y <=? 9999) && (1 <=? mo) && (mo <=? 12)
  && (1 <=? d) && (d <=? days_in_month y mo)
  && (0 <=? h) && (h <=? 23) && (0 <=? mi) && (mi <=? 59)
  && (0 <=? s) && (s <=? 59).

(** [datetime(y, mo, d, h, mi, s)]: raises [ValueError] out of range. *)
Definition datetime_ctor (y mo d h mi s : Z) : result datetime :=
  if valid_datetime y mo d h mi s
  then Ok (mk_datetime y mo d h mi s)
  else Raise ValueError.

(** [datetime.min], 0001-01-01 00:00:00. *)
Definition datetime_min : datetime := mk_datetime 1 1 1 0 0 0.

Definition fields (t : datetime) : list Z :=
  [year t; month t; day t; hour t; minute t; second t].

Fixpoint lex_compare (a b : list Z) : comparison :=
  match a, b with
  | [], [] => Eq
  | [], _ :: _ => Lt
  | _ :: _, [] => Gt
  | x :: a', y :: b' =>
      match x ?= y with
      | Eq => lex_compare a' b'
      | c => c
      end
  end.

(** Comparison of two datetimes: field by field, most significant
    first. *)
Definition datetime_compare (a b : datetime) : comparison :=
  lex_compare (fields a) (fields b).

(** [a <= b] *)
Definition datetime_leb (a b : datetime) : bool :=
  match datetime_compare a b with
  | Gt => false
  | _ => true
  end.

(** [a < b] *)
Definition datetime_ltb (a b : datetime) : bool :=
  match datetime_compare a b with
  | Lt => true
  | _ => false
  end.

(** ** Stable sorting *)

Section StableSort.
Variables (K A : Type).
(** [before k1 k2]: an element with key [k1] may stand in front of an
    element with key [k2] that followed it in the input. *)
Variable before : K -> K -> bool.

Fixpoint insert (x : K * A) (l : list (K * A)) : list (K * A) :=
  match l with
  | [] => [x]
  | y :: l' =>
      if before (fst x) (fst y) then x :: l else y :: insert x l'
  end.

(** Insertion sort; an element is put in front of the first element
    it may precede, so elements with equal keys keep their input
    order. *)
Fixpoint stable_sort (l : list (K * A)) : list (K * A) :=
  match l with
  | [] => []
  | x :: l' => insert x (stable_sort l')
  end.
End StableSort.
Arguments insert {K A} before x l.
Arguments stable_sort {K A} before l.

(** [sorted(xs, key=key, reverse=reverse)] for datetime keys.  The key
    is computed once per element, left to right, before any comparison;
    the sort is stable, and with [reverse=True] it is descending while
    elements with equal keys still keep their input order. *)
Definition sorted {A} (xs : list A) (key : A -> result datetime)
           (reverse : bool) : result (list A) :=
  bind (mapM key xs) (fun keys =>
    let before :=
      if reverse then (fun a b => datetime_leb b a) else datetime_leb in
    Ok (map snd (stable_sort before (combine keys xs)))).

End Py.
Import Py.

(* ================================================================== *)
(** * The recording store *)
(* ================================================================== *)

Module FS.

(** A path is the list of its components, outermost first. *)
Abbreviation path := (list string) (only parsing).

(** A directory lists its entries in the order in which the operating
    system enumerates them ([iterdir], [os.listdir], [os.scandir]). *)
Inductive node : Type :=
| File (size : Z)
| Dir (entries : list (string * node)).

Definition is_dir (n : node) : bool :=
  match n with
  | Dir _ => true
  | File _ => false
  end.

(** The entries of a directory; a file has none. *)
Definition iterdir (n : node) : list (string * node) :=
  match n with
  | Dir es => es
  | File _ => []
  end.

Fixpoint assoc (name : string) (es : list (string * node)) : option node :=
  match es with
  | [] => None
  | (n, c) :: es' => if String.eqb name n then Some c else assoc name es'
  end.

Fixpoint remove_entry (name : string) (es : list (string * node))
  : list (string * node) :=
  match es with
  | [] => []
  | (n, c) :: es' =>
      if String.eqb name n then es' else (n, c) :: remove_entry name es'
  end.

Fixpoint replace_entry (name : string) (c' : node)
         (es : list (string * node)) : list (string * node) :=
  match es with
  | [] => []
  | (n, c) :: es' =>
      if String.eqb name n then (n, c') :: es'
      else (n, c) :: replace_entry name c' es'
  end.

(** What a path denotes below [n], if anything. *)
Fixpoint lookup (p : path) (n : node) : option node :=
  match p with
  | [] => Some n
  | name :: p' =>
      match n with
      | Dir es =>
          match assoc name es with
          | Some c => lookup p' c
          | None => None
          end
      | File _ => None
      end
  end.

Fixpoint nodupb (l : list string) : bool :=
  match l with
  | [] => true
  | x :: l' => negb (existsb (String.eqb x) l') && nodupb l'
  end.

(** Names are unique within a directory. *)
Fixpoint wf (n : node) : bool :=
  match n with
  | File _ => true
  | Dir es => nodupb (map fst es) && forallb (fun e => wf (snd e)) es
  end.

(** The glob pattern [*.mp4] on one name.  The store lives on a POSIX
    file system ([/opt/zlm/record/]), where pathlib matches names case
    sensitively. *)
Definition fnmatch_mp4 (name : string) : bool := endswith name ".mp4".

(** [Path.rglob("*.mp4")], as paths relative to the directory: the
    directory and then each of its subdirectories, depth first, each
    contributing the entries whose name matches, in enumeration order.
    Entries are matched by name alone, so a directory named [x.mp4] is
    listed too. *)
Fixpoint rglob (n : node) : list path :=
  match n with
  | File _ => []
  | Dir es =>
      map (fun e => [fst e]) (filter (fun e => fnmatch_mp4 (fst e)) es)
      ++ flat_map (fun e => map (cons (fst e)) (rglob (snd e))) es
  end.

(** [Path.unlink()] of the path [p] below [n].  [allowed] tells whether
    the operating system lets this process remove that regular file. *)
Fixpoint unlink (allowed : bool) (p : path) (n : node) : result node :=
  match p with
  | [] => Raise IsADirectoryError
  | name :: p' =>
      match n with
      | File _ => Raise NotADirectoryError
      | Dir es =>
          match assoc name es with
          | None => Raise FileNotFoundError
          | Some c =>
              match p' with
              | [] =>
                  match c with
                  | Dir _ => Raise IsADirectoryError
                  | File _ =>
                      if allowed then Ok (Dir (remove_entry name es))
                      else Raise PermissionError
                  end
              | _ :: _ =>
                  bind (unlink allowed p' c)
                       (fun c' => Ok (Dir (replace_entry name c' es)))
              end
          end
      end
  end.

(** [shutil.rmtree] of the path [p] below [n]: the entry and all that
    is beneath it go. *)
Fixpoint rmtree (p : path) (n : node) : result node :=
  match p with
  | [] => Raise PermissionError
  | name :: p' =>
      match n with
      | File _ => Raise NotADirectoryError
      | Dir es =>
          match assoc name es with
          | None => Raise FileNotFoundError
          | Some c =>
              match p' with
              | [] => Ok (Dir (remove_entry name es))
              | _ :: _ =>
                  bind (rmtree p' c)
                       (fun c' => Ok (Dir (replace_entry name c' es)))
              end
          end
      end
  end.

(** [Path.name]: the last component. *)
Definition name (p : path) : string := last p "".

End FS.
Import FS.

(* ================================================================== *)
(** * scheduler.py: the time extractor *)
(* ================================================================== *)

Module Regex.

(** [\d{n}]: exactly [n] digits; the matched text and the rest. *)
Fixpoint digits_exact (n : nat) (s : string) : option (string * string) :=
  match n with
  | O => Some (EmptyString, s)
  | S n' =>
      match s with
      | String c r =>
          if is_digit c then
            match digits_exact n' r with
            | Some (m, rest) => Some (String c m, rest)
            | None => None
            end
          else None
      | EmptyString => None
      end
  end.

(** The literal [-]. *)
Definition hyphen (s : string) : option string :=
  match s with
  | String c r => if Ascii.eqb c "-" then Some r else None
  | EmptyString => None
  end.

(** [(\d{1,2})] followed by the rest of the pattern [k], which receives
    the group and the remaining input.  The quantifier is greedy: two
    digits are tried first, and the matcher backtracks to one digit
    when the rest of the pattern fails. *)
Definition digits_1_2 {A} (s : string)
           (k : string -> string -> option A) : option A :=
  match s with
  | String a r =>
      if is_digit a then
        let one := k (String a EmptyString) r in
        match r with
        | String b r' =>
            if is_digit b then
              match k (String a (String b EmptyString)) r' with
              | Some x => Some x
              | None => one
              end
            else one
        | EmptyString => one
        end
      else None
  | EmptyString => None
  end.

Definition then_hyphen {A} (k : string -> string -> option A)
  : string -> string -> option A :=
  fun g r => match hyphen r with Some r' => k g r' | None => None end.

(** [re.match(r"(\d{4})-(\d{1,2})-(\d{1,2})-(\d{1,2})-(\d{1,2})-(\d{1,2})",
    filename)]: anchored at the start only; the six groups. *)
Definition re_match (filename : string)
  : option (string * string * string * string * string * string) :=
  match digits_exact 4 filename with
  | Some (y, r) =>
      then_hyphen (fun y r =>
        digits_1_2 r (then_hyphen (fun mo r =>
        digits_1_2 r (then_hyphen (fun d r =>
        digits_1_2 r (then_hyphen (fun h r =>
        digits_1_2 r (then_hyphen (fun mi r =>
        digits_1_2 r (fun s _ => Some (y, mo, d, h, mi, s))))))))))) y r
  | None => None
  end.

End Regex.

Module Scheduler.

(** [parse_filename_time(filename)] *)
Definition parse_filename_time (filename : string) : result datetime :=
  match Regex.re_match filename with
  | Some (y, mo, d, h, mi, s) =>
      match datetime_ctor (int y) (int mo) (int d) (int h) (int mi) (int s) with
      | Ok t => Ok t
      | Raise ValueError => Ok datetime_min
      | Raise e => Raise e
      end
  | None => Ok datetime_min
  end.

(** What the sweep prints, one event per line of output. *)
Inductive event : Type :=
| RootMissing
| RootNotADirectory
| Deleted (file : path)
| DeleteFailed (file : path) (e : exn)
| StreamDirRemoved (dir : path)
| StreamDirRemoveFailed (dir : path) (e : exn)
| StreamFailed (dir : path) (e : exn)
| AppDirRemoved (dir : path)
| AppDirRemoveFailed (dir : path) (e : exn).

(** The flags and the counter a loop maintains, and what it printed:
    [deleted_any] is [stream_deleted_any], some file was unlinked. *)
Record effects : Type := mk_effects {
  deleted_any : bool;
  app_deleted_any : bool;
  total_deleted : Z;
  log : list event
}.

Definition no_effects : effects := mk_effects false false 0 [].

Definition seq_effects (a b : effects) : effects :=
  mk_effects (deleted_any a || deleted_any b)
             (app_deleted_any a || app_deleted_any b)
             (total_deleted a + total_deleted b)
             (log a ++ log b).

(** [Path.rmdir()] of a directory that was just seen empty: it goes, or
    the operating system refuses. *)
Definition rmdir (allowed : bool) : result unit :=
  if allowed then Ok tt else Raise PermissionError.

Section Sweep.

(** Whether the operating system lets the sweep remove the entry at a
    path (relative to the root): [unlink] for a regular file, [rmdir]
    for an emptied directory.  The files that the sweep unlinks lie
    inside stream directories and the directories that it removes are
    stream and application directories, so one function of the path
    describes both. *)
Variable may_unlink : path -> bool.

(** Lines 72-82: unlink each file of the deletion list in turn; a
    failure is printed and the loop goes on. *)
Fixpoint delete_files (base : path) (files_to_delete : list path)
         (stream : node) : node * effects :=
  match files_to_delete with
  | [] => (stream, no_effects)
  | file_path :: rest =>
      match unlink (may_unlink (base ++ file_path)) file_path stream with
      | Ok stream' =>
          let (final, eff) := delete_files base rest stream' in
          (final,
           seq_effects (mk_effects true false 1 [Deleted (base ++ file_path)])
                       eff)
      | Raise e =>
          let (final, eff) := delete_files base rest stream in
          (final,
           seq_effects
             (mk_effects false false 0 [DeleteFailed (base ++ file_path) e])
             eff)
      end
  end.

(** Lines 62-69: the deletion list of a stream directory. *)
Definition files_to_delete (keep_videos : Z) (stream : node)
  : result (list path) :=
  bind (sorted (rglob stream) (fun f => parse_filename_time (name f)) true)
       (fun sorted_files => Ok (slice_from keep_videos sorted_files)).

(** Lines 54-101: one stream directory.  The result is the directory
    afterwards, or [None] once it has been removed.  When the [rmdir] of
    the emptied directory fails the directory stays and
    [app_deleted_any] is not set (lines 86-96); it is set when the
    directory was removed and when files were deleted and others
    remain (lines 92, 98). *)
Definition process_stream (keep_videos : Z) (base : path) (stream : node)
  : option node * effects :=
  let video_files := rglob stream in
  if Z.of_nat (length video_files) <=? keep_videos then
    (Some stream, no_effects)
  else
    match files_to_delete keep_videos stream with
    | Raise e => (Some stream, mk_effects false false 0 [StreamFailed base e])
    | Ok to_delete =>
        let (stream', eff) := delete_files base to_delete stream in
        if deleted_any eff && negb (any (iterdir stream')) then
          match rmdir (may_unlink base) with
          | Ok _ =>
              (None,
               seq_effects eff
                 (mk_effects false true 0 [StreamDirRemoved base]))
          | Raise e =>
              (Some stream',
               seq_effects eff
                 (mk_effects false false 0 [StreamDirRemoveFailed base e]))
          end
        else
          (Some stream',
           mk_effects (deleted_any eff) (deleted_any eff)
                      (total_deleted eff) (log eff))
    end.

(** Lines 50-101: the streams of one application, in enumeration
    order.  Entries that are not directories are skipped.  An iteration
    changes nothing outside the stream directory it is given, so it
    finds that directory as it was when the loop began. *)
Fixpoint for_streams (keep_videos : Z) (app : string)
         (entries : list (string * node))
  : list (string * node) * effects :=
  match entries with
  | [] => ([], no_effects)
  | (stream_name, n) :: rest =>
      let (here, eff) :=
        if is_dir n then
          match process_stream keep_videos [app; stream_name] n with
          | (Some n', eff) => ([(stream_name, n')], eff)
          | (None, eff) => ([], eff)
          end
        else ([(stream_name, n)], no_effects) in
      let (rest', eff') := for_streams keep_videos app rest in
      (here ++ rest', seq_effects eff eff')
  end.

(** Lines 43-113: the applications under the root.  When the [rmdir]
    of the emptied application directory fails the directory stays
    (lines 105-113). *)
Fixpoint for_apps (keep_videos : Z) (entries : list (string * node))
  : list (string * node) * effects :=
  match entries with
  | [] => ([], no_effects)
  | (app_name, n) :: rest =>
      let (here, eff) :=
        match n with
        | File _ => ([(app_name, n)], no_effects)
        | Dir streams =>
            let (streams', eff) := for_streams keep_videos app_name streams in
            if app_deleted_any eff && negb (any streams') then
              match rmdir (may_unlink [app_name]) with
              | Ok _ =>
                  ([],
                   seq_effects eff
                     (mk_effects false false 0 [AppDirRemoved [app_name]]))
              | Raise e =>
                  ([(app_name, Dir streams')],
                   seq_effects eff
                     (mk_effects false false 0
                                 [AppDirRemoveFailed [app_name] e]))
              end
            else
              ([(app_name, Dir streams')], eff)
        end in
      let (rest', eff') := for_apps keep_videos rest in
      (here ++ rest', seq_effects eff eff')
  end.

(** [cleanup_old_videos(path, keep_videos)] on a store whose root is
    [path] ([None]: nothing exists there).  Returns the store
    afterwards, the number of deleted segments and the printed
    events. *)
Definition cleanup_old_videos (path : option node) (keep_videos : Z)
  : option node * effects :=
  match path with
  | None => (None, mk_effects false false 0 [RootMissing])
  | Some (File sz) =>
      (Some (File sz), mk_effects false false 0 [RootNotADirectory])
  | Some (Dir apps) =>
      let (apps', eff) := for_apps keep_videos apps in
      (Some (Dir apps'), eff)
  end.

End Sweep.

End Scheduler.
Import Scheduler.

(* ================================================================== *)
(** * main.py: the handlers that read or change the recording store *)
(* ================================================================== *)

Module Main.

(** [KEEP_VIDEOS = 72] *)
Definition KEEP_VIDEOS : Z := 72.

(** The arithmetic of Python numbers that the indexer uses.  The
    handlers only combine these operations; nothing below depends on
    how floating point rounds. *)
Class PyNumber : Type := {
  number : Type;
  of_int : Z -> number;                       (* an [int] as a number *)
  truediv : number -> number -> number;       (* [x / y] *)
  mul : number -> number -> number;           (* [x * y] *)
  round_int : number -> Z;                    (* [round(x)] *)
  round_ndigits : number -> Z -> number;      (* [round(x, n)] *)
  is_zero : number -> bool;                   (* [x == 0] *)
  str : number -> string;                     (* [str(x)] *)
  zero_is_zero : is_zero (of_int 0) = true    (* [0 == 0] *)
}.

(** The texts of the ["msg"] entry, each with the path it mentions. *)
Inductive message : Type :=
| RootUnusable                     (* "... 目录不存在或不是目录" *)
| DirectoryMissing (p : path)      (* "目录不存在: ..." *)
| NotADirectory (p : path)         (* "路径不是目录: ..." *)
| StreamDeleted (p : path)         (* "已删除整个流录像: ..." *)
| StreamDeleteFailed (e : exn).    (* "删除流目录失败: ..." *)

(** The JSON object a handler returns; an absent key is [None]. *)
Record response (A : Type) : Type := mk_response {
  code : Z;
  msg : option message;
  data : option A
}.
Arguments mk_response {A} code msg data.
Arguments code {A} r.
Arguments msg {A} r.
Arguments data {A} r.

(** A query below a root that may not exist. *)
Definition bind_root {A} (RECORD_ROOT : option node)
           (f : node -> option A) : option A :=
  match RECORD_ROOT with
  | Some root => f root
  | None => None
  end.

Section Handlers.

Context {num : PyNumber}.

(** The type of the ["start"] entry of a segment record, with its
    [<=]. *)
Variable timestamp : Type.
Variable timestamp_leb : timestamp -> timestamp -> bool.

(** What [utils.get_video_shanghai_time] tells about a file. *)
Record video_info : Type := mk_video_info {
  start : timestamp;
  duration : number
}.

(** [utils.get_video_shanghai_time(file_path)], which is not part of
    these sources: the container metadata of the file at a path
    (relative to the root), or [None] when it cannot be read. *)
Variable get_video_shanghai_time : path -> option video_info.

(** A per-stream entry of the index.  The ["dates"] entry of the
    source is not modelled. *)
Record stream_summary : Type := mk_stream_summary {
  app : string;
  stream : string;
  slice_num : Z;
  total_storage_gb : number;
  record_days : string
}.

(** The non-directory entries below a directory in the order in
    which [os.walk] (top down) presents them, each with its path
    relative to that directory and its size. *)
Fixpoint walk_files (n : node) : list (path * Z) :=
  match n with
  | File _ => []
  | Dir es =>
      flat_map (fun e => match snd e with
                         | File sz => [([fst e], sz)]
                         | Dir _ => []
                         end) es
      ++ flat_map (fun e => map (fun f => (fst e :: fst f, snd f))
                                (walk_files (snd e))) es
  end.

(** The accumulators of the walk over one stream. *)
Record tally : Type := mk_tally {
  total_slices : Z;
  total_size_bytes : Z;
  first_video_duration : number
}.

(** [86400 / KEEP_VIDEOS] *)
Definition slot : number := truediv (of_int 86400) (of_int KEEP_VIDEOS).

(** [round(d / (86400 / KEEP_VIDEOS)) * (86400 / KEEP_VIDEOS)] *)
Definition snap (d : number) : number :=
  mul (of_int (round_int (truediv d slot))) slot.

(** Lines 425-447: one file of the walk. *)
Definition visit (base : path) (t : tally) (f : path * Z) : tally :=
  if negb (endswith (lower (name (fst f))) ".mp4") then t
  else
    let t' := mk_tally (total_slices t + 1)
                       (total_size_bytes t + snd f)
                       (first_video_duration t) in
    if is_zero (first_video_duration t') then
      match get_video_shanghai_time (base ++ fst f) with
      | Some info =>
          mk_tally (total_slices t') (total_size_bytes t')
                   (snap (duration info))
      | None => t'
      end
    else t'.

(** Lines 395-472: the summary of one stream directory, if it has a
    segment. *)
Definition summarize_stream (app_name stream_name : string) (n : node)
  : option stream_summary :=
  let t := fold_left (visit [app_name; stream_name]) (walk_files n)
                     (mk_tally 0 0 (of_int 0)) in
  if total_slices t =? 0 then None
  else
    let record_days :=
      if is_zero (first_video_duration t) then "-"
      else str (truediv (mul (of_int KEEP_VIDEOS) (first_video_duration t))
                        (of_int 86400)) in
    Some (mk_stream_summary app_name stream_name (total_slices t)
            (round_ndigits (truediv (of_int (total_size_bytes t))
                                    (of_int (1024 ^ 3))) 2)
            record_days).

Definition summarize_app (e : string * node) : list stream_summary :=
  flat_map (fun s => if is_dir (snd s)
                     then match summarize_stream (fst e) (fst s) (snd s) with
                          | Some r => [r]
                          | None => []
                          end
                     else [])
           (iterdir (snd e)).

(** [get_video_list()] on the store whose root is [RECORD_ROOT]. *)
Definition get_video_list (RECORD_ROOT : option node)
  : response (list stream_summary) :=
  match RECORD_ROOT with
  | Some (Dir apps) =>
      mk_response 0 None
        (Some (flat_map (fun e => if is_dir (snd e) then summarize_app e
                                  else []) apps))
  | _ => mk_response (-1) (Some RootUnusable) None
  end.

(** [PurePath.suffix]: the text from the last dot of the name, unless
    that dot starts or ends the name. *)
Definition suffix (file_name : string) : string :=
  match rfind_dot file_name with
  | Some i =>
      if ((0 <? i) && (i <? String.length file_name - 1))%nat
      then drop i file_name else ""
  | None => ""
  end.

(** A record of the detailed listing: the metadata and the path
    relative to the root. *)
Record segment : Type := mk_segment {
  seg_info : video_info;
  filename : path
}.

(** Lines 497-514: the records of the entries of the date directory. *)
Definition collect (target : path) (entries : list (string * node))
  : list segment :=
  flat_map (fun e =>
              if String.eqb (lower (suffix (fst e))) ".mp4" then
                match get_video_shanghai_time (target ++ [fst e]) with
                | Some info => [mk_segment info (target ++ [fst e])]
                | None => []
                end
              else [])
           entries.

(** [results.sort(key=lambda x: x["start"])]: ascending and stable. *)
Definition sort_by_start (results : list segment) : list segment :=
  map snd (stable_sort timestamp_leb
             (combine (map (fun r => start (seg_info r)) results) results)).

(** [get_video(app, stream, date)] for three query strings that are
    each one plain name, on the tree below the root of the store.
    [Requests.get_video] is the handler for arbitrary strings, and
    [Listing.get_video_plain] relates the two. *)
Definition get_video (RECORD_ROOT : option node) (app stream date : string)
  : response (list segment) :=
  let target_dir := [app; stream; date] in
  match bind_root RECORD_ROOT (lookup target_dir) with
  | None => mk_response 1 (Some (DirectoryMissing target_dir)) None
  | Some (File _) => mk_response 1 (Some (NotADirectory target_dir)) None
  | Some (Dir entries) =>
      mk_response 0 None (Some (sort_by_start (collect target_dir entries)))
  end.

End Handlers.

Arguments mk_video_info {num timestamp} start duration.
Arguments start {num timestamp} v.
Arguments duration {num timestamp} v.
Arguments mk_segment {num timestamp} seg_info filename.
Arguments seg_info {num timestamp} s.
Arguments filename {num timestamp} s.

End Main.
Import Main.

(** Exact rational arithmetic as an instance of the number interface,
    used to evaluate the handlers on examples.  [round] is to the nearest
    integer with ties to even, as in Python.  [str] renders a whole
    number the way Python renders a whole float ([3.0]) and any other
    value as a fraction. *)
Module Exact.

Definition round_half_even (q : Q) : Z :=
  let f := Qfloor q in
  match Qcompare (q - inject_Z f) (1 # 2) with
  | Lt => f
  | Gt => f + 1
  | Eq => if Z.even f then f else f + 1
  end.

Definition str_Z (z : Z) : string := NilEmpty.string_of_int (Z.to_int z).

Definition str_Q (q : Q) : string :=
  let r := Qred q in
  if (Zpos (Qden r) =? 1)
  then (str_Z (Qnum r) ++ ".0")%string
  else (str_Z (Qnum r) ++ "/" ++ str_Z (Zpos (Qden r)))%string.

#[export] Instance rational : PyNumber := {|
  number := Q;
  of_int := inject_Z;
  truediv := Qdiv;
  mul := Qmult;
  round_int := round_half_even;
  round_ndigits := fun q n =>
    Qdiv (inject_Z (round_half_even (Qmult q (inject_Z (10 ^ n)))))
         (inject_Z (10 ^ n));
  is_zero := fun q => Qeq_bool q 0;
  str := str_Q;
  zero_is_zero := eq_refl
|}.

End Exact.

(* ================================================================== *)
(** * The time extractor *)
(* ================================================================== *)

Module TimeExtractor.

(** One numeric field of a file name: one or two digits. *)
Definition field (s : string) : Prop :=
  all_digits s = true /\ (String.length s = 1 \/ String.length s = 2)%nat.

Definition starts_with_digit (s : string) : bool :=
  match s with
  | String c _ => is_digit c
  | EmptyString => false
  end.

(** The name begins with the hyphen-separated fields [Y-Mo-D-H-Mi-S]:
    a four-digit year and five fields of one or two digits, the last
    one taking a second digit whenever there is one. *)
Definition leading_fields (filename Y Mo D H Mi S : string) : Prop :=
  exists rest,
    filename = (Y ++ "-" ++ Mo ++ "-" ++ D ++ "-" ++ H ++ "-" ++ Mi
                  ++ "-" ++ S ++ rest)%string
    /\ all_digits Y = true /\ String.length Y = 4%nat
    /\ field Mo /\ field D /\ field H /\ field Mi /\ field S
    /\ (String.length S = 1%nat -> starts_with_digit rest = false).

Lemma digit_not_hyphen (c : ascii) :
  is_digit c = true -> Ascii.eqb c "-" = false.
Proof.
  destruct c as [[] [] [] [] [] [] [] []]; vm_compute; congruence.
Qed.

Lemma field_cases (F : string) :
  field F ->
  (exists a, F = String a "" /\ is_digit a = true)
  \/ (exists a b, F = String a (String b "")
                  /\ is_digit a = true /\ is_digit b = true).
Proof.
  intros [Hd Hl].
  destruct F as [|a [|b [|c F]]]; simpl in *.
  - destruct Hl; discriminate.
  - left. exists a. rewrite andb_true_r in Hd. auto.
  - right. exists a, b.
    apply andb_prop in Hd as [Ha Hb]. rewrite andb_true_r in Hb. auto.
  - destruct Hl; discriminate.
Qed.

Lemma field_one (a : ascii) : is_digit a = true -> field (String a "").
Proof. intros Ha; split; simpl; [rewrite Ha; reflexivity | auto]. Qed.

Lemma field_two (a b : ascii) :
  is_digit a = true -> is_digit b = true -> field (String a (String b "")).
Proof. intros Ha Hb; split; simpl; [rewrite Ha, Hb; reflexivity | auto]. Qed.

(** ** The matcher finds the fields that are there *)

Lemma digits_exact_app (Y r : string) :
  all_digits Y = true ->
  Regex.digits_exact (String.length Y) (Y ++ r) = Some (Y, r).
Proof.
  induction Y as [|c Y IH]; simpl; intros H; [reflexivity|].
  apply andb_prop in H as [Hc HY].
  rewrite Hc, (IH HY). reflexivity.
Qed.

Lemma digits_1_2_hyphen {A} (F r : string)
      (k : string -> string -> option A) :
  field F ->
  Regex.digits_1_2 (F ++ String "-" r) (Regex.then_hyphen k) = k F r.
Proof.
  intros HF.
  destruct (field_cases F HF) as [(a & -> & Ha) | (a & b & -> & Ha & Hb)];
    simpl; rewrite Ha.
  - reflexivity.
  - rewrite Hb. unfold Regex.then_hyphen at 1. simpl.
    destruct (k _ r) eqn:Hk; [reflexivity|].
    unfold Regex.then_hyphen. simpl.
    rewrite (digit_not_hyphen b Hb). reflexivity.
Qed.

Lemma digits_1_2_last {A} (S rest : string) (g : string -> A) :
  field S ->
  (String.length S = 1%nat -> starts_with_digit rest = false) ->
  Regex.digits_1_2 (S ++ rest) (fun s _ => Some (g s)) = Some (g S).
Proof.
  intros HS Hmax.
  destruct (field_cases S HS) as [(a & -> & Ha) | (a & b & -> & Ha & Hb)];
    simpl; rewrite Ha.
  - specialize (Hmax eq_refl).
    destruct rest as [|b rest]; [reflexivity|].
    simpl in Hmax. rewrite Hmax. reflexivity.
  - rewrite Hb. reflexivity.
Qed.

Lemma re_match_complete (filename Y Mo D H Mi S : string) :
  leading_fields filename Y Mo D H Mi S ->
  Regex.re_match filename = Some (Y, Mo, D, H, Mi, S).
Proof.
  intros (rest & -> & HY & HlY & HMo & HD & HH & HMi & HS & Hmax).
  unfold Regex.re_match.
  rewrite <- HlY, (digits_exact_app Y _ HY).
  unfold Regex.then_hyphen at 1. simpl Regex.hyphen. cbv iota.
  rewrite !digits_1_2_hyphen by assumption.
  apply (digits_1_2_last S rest (fun s => (Y, Mo, D, H, Mi, s))); assumption.
Qed.

(** ** What the matcher finds are such fields *)

Lemma digits_exact_sound (n : nat) : forall s m r,
  Regex.digits_exact n s = Some (m, r) ->
  s = (m ++ r)%string /\ all_digits m = true /\ String.length m = n.
Proof.
  induction n as [|n IH]; simpl; intros s m r H.
  - inversion H; subst. auto.
  - destruct s as [|c s]; [discriminate|].
    destruct (is_digit c) eqn:Hc; [|discriminate].
    destruct (Regex.digits_exact n s) as [[m' r']|] eqn:E; [|discriminate].
    inversion H; subst.
    destruct (IH _ _ _ E) as (-> & Hd & Hl).
    simpl. rewrite Hc, Hd, Hl. auto.
Qed.

Lemma digits_1_2_sound {A} (s : string)
      (k : string -> string -> option A) (x : A) :
  Regex.digits_1_2 s k = Some x ->
  exists F r, field F /\ s = (F ++ r)%string /\ k F r = Some x.
Proof.
  unfold Regex.digits_1_2.
  destruct s as [|a r]; [discriminate|].
  destruct (is_digit a) eqn:Ha; [|discriminate].
  assert (Hone : k (String a "") r = Some x ->
                 exists F r0, field F /\ String a r = (F ++ r0)%string
                              /\ k F r0 = Some x).
  { intros Hk. exists (String a ""), r. auto using field_one. }
  destruct r as [|b r']; [exact Hone|].
  destruct (is_digit b) eqn:Hb; [|exact Hone].
  destruct (k (String a (String b "")) r') eqn:Hk; [|exact Hone].
  intros H; inversion H; subst.
  exists (String a (String b "")), r'. auto using field_two.
Qed.

Lemma then_hyphen_sound {A} (k : string -> string -> option A)
      (g r : string) (x : A) :
  Regex.then_hyphen k g r = Some x ->
  exists r', r = ("-" ++ r')%string /\ k g r' = Some x.
Proof.
  unfold Regex.then_hyphen, Regex.hyphen.
  destruct r as [|c r]; [discriminate|].
  destruct (Ascii.eqb c "-") eqn:Hc; [|discriminate].
  apply Ascii.eqb_eq in Hc; subst. intros H. exists r. auto.
Qed.

Lemma digits_1_2_last_sound {A} (s : string) (g : string -> A) (x : A) :
  Regex.digits_1_2 s (fun f _ => Some (g f)) = Some x ->
  exists F r, field F /\ s = (F ++ r)%string /\ x = g F
              /\ (String.length F = 1%nat -> starts_with_digit r = false).
Proof.
  unfold Regex.digits_1_2.
  destruct s as [|a r]; [discriminate|].
  destruct (is_digit a) eqn:Ha; [|discriminate].
  destruct r as [|b r'].
  - intros H; inversion H. exists (String a ""), "".
    split; [apply field_one; assumption|]. auto.
  - destruct (is_digit b) eqn:Hb; intros H; inversion H.
    + exists (String a (String b "")), r'.
      split; [apply field_two; assumption|].
      split; [reflexivity|]. split; [reflexivity|].
      intros Hl; discriminate Hl.
    + exists (String a ""), (String b r').
      split; [apply field_one; assumption|]. auto.
Qed.

Lemma re_match_sound (filename Y Mo D H Mi S : string) :
  Regex.re_match filename = Some (Y, Mo, D, H, Mi, S) ->
  leading_fields filename Y Mo D H Mi S.
Proof.
  unfold Regex.re_match.
  destruct (Regex.digits_exact 4 filename) as [[y r]|] eqn:E; [|discriminate].
  apply digits_exact_sound in E as (-> & HY & HlY).
  intros H0.
  apply then_hyphen_sound in H0 as (r1 & -> & H1).
  apply digits_1_2_sound in H1 as (mo & r1' & Hmo & -> & H1).
  apply then_hyphen_sound in H1 as (r2 & -> & H2).
  apply digits_1_2_sound in H2 as (d & r2' & Hd & -> & H2).
  apply then_hyphen_sound in H2 as (r3 & -> & H3).
  apply digits_1_2_sound in H3 as (h & r3' & Hh & -> & H3).
  apply then_hyphen_sound in H3 as (r4 & -> & H4).
  apply digits_1_2_sound in H4 as (mi & r4' & Hmi & -> & H4).
  apply then_hyphen_sound in H4 as (r5 & -> & H5).
  apply (digits_1_2_last_sound _ (fun s => (y, mo, d, h, mi, s)))
    in H5 as (s & rest & Hs & -> & Heq & Hmax).
  inversion Heq; subst.
  exists rest. repeat split; try apply Hmo; try apply Hd; try apply Hh;
    try apply Hmi; try apply Hs; auto.
Qed.

(** The timestamp a file name sorts by. *)
Definition filename_time (filename : string) : datetime :=
  match parse_filename_time filename with
  | Ok t => t
  | Raise _ => datetime_min
  end.

Lemma parse_filename_time_total (filename : string) :
  parse_filename_time filename = Ok (filename_time filename).
Proof.
  unfold filename_time, parse_filename_time.
  destruct (Regex.re_match filename) as [[[[[[y mo] d] h] mi] s]|];
    [|reflexivity].
  unfold datetime_ctor.
  destruct (valid_datetime _ _ _ _ _ _); reflexivity.
Qed.

(** C6.  [parse_filename_time] never raises.  When the name begins with
    the fields [Y-Mo-D-H-Mi-S] (a four-digit year, the others one or two
    digits) it returns the datetime built from them if they form a valid
    calendar date and time, and [datetime.min] if they do not; when the
    name does not begin with such fields it returns [datetime.min]. *)
Theorem parse_filename_time_spec (filename : string) :
  (exists t, parse_filename_time filename = Ok t)
  /\ (forall Y Mo D H Mi S,
        leading_fields filename Y Mo D H Mi S ->
        parse_filename_time filename
        = Ok (if valid_datetime (int Y) (int Mo) (int D) (int H) (int Mi) (int S)
              then mk_datetime (int Y) (int Mo) (int D) (int H) (int Mi) (int S)
              else datetime_min))
  /\ ((forall Y Mo D H Mi S, ~ leading_fields filename Y Mo D H Mi S) ->
      parse_filename_time filename = Ok datetime_min).
Proof.
  split; [|split].
  - eexists. apply parse_filename_time_total.
  - intros Y Mo D H Mi S HL.
    unfold parse_filename_time.
    rewrite (re_match_complete _ _ _ _ _ _ _ HL). unfold datetime_ctor.
    destruct (valid_datetime _ _ _ _ _ _); reflexivity.
  - intros Hno. unfold parse_filename_time.
    destruct (Regex.re_match filename) as [[[[[[y mo] d] h] mi] s]|] eqn:E;
      [|reflexivity].
    exfalso. exact (Hno _ _ _ _ _ _ (re_match_sound _ _ _ _ _ _ _ E)).
Qed.

Lemma leading_fields_invalid_month :
  leading_fields "2025-13-01-00-00-00-0.mp4" "2025" "13" "01" "00" "00" "00".
Proof.
  exists "-0.mp4". unfold field. simpl.
  repeat split; auto; discriminate.
Defined.

(** The invalid month of [2025-13-01-00-00-00-0.mp4] yields the
    sentinel; [2025-09-22-17-31-15-0.mp4] yields its date and time. *)
Lemma parse_filename_time_spec_witness :
  parse_filename_time "2025-13-01-00-00-00-0.mp4" = Ok datetime_min.
Proof.
  exact (proj1 (proj2 (parse_filename_time_spec "2025-13-01-00-00-00-0.mp4"))
               "2025" "13" "01" "00" "00" "00" leading_fields_invalid_month).
Defined.

End TimeExtractor.
Import TimeExtractor.

(* ================================================================== *)
(** * Facts about the Python values *)
(* ================================================================== *)

Module PyFacts.

(** ** Order of datetimes *)

Lemma lex_compare_antisym (a : list Z) : forall b,
  lex_compare a b = CompOpp (lex_compare b a).
Proof.
  induction a as [|x a IH]; intros [|y b]; simpl; try reflexivity.
  rewrite (Z.compare_antisym y x).
  destruct (y ?= x); simpl; auto.
Qed.

Lemma lex_compare_eq (a : list Z) : forall b,
  lex_compare a b = Eq -> a = b.
Proof.
  induction a as [|x a IH]; intros [|y b]; simpl; try discriminate; auto.
  destruct (x ?= y) eqn:E; try discriminate.
  apply Z.compare_eq in E. intros H. f_equal; auto.
Qed.

Lemma lex_compare_refl (a : list Z) : lex_compare a a = Eq.
Proof.
  induction a as [|x a IH]; simpl; [reflexivity|].
  rewrite Z.compare_refl. exact IH.
Qed.

Lemma lex_compare_trans (a : list Z) : forall b c,
  lex_compare a b <> Gt -> lex_compare b c <> Gt -> lex_compare a c <> Gt.
Proof.
  induction a as [|x a IH]; intros [|y b] [|z c]; simpl;
    try congruence.
  destruct (Z.compare_spec x y), (Z.compare_spec y z),
    (Z.compare_spec x z); subst; try congruence; try lia.
  apply IH.
Qed.

Lemma datetime_leb_refl (a : datetime) : datetime_leb a a = true.
Proof.
  unfold datetime_leb, datetime_compare. rewrite lex_compare_refl.
  reflexivity.
Qed.

Lemma datetime_leb_total (a b : datetime) :
  datetime_leb a b = true \/ datetime_leb b a = true.
Proof.
  unfold datetime_leb, datetime_compare.
  rewrite (lex_compare_antisym (fields b) (fields a)).
  destruct (lex_compare (fields a) (fields b)); simpl; auto.
Qed.

Lemma datetime_leb_trans (a b c : datetime) :
  datetime_leb a b = true -> datetime_leb b c = true ->
  datetime_leb a c = true.
Proof.
  unfold datetime_leb, datetime_compare. intros H1 H2.
  assert (H := lex_compare_trans (fields a) (fields b) (fields c)).
  destruct (lex_compare (fields a) (fields b)),
    (lex_compare (fields b) (fields c)),
    (lex_compare (fields a) (fields c)); try discriminate; try reflexivity;
    exfalso; apply H; congruence.
Qed.

Lemma datetime_leb_antisym (a b : datetime) :
  datetime_leb a b = true -> datetime_leb b a = true -> a = b.
Proof.
  unfold datetime_leb, datetime_compare.
  rewrite (lex_compare_antisym (fields b) (fields a)).
  destruct (lex_compare (fields a) (fields b)) eqn:E; simpl;
    try discriminate.
  intros _ _. apply lex_compare_eq in E.
  destruct a, b; unfold fields in E; simpl in E. congruence.
Qed.

(** ** The stable sort *)

Section StableSortFacts.
Variables (K A : Type) (before : K -> K -> bool).

Let R (x y : K * A) : Prop := before (fst x) (fst y) = true.

Lemma insert_perm (x : K * A) (l : list (K * A)) :
  Permutation (insert before x l) (x :: l).
Proof.
  induction l as [|y l IH]; simpl; [reflexivity|].
  destruct (before (fst x) (fst y)); [reflexivity|].
  rewrite IH. apply perm_swap.
Qed.

Lemma stable_sort_perm (l : list (K * A)) :
  Permutation (stable_sort before l) l.
Proof.
  induction l as [|x l IH]; simpl; [reflexivity|].
  rewrite insert_perm. constructor. exact IH.
Qed.

Hypothesis before_total :
  forall a b, before a b = true \/ before b a = true.
Hypothesis before_trans :
  forall a b c, before a b = true -> before b c = true ->
                before a c = true.

Lemma insert_sorted (x : K * A) (l : list (K * A)) :
  StronglySorted R l -> StronglySorted R (insert before x l).
Proof.
  induction 1 as [|y l Hs IH Hy]; simpl.
  - constructor; constructor.
  - destruct (before (fst x) (fst y)) eqn:E.
    + constructor; [constructor; assumption|].
      constructor; [exact E|].
      rewrite Forall_forall in *. intros z Hz.
      unfold R. eapply before_trans; [exact E|]. apply Hy, Hz.
    + constructor; [exact IH|].
      rewrite Forall_forall in *. intros z Hz.
      apply (Permutation_in _ (insert_perm x l)) in Hz.
      destruct Hz as [<-|Hz]; [|apply Hy, Hz].
      unfold R. destruct (before_total (fst x) (fst y)); congruence.
Qed.

Lemma stable_sort_sorted (l : list (K * A)) :
  StronglySorted R (stable_sort before l).
Proof.
  induction l as [|x l IH]; simpl; [constructor|].
  apply insert_sorted, IH.
Qed.

(** Stability: the elements whose keys are equivalent to [c] appear
    in the output in their input order. *)
Definition same_class (c : K) (e : K * A) : bool :=
  before (fst e) c && before c (fst e).

Lemma insert_same_class (c : K) (x : K * A) (l : list (K * A)) :
  filter (same_class c) (insert before x l)
  = filter (same_class c) (x :: l).
Proof.
  induction l as [|y l IH]; [reflexivity|].
  simpl insert.
  destruct (before (fst x) (fst y)) eqn:E; [reflexivity|].
  simpl filter in *.
  destruct (same_class c x) eqn:Hx, (same_class c y) eqn:Hy;
    rewrite IH; try reflexivity.
  exfalso. unfold same_class in Hx, Hy.
  apply andb_prop in Hx as [Hx1 Hx2]. apply andb_prop in Hy as [Hy1 Hy2].
  rewrite (before_trans _ _ _ Hx1 Hy2) in E. discriminate.
Qed.

Lemma stable_sort_stable (c : K) (l : list (K * A)) :
  filter (same_class c) (stable_sort before l) = filter (same_class c) l.
Proof.
  induction l as [|x l IH]; [reflexivity|].
  simpl stable_sort. rewrite insert_same_class.
  simpl. rewrite IH. reflexivity.
Qed.

End StableSortFacts.


(** ** Sorting by a key *)

Section KeyedSort.
Variables (K A : Type) (before : K -> K -> bool) (key : A -> K).

Definition keyed (x : A) : K * A := (key x, x).

Definition sort_by (l : list A) : list A :=
  map snd (stable_sort before (map keyed l)).

Lemma sort_by_perm (l : list A) : Permutation (sort_by l) l.
Proof.
  unfold sort_by.
  rewrite (Permutation_map snd (stable_sort_perm _ _ before _)).
  rewrite map_map. simpl. rewrite map_id. reflexivity.
Qed.

Lemma sort_by_keyed (l : list A) :
  stable_sort before (map keyed l) = map keyed (sort_by l).
Proof.
  unfold sort_by. rewrite map_map. symmetry.
  transitivity (map (fun e : K * A => e)
                    (stable_sort before (map keyed l)));
    [|apply map_id].
  apply map_ext_in. intros e He.
  apply (Permutation_in _ (stable_sort_perm _ _ before _)) in He.
  apply in_map_iff in He as (f & <- & _). reflexivity.
Qed.

Hypothesis before_total :
  forall a b, before a b = true \/ before b a = true.
Hypothesis before_trans :
  forall a b c, before a b = true -> before b c = true ->
                before a c = true.

Lemma sort_by_sorted (l : list A) :
  StronglySorted (fun x y => before (key x) (key y) = true) (sort_by l).
Proof.
  pose proof (stable_sort_sorted K A before before_total before_trans
                (map keyed l)) as H.
  rewrite sort_by_keyed in H.
  induction (sort_by l) as [|x s IH]; [constructor|].
  simpl in H. inversion H as [|? ? Hs Hall]; subst.
  constructor; [auto|].
  rewrite Forall_forall in *. intros y Hy.
  apply (Hall (keyed y)). apply in_map, Hy.
Qed.

End KeyedSort.

End PyFacts.

(* ================================================================== *)
(** * Facts about the recording store *)
(* ================================================================== *)

Module FSFacts.

(** Induction on a store, with the hypothesis for every entry of a
    directory. *)
Lemma node_induction (P : node -> Prop) :
  (forall sz, P (File sz)) ->
  (forall es, Forall (fun e => P (snd e)) es -> P (Dir es)) ->
  forall n, P n.
Proof.
  intros HF HD. fix IH 1. intros [sz|es]; [apply HF|].
  apply HD. induction es as [|e es IHes]; constructor;
    [apply IH | exact IHes].
Qed.

Lemma filter_id {A} (f : A -> bool) (l : list A) :
  (forall x, In x l -> f x = true) -> filter f l = l.
Proof.
  intros H. apply forallb_filter_id, forallb_forall, H.
Qed.

Lemma filter_twice {A} (f g : A -> bool) (l : list A) :
  filter f (filter g l) = filter (fun x => g x && f x) l.
Proof.
  induction l as [|x l IH]; simpl; [reflexivity|].
  destruct (g x); simpl; [destruct (f x)|]; rewrite IH; reflexivity.
Qed.

(** ** Names and entries *)

Lemma existsb_eqb_In (x : string) (l : list string) :
  existsb (String.eqb x) l = true <-> In x l.
Proof.
  rewrite existsb_exists. split.
  - intros (y & Hy & E). apply String.eqb_eq in E. subst. exact Hy.
  - intros H. exists x. split; [exact H | apply String.eqb_refl].
Qed.

Lemma nodupb_NoDup (l : list string) : nodupb l = true <-> NoDup l.
Proof.
  induction l as [|x l IH]; simpl.
  - split; [constructor | reflexivity].
  - rewrite andb_true_iff, negb_true_iff, IH. split.
    + intros [Hx Hl]. constructor; [|exact Hl].
      rewrite <- existsb_eqb_In. congruence.
    + intros H. inversion H as [|? ? Hx Hl]; subst. split; [|exact Hl].
      destruct (existsb (String.eqb x) l) eqn:E; [|reflexivity].
      apply existsb_eqb_In in E. contradiction.
Qed.

Lemma assoc_In (name : string) (es : list (string * node)) (c : node) :
  assoc name es = Some c -> In (name, c) es.
Proof.
  induction es as [|[n0 c0] es IH]; simpl; [discriminate|].
  destruct (String.eqb name n0) eqn:E.
  - apply String.eqb_eq in E. intros H; inversion H; subst. auto.
  - auto.
Qed.

Lemma assoc_None (name : string) (es : list (string * node)) :
  assoc name es = None <-> ~ In name (map fst es).
Proof.
  induction es as [|[n0 c0] es IH]; simpl.
  - tauto.
  - destruct (String.eqb name n0) eqn:E.
    + apply String.eqb_eq in E. subst. split; [discriminate | tauto].
    + apply String.eqb_neq in E. rewrite IH. split.
      * intros H [H1|H1]; [congruence | tauto].
      * tauto.
Qed.

Lemma In_assoc (name : string) (es : list (string * node)) (c : node) :
  NoDup (map fst es) -> In (name, c) es -> assoc name es = Some c.
Proof.
  induction es as [|[n0 c0] es IH]; simpl; [tauto|].
  intros Hnd [H|H]; inversion Hnd as [|? ? Hn0 Hes]; subst.
  - inversion H; subst. rewrite String.eqb_refl. reflexivity.
  - destruct (String.eqb name n0) eqn:E; [|auto].
    apply String.eqb_eq in E. subst. exfalso. apply Hn0.
    apply (in_map fst) in H. exact H.
Qed.

Lemma wf_Dir (es : list (string * node)) :
  wf (Dir es) = true <->
  NoDup (map fst es) /\ Forall (fun e => wf (snd e) = true) es.
Proof.
  simpl. rewrite andb_true_iff, nodupb_NoDup, forallb_forall, Forall_forall.
  tauto.
Qed.

Lemma wf_assoc (name : string) (es : list (string * node)) (c : node) :
  wf (Dir es) = true -> assoc name es = Some c -> wf c = true.
Proof.
  intros Hwf H. apply wf_Dir in Hwf as [_ Hall].
  rewrite Forall_forall in Hall. exact (Hall _ (assoc_In _ _ _ H)).
Qed.

Lemma wf_lookup (p : path) : forall n c,
  wf n = true -> lookup p n = Some c -> wf c = true.
Proof.
  induction p as [|name p IH]; simpl; intros n c Hwf H.
  - inversion H; subst. exact Hwf.
  - destruct n as [sz|es]; [discriminate|].
    destruct (assoc name es) as [c0|] eqn:E; [|discriminate].
    eapply IH; [|exact H]. eapply wf_assoc; eassumption.
Qed.

(** ** The candidates of a directory *)

Definition matching (es : list (string * node)) : list path :=
  map (fun e => [fst e]) (filter (fun e => fnmatch_mp4 (fst e)) es).

Definition below (es : list (string * node)) : list path :=
  flat_map (fun e => map (cons (fst e)) (rglob (snd e))) es.

Lemma rglob_Dir (es : list (string * node)) :
  rglob (Dir es) = matching es ++ below es.
Proof. reflexivity. Qed.

Lemma in_matching (q : path) (es : list (string * node)) :
  In q (matching es) -> exists n, q = [n] /\ In n (map fst es).
Proof.
  unfold matching. rewrite in_map_iff. intros (e & <- & He).
  apply filter_In in He as [He _]. exists (fst e). split; [reflexivity|].
  apply in_map, He.
Qed.

Lemma rglob_not_nil (n : node) : ~ In [] (rglob n).
Proof.
  destruct n as [sz|es]; simpl; [tauto|].
  rewrite in_app_iff, in_map_iff, in_flat_map.
  intros [(e & H & _) | (e & _ & H)]; [discriminate|].
  apply in_map_iff in H as (q & H & _). discriminate.
Qed.

Lemma in_below (q : path) (es : list (string * node)) :
  In q (below es) ->
  exists n c q', q = n :: q' /\ In (n, c) es /\ In q' (rglob c) /\ q' <> [].
Proof.
  unfold below. rewrite in_flat_map. intros ([n c] & He & H).
  apply in_map_iff in H as (q' & <- & Hq'). simpl in *.
  exists n, c, q'. repeat split; auto.
  intros ->. exact (rglob_not_nil _ Hq').
Qed.

Lemma matching_NoDup (es : list (string * node)) :
  NoDup (map fst es) -> NoDup (matching es).
Proof.
  unfold matching.
  induction es as [|[n c] es IH]; simpl; intros H; [constructor|].
  inversion H as [|? ? Hn Hes]; subst.
  destruct (fnmatch_mp4 n); simpl; [|auto].
  constructor; [|auto].
  intros Hin. apply in_matching in Hin as (n' & E & Hn').
  inversion E; subst. contradiction.
Qed.

Lemma below_NoDup (es : list (string * node)) :
  NoDup (map fst es) ->
  Forall (fun e => NoDup (rglob (snd e))) es ->
  NoDup (below es).
Proof.
  induction es as [|[n c] es IH]; simpl; intros H Hall; [constructor|].
  inversion H as [|? ? Hn Hes]; subst.
  inversion Hall as [|? ? Hc Hall']; subst. simpl in Hc.
  apply NoDup_app.
  - apply Finite.Injective_map_NoDup; [|exact Hc].
    intros a b E. inversion E. reflexivity.
  - apply IH; assumption.
  - intros q Hq Hq'. apply in_map_iff in Hq as (q0 & <- & _).
    apply in_below in Hq' as (n' & c' & q' & E & Hin & _).
    inversion E; subst. apply Hn. apply (in_map fst) in Hin. exact Hin.
Qed.

Lemma rglob_NoDup (n : node) : wf n = true -> NoDup (rglob n).
Proof.
  induction n as [sz|es IH] using node_induction; intros Hwf.
  - constructor.
  - apply wf_Dir in Hwf as [Hnd Hall]. rewrite rglob_Dir.
    apply NoDup_app.
    + apply matching_NoDup, Hnd.
    + apply below_NoDup; [exact Hnd|].
      rewrite Forall_forall in *. intros e He. apply IH; auto.
    + intros q Hq Hq'. apply in_matching in Hq as (n & -> & _).
      apply in_below in Hq' as (n' & c' & q' & E & _ & _ & Hne).
      inversion E; subst. congruence.
Qed.

(** ** Unlinking one file *)

(** [other p q]: the path [q] is not [p]. *)
Definition other (p q : path) : bool :=
  if list_eq_dec string_dec q p then false else true.

Lemma other_true (p q : path) : q <> p -> other p q = true.
Proof.
  intros H. unfold other. destruct (list_eq_dec string_dec q p); tauto.
Qed.

Lemma other_cons (n : string) (p q : path) :
  other (n :: p) (n :: q) = other p q.
Proof.
  unfold other.
  destruct (list_eq_dec string_dec (n :: q) (n :: p)) as [E|E],
    (list_eq_dec string_dec q p) as [E'|E']; try reflexivity.
  - inversion E. contradiction.
  - subst. contradiction.
Qed.

Lemma filter_other_map_cons (n : string) (p : path) (l : list path) :
  filter (other (n :: p)) (map (cons n) l)
  = map (cons n) (filter (other p) l).
Proof.
  induction l as [|q l IH]; simpl; [reflexivity|].
  rewrite other_cons. destruct (other p q); simpl; rewrite IH; reflexivity.
Qed.

Lemma filter_other_below (n : string) (p : path)
      (es : list (string * node)) :
  ~ In n (map fst es) ->
  filter (other (n :: p)) (below es) = below es.
Proof.
  intros Hn. apply filter_id. intros q Hq. apply other_true.
  apply in_below in Hq as (n' & c & q' & -> & Hin & _).
  intros E. inversion E; subst. apply Hn.
  apply (in_map fst) in Hin. exact Hin.
Qed.

Lemma filter_other_matching (n : string) (es : list (string * node)) :
  ~ In n (map fst es) ->
  filter (other [n]) (matching es) = matching es.
Proof.
  intros Hn. apply filter_id. intros q Hq. apply other_true.
  apply in_matching in Hq as (n' & -> & Hin).
  intros E. inversion E; subst. contradiction.
Qed.

Lemma remove_entry_names (name : string) (es : list (string * node)) :
  forall x, In x (map fst (remove_entry name es)) -> In x (map fst es).
Proof.
  induction es as [|[n0 c0] es IH]; simpl; [tauto|].
  destruct (String.eqb name n0); simpl; intros x; [tauto|].
  intros [H|H]; auto.
Qed.

Lemma remove_entry_NoDup (name : string) (es : list (string * node)) :
  NoDup (map fst es) -> NoDup (map fst (remove_entry name es)).
Proof.
  induction es as [|[n0 c0] es IH]; simpl; intros H; [constructor|].
  inversion H as [|? ? Hn Hes]; subst.
  destruct (String.eqb name n0); simpl; [exact Hes|].
  constructor; [|auto].
  intros Hin. apply Hn. eapply remove_entry_names, Hin.
Qed.

Lemma remove_entry_In (name : string) (es : list (string * node)) :
  forall e, In e (remove_entry name es) -> In e es.
Proof.
  induction es as [|[n0 c0] es IH]; simpl; [tauto|].
  destruct (String.eqb name n0); simpl; intros e; [tauto|].
  intros [H|H]; auto.
Qed.

Lemma replace_entry_names (name : string) (c' : node)
      (es : list (string * node)) :
  map fst (replace_entry name c' es) = map fst es.
Proof.
  induction es as [|[n0 c0] es IH]; simpl; [reflexivity|].
  destruct (String.eqb name n0); simpl; [|rewrite IH]; reflexivity.
Qed.

Lemma replace_entry_In (name : string) (c' : node)
      (es : list (string * node)) :
  forall e, In e (replace_entry name c' es) -> In e es \/ e = (name, c').
Proof.
  induction es as [|[n0 c0] es IH]; simpl; [tauto|].
  destruct (String.eqb name n0) eqn:E; simpl; intros e.
  - apply String.eqb_eq in E. subst. intros [H|H]; auto.
  - intros [H|H]; auto. destruct (IH _ H); auto.
Qed.

Lemma below_remove_file (name : string) (sz : Z)
      (es : list (string * node)) :
  assoc name es = Some (File sz) ->
  below (remove_entry name es) = below es.
Proof.
  induction es as [|[n0 c0] es IH]; simpl; [discriminate|].
  destruct (String.eqb name n0); simpl.
  - intros H; inversion H; subst. reflexivity.
  - intros H. rewrite IH by exact H. reflexivity.
Qed.

Lemma matching_cons (n0 : string) (c0 : node) (es : list (string * node)) :
  matching ((n0, c0) :: es)
  = (if fnmatch_mp4 n0 then [[n0]] else []) ++ matching es.
Proof.
  unfold matching. simpl. destruct (fnmatch_mp4 n0); reflexivity.
Qed.

Lemma matching_remove (name : string) (es : list (string * node)) :
  NoDup (map fst es) ->
  matching (remove_entry name es) = filter (other [name]) (matching es).
Proof.
  induction es as [|[n0 c0] es IH]; intros Hnd; [reflexivity|].
  simpl in Hnd. inversion Hnd as [|? ? Hn Hes]; subst.
  rewrite matching_cons, filter_app. simpl remove_entry.
  destruct (String.eqb name n0) eqn:E.
  - apply String.eqb_eq in E. subst.
    rewrite (filter_other_matching _ _ Hn).
    destruct (fnmatch_mp4 n0); simpl; [|reflexivity].
    unfold other.
    destruct (list_eq_dec string_dec [n0] [n0]); [reflexivity|contradiction].
  - apply String.eqb_neq in E.
    rewrite matching_cons, (IH Hes). f_equal.
    destruct (fnmatch_mp4 n0); simpl; [|reflexivity].
    rewrite other_true by congruence. reflexivity.
Qed.

Lemma matching_replace (name : string) (c' : node)
      (es : list (string * node)) :
  matching (replace_entry name c' es) = matching es.
Proof.
  induction es as [|[n0 c0] es IH]; [reflexivity|].
  simpl replace_entry.
  destruct (String.eqb name n0); rewrite !matching_cons; [reflexivity|].
  rewrite IH. reflexivity.
Qed.

Lemma below_replace (name : string) (p' : path) (c c' : node)
      (es : list (string * node)) :
  NoDup (map fst es) ->
  assoc name es = Some c ->
  rglob c' = filter (other p') (rglob c) ->
  below (replace_entry name c' es)
  = filter (other (name :: p')) (below es).
Proof.
  intros Hnd Hc Hr.
  induction es as [|[n0 c0] es IH]; simpl in *; [discriminate|].
  inversion Hnd as [|? ? Hn Hes]; subst.
  rewrite filter_app.
  destruct (String.eqb name n0) eqn:E.
  - apply String.eqb_eq in E. subst. inversion Hc; subst. simpl.
    rewrite filter_other_map_cons, Hr.
    rewrite (filter_other_below _ _ _ Hn). reflexivity.
  - apply String.eqb_neq in E. simpl.
    rewrite (IH Hes Hc). f_equal.
    symmetry. apply filter_id. intros q Hq. apply other_true.
    apply in_map_iff in Hq as (q0 & <- & _). congruence.
Qed.

(** A successful [unlink] removes exactly that path from the
    candidates, and names stay unique. *)
Lemma unlink_rglob (allowed : bool) (p : path) : forall n n',
  wf n = true ->
  unlink allowed p n = Ok n' ->
  rglob n' = filter (other p) (rglob n) /\ wf n' = true.
Proof.
  induction p as [|name p' IH]; intros n n' Hwf H; simpl in H;
    [discriminate|].
  destruct n as [sz|es]; [discriminate|].
  destruct (assoc name es) as [c|] eqn:Hc; [|discriminate].
  pose proof (proj1 (wf_Dir es) Hwf) as [Hnd Hall].
  destruct p' as [|name' p''].
  - destruct c as [sz|?]; [|discriminate].
    destruct allowed; [|discriminate].
    inversion H; subst. split.
    + rewrite !rglob_Dir, filter_app.
      rewrite (below_remove_file _ _ _ Hc), (matching_remove _ _ Hnd).
      f_equal. symmetry. apply filter_id. intros q Hq. apply other_true.
      apply in_below in Hq as (n0 & c0 & q' & -> & _ & _ & Hne).
      congruence.
    + apply wf_Dir. split; [apply remove_entry_NoDup, Hnd|].
      rewrite Forall_forall in *. intros e He.
      apply Hall. eapply remove_entry_In, He.
  - destruct (unlink allowed (name' :: p'') c) as [c'|] eqn:Hu;
      [|discriminate].
    simpl in H. inversion H; subst.
    destruct (IH c c' (wf_assoc _ _ _ Hwf Hc) Hu) as [Hr Hwf'].
    split.
    + rewrite !rglob_Dir, filter_app.
      rewrite matching_replace, (below_replace _ _ _ _ _ Hnd Hc Hr).
      f_equal. symmetry. apply filter_id. intros q Hq. apply other_true.
      apply in_matching in Hq as (n0 & -> & _). congruence.
    + apply wf_Dir. rewrite replace_entry_names. split; [exact Hnd|].
      rewrite Forall_forall in *. intros e He.
      destruct (replace_entry_In _ _ _ _ He) as [He'| ->]; auto.
Qed.

End FSFacts.

(* ================================================================== *)
(** * Facts about the retention sweep *)
(* ================================================================== *)

Module SweepFacts.
Import PyFacts FSFacts.

(** The order in which the sweep ranks two timestamps: newest first. *)
Definition newer_first (a b : datetime) : bool := datetime_leb b a.

(** The candidates of a stream, newest first, equal timestamps in
    enumeration order. *)
Definition newest_first (video_files : list path) : list path :=
  map snd (stable_sort newer_first
             (map (fun f => (filename_time (name f), f)) video_files)).

Lemma mapM_parse (l : list path) :
  mapM (fun f => parse_filename_time (name f)) l
  = Ok (map (fun f => filename_time (name f)) l).
Proof.
  induction l as [|f l IH]; simpl; [reflexivity|].
  rewrite parse_filename_time_total. simpl. rewrite IH. reflexivity.
Qed.

Lemma combine_keys {A B} (g : A -> B) (l : list A) :
  combine (map g l) l = map (fun x => (g x, x)) l.
Proof.
  induction l as [|x l IH]; simpl; [reflexivity|]. rewrite IH. reflexivity.
Qed.

Lemma sorted_newest_first (video_files : list path) :
  sorted video_files (fun f => parse_filename_time (name f)) true
  = Ok (newest_first video_files).
Proof.
  unfold sorted. rewrite mapM_parse. simpl. rewrite combine_keys.
  reflexivity.
Qed.

Section Sweep.
Variable may_unlink : path -> bool.

Lemma files_to_delete_eq (keep_videos : Z) (stream : node) :
  files_to_delete keep_videos stream
  = Ok (slice_from keep_videos (newest_first (rglob stream))).
Proof.
  unfold files_to_delete. rewrite sorted_newest_first. reflexivity.
Qed.

(** ** The deletion loop *)

(** Every attempt of a run succeeded. *)
Definition no_failure (l : list event) : Prop :=
  forall f e, ~ In (DeleteFailed f e) l.

(** An event of the deletion loop of the directory [base]. *)
Definition deletion_event (base : path) (D : list path) (e : event)
  : Prop :=
  (exists f, In f D /\ f <> [] /\ e = Deleted (base ++ f))
  \/ (exists f x, In f D /\ e = DeleteFailed (base ++ f) x).

Lemma delete_files_cons (base : path) (f : path) (D : list path)
      (s : node) :
  delete_files may_unlink base (f :: D) s
  = match unlink (may_unlink (base ++ f)) f s with
    | Ok s' =>
        (fst (delete_files may_unlink base D s'),
         seq_effects (mk_effects true false 1 [Deleted (base ++ f)])
                     (snd (delete_files may_unlink base D s')))
    | Raise e =>
        (fst (delete_files may_unlink base D s),
         seq_effects (mk_effects false false 0 [DeleteFailed (base ++ f) e])
                     (snd (delete_files may_unlink base D s)))
    end.
Proof.
  simpl. destruct (unlink _ f s) as [s'|e].
  - destruct (delete_files may_unlink base D s'); reflexivity.
  - destruct (delete_files may_unlink base D s); reflexivity.
Qed.

Lemma delete_files_wf (base : path) (D : list path) : forall s,
  wf s = true -> wf (fst (delete_files may_unlink base D s)) = true.
Proof.
  induction D as [|f D IH]; intros s Hwf; [exact Hwf|].
  rewrite delete_files_cons.
  destruct (unlink _ f s) as [s'|e] eqn:Hu; simpl; [|auto].
  apply IH. eapply unlink_rglob; eassumption.
Qed.

Lemma delete_files_log (base : path) (D : list path) : forall s e,
  In e (log (snd (delete_files may_unlink base D s))) ->
  deletion_event base D e.
Proof.
  induction D as [|f D IH]; intros s e; [simpl; tauto|].
  rewrite delete_files_cons.
  assert (Hmono : forall e0, deletion_event base D e0 ->
                             deletion_event base (f :: D) e0).
  { intros e0 [(g & Hg & Hne & He) | (g & x & Hg & He)];
      [left; exists g | right; exists g, x]; simpl; auto. }
  destruct (unlink _ f s) as [s'|x] eqn:Hu; simpl.
  - intros [<-|H]; [|eauto].
    left. exists f. simpl. repeat split; auto.
    intros ->. discriminate Hu.
  - intros [<-|H]; [|eauto].
    right. exists f, x. simpl. auto.
Qed.

(** The flag and the counter agree with the printed deletions. *)
Lemma delete_files_any (base : path) (D : list path) : forall s,
  let eff := snd (delete_files may_unlink base D s) in
  0 <= total_deleted eff
  /\ (deleted_any eff = true <-> 0 < total_deleted eff)
  /\ (deleted_any eff = true <->
      exists f, f <> [] /\ In (Deleted (base ++ f)) (log eff)).
Proof.
  induction D as [|f D IH]; intros s.
  - simpl. repeat split; try lia; try discriminate.
    intros (f & _ & []).
  - cbv zeta. rewrite delete_files_cons.
    destruct (unlink _ f s) as [s'|x] eqn:Hu;
      cbn [fst snd seq_effects deleted_any total_deleted log orb];
      simpl app; simpl In.
    + destruct (IH s') as (H0 & H1 & H2).
      split; [lia|]. split; [split; [lia|reflexivity]|].
      split; [|reflexivity].
      intros _. exists f. split; [|auto].
      intros ->. discriminate Hu.
    + destruct (IH s) as (H0 & H1 & H2).
      split; [lia|]. split; [rewrite H1; lia|].
      rewrite H2. split.
      * intros (g & Hg & Hin). eauto.
      * intros (g & Hg & [Hin|Hin]); [discriminate|eauto].
Qed.

(** The deletion loop does not touch [app_deleted_any]. *)
Lemma delete_files_flag (base : path) (D : list path) : forall s,
  app_deleted_any (snd (delete_files may_unlink base D s)) = false.
Proof.
  induction D as [|f D IH]; intros s; [reflexivity|].
  rewrite delete_files_cons.
  destruct (unlink _ f s) as [s'|x]; simpl; apply IH.
Qed.

Lemma delete_files_none (base : path) (D : list path) : forall s,
  deleted_any (snd (delete_files may_unlink base D s)) = false ->
  fst (delete_files may_unlink base D s) = s.
Proof.
  induction D as [|f D IH]; intros s; [reflexivity|].
  rewrite delete_files_cons.
  destruct (unlink _ f s) as [s'|x]; simpl; [discriminate|].
  apply IH.
Qed.

(** [q] is none of the paths of [D]. *)
Definition spared (D : list path) (q : path) : bool :=
  forallb (fun d => other d q) D.

Lemma spared_iff (D : list path) (q : path) :
  spared D q = true <-> ~ In q D.
Proof.
  unfold spared. rewrite forallb_forall. split.
  - intros H Hin. specialize (H _ Hin). unfold other in H.
    destruct (list_eq_dec string_dec q q); congruence.
  - intros H d Hd. apply other_true. congruence.
Qed.

(** When every unlink succeeds, what is left of the candidates is
    what the deletion list spares. *)
Lemma delete_files_rglob (base : path) (D : list path) : forall s,
  wf s = true ->
  no_failure (log (snd (delete_files may_unlink base D s))) ->
  rglob (fst (delete_files may_unlink base D s))
  = filter (spared D) (rglob s).
Proof.
  induction D as [|f D IH]; intros s Hwf Hok.
  - simpl. symmetry. apply filter_id. reflexivity.
  - revert Hok. rewrite delete_files_cons.
    destruct (unlink _ f s) as [s'|x] eqn:Hu; simpl; intros Hok.
    + destruct (unlink_rglob _ _ _ _ Hwf Hu) as [Hr Hwf'].
      rewrite IH; [|exact Hwf'|].
      * rewrite Hr, filter_twice. reflexivity.
      * intros g e Hin. apply (Hok g e). right. exact Hin.
    + exfalso. apply (Hok (base ++ f) x). left. reflexivity.
Qed.


(** ** One stream *)

Lemma process_stream_eq (keep_videos : Z) (base : path) (s : node) :
  process_stream may_unlink keep_videos base s
  = if Z.of_nat (length (rglob s)) <=? keep_videos
    then (Some s, no_effects)
    else
      let r := delete_files may_unlink base
                 (slice_from keep_videos (newest_first (rglob s))) s in
      if deleted_any (snd r) && negb (any (iterdir (fst r)))
      then
        if may_unlink base
        then (None, seq_effects (snd r)
                      (mk_effects false true 0 [StreamDirRemoved base]))
        else (Some (fst r),
              seq_effects (snd r)
                (mk_effects false false 0
                   [StreamDirRemoveFailed base PermissionError]))
      else (Some (fst r),
            mk_effects (deleted_any (snd r)) (deleted_any (snd r))
                       (total_deleted (snd r)) (log (snd r))).
Proof.
  unfold process_stream, rmdir. rewrite files_to_delete_eq. cbv zeta.
  destruct (Z.of_nat (length (rglob s)) <=? keep_videos); [reflexivity|].
  destruct (delete_files may_unlink base _ s) as [s' eff]. cbn [fst snd].
  destruct (deleted_any eff && negb (any (iterdir s'))); [|reflexivity].
  destruct (may_unlink base); reflexivity.
Qed.

Lemma newest_first_perm (l : list path) : Permutation (newest_first l) l.
Proof.
  unfold newest_first.
  rewrite (Permutation_map snd (stable_sort_perm _ _ newer_first _)).
  rewrite map_map. simpl. rewrite map_id. reflexivity.
Qed.

Lemma skipn_In {A} (n : nat) (l : list A) (x : A) :
  In x (skipn n l) -> In x l.
Proof.
  intros H. rewrite <- (firstn_skipn n l). apply in_app_iff. auto.
Qed.

Lemma slice_from_incl {A} (k : Z) (l : list A) :
  incl (slice_from k l) l.
Proof.
  unfold slice_from. intros x Hx.
  destruct (k <? 0); eapply skipn_In; exact Hx.
Qed.

Lemma to_delete_incl (keep_videos : Z) (s : node) :
  incl (slice_from keep_videos (newest_first (rglob s))) (rglob s).
Proof.
  intros f Hf. apply slice_from_incl in Hf.
  eapply Permutation_in; [apply newest_first_perm | exact Hf].
Qed.

(** What one stream prints: deletions below [base], and at most the
    removal of [base] itself or the failure to remove it. *)
Lemma process_stream_log (keep_videos : Z) (base : path) (s : node)
      (e : event) :
  In e (log (snd (process_stream may_unlink keep_videos base s))) ->
  deletion_event base (rglob s) e
  \/ (e = StreamDirRemoved base
      /\ fst (process_stream may_unlink keep_videos base s) = None)
  \/ (exists x, e = StreamDirRemoveFailed base x).
Proof.
  rewrite process_stream_eq. cbv zeta.
  assert (Hdel : forall e0,
             deletion_event base
               (slice_from keep_videos (newest_first (rglob s))) e0 ->
             deletion_event base (rglob s) e0).
  { intros e0 [(g & Hg & Hne & He) | (g & x & Hg & He)];
      [left; exists g | right; exists g, x];
      repeat split; auto; apply (to_delete_incl _ _ _ Hg). }
  destruct (Z.of_nat (length (rglob s)) <=? keep_videos); [simpl; tauto|].
  destruct (deleted_any _ && negb _); [destruct (may_unlink base)|]; simpl.
  - rewrite in_app_iff. simpl. intros [H|[<-|[]]]; [|auto].
    left. eapply Hdel, delete_files_log, H.
  - rewrite in_app_iff. simpl. intros [H|[<-|[]]]; [|eauto].
    left. eapply Hdel, delete_files_log, H.
  - intros H. left. eapply Hdel, delete_files_log, H.
Qed.

Lemma process_stream_any (keep_videos : Z) (base : path) (s : node) :
  let eff := snd (process_stream may_unlink keep_videos base s) in
  0 <= total_deleted eff
  /\ (deleted_any eff = true <-> 0 < total_deleted eff)
  /\ (deleted_any eff = true <->
      exists f, f <> [] /\ In (Deleted (base ++ f)) (log eff)).
Proof.
  cbv zeta. rewrite process_stream_eq. cbv zeta.
  destruct (Z.of_nat (length (rglob s)) <=? keep_videos).
  - simpl. repeat split; try lia; try discriminate.
    intros (f & _ & []).
  - pose proof (delete_files_any base
                  (slice_from keep_videos (newest_first (rglob s))) s)
      as (H0 & H1 & H2). cbv zeta in H0, H1, H2.
    destruct (deleted_any _ && negb _); [destruct (may_unlink base)|];
      cbn [fst snd seq_effects deleted_any total_deleted log];
      [| |tauto];
      rewrite orb_false_r, Z.add_0_r; repeat split; try tauto.
    + intros H. apply H2 in H as (g & Hg & Hin). exists g.
      rewrite in_app_iff. auto.
    + intros (g & Hg & Hin). apply H2. exists g. split; [exact Hg|].
      apply in_app_iff in Hin as [Hin|[Hin|[]]];
        [exact Hin | discriminate].
    + intros H. apply H2 in H as (g & Hg & Hin). exists g.
      rewrite in_app_iff. auto.
    + intros (g & Hg & Hin). apply H2. exists g. split; [exact Hg|].
      apply in_app_iff in Hin as [Hin|[Hin|[]]];
        [exact Hin | discriminate].
Qed.

(** [app_deleted_any] is set only when a file was deleted. *)
Lemma process_stream_flag (keep_videos : Z) (base : path) (s : node) :
  app_deleted_any (snd (process_stream may_unlink keep_videos base s)) = true ->
  deleted_any (snd (process_stream may_unlink keep_videos base s)) = true.
Proof.
  rewrite process_stream_eq. cbv zeta.
  destruct (Z.of_nat (length (rglob s)) <=? keep_videos);
    [simpl; discriminate|].
  pose proof (delete_files_flag base
                (slice_from keep_videos (newest_first (rglob s))) s) as Hf.
  destruct (deleted_any _ && negb _) eqn:Hc; [destruct (may_unlink base)|];
    cbn [fst snd seq_effects deleted_any app_deleted_any].
  - apply andb_prop in Hc as [-> _]. reflexivity.
  - rewrite Hf. discriminate.
  - auto.
Qed.

(** A stream in which nothing was deleted is left as it was. *)
Lemma process_stream_none (keep_videos : Z) (base : path) (s : node) :
  deleted_any (snd (process_stream may_unlink keep_videos base s)) = false ->
  process_stream may_unlink keep_videos base s
  = (Some s, snd (process_stream may_unlink keep_videos base s)).
Proof.
  rewrite process_stream_eq. cbv zeta.
  destruct (Z.of_nat (length (rglob s)) <=? keep_videos); [reflexivity|].
  destruct (deleted_any (snd (delete_files _ _ _ _))) eqn:Hany; simpl.
  - destruct (negb _); [destruct (may_unlink base)|]; simpl;
      rewrite ?Hany; discriminate.
  - intros _. rewrite (delete_files_none _ _ _ Hany). reflexivity.
Qed.

(** A stream that the sweep trimmed and left in place has an entry,
    unless the removal of the emptied directory failed. *)
Lemma process_stream_kept (keep_videos : Z) (base : path) (s s' : node) :
  fst (process_stream may_unlink keep_videos base s) = Some s' ->
  app_deleted_any (snd (process_stream may_unlink keep_videos base s))
  = true ->
  iterdir s' <> [].
Proof.
  rewrite process_stream_eq. cbv zeta.
  destruct (Z.of_nat (length (rglob s)) <=? keep_videos);
    [simpl; discriminate|].
  pose proof (delete_files_flag base
                (slice_from keep_videos (newest_first (rglob s))) s) as Hf.
  destruct (deleted_any (snd (delete_files _ _ _ _))) eqn:Hany; simpl.
  - destruct (iterdir (fst (delete_files _ _ _ _))) eqn:Hit; simpl.
    + destruct (may_unlink base); simpl; [discriminate|].
      rewrite Hf. discriminate.
    + intros H _; inversion H; subst. rewrite Hit. discriminate.
  - discriminate.
Qed.

Lemma process_stream_wf (keep_videos : Z) (base : path) (s s' : node) :
  wf s = true ->
  fst (process_stream may_unlink keep_videos base s) = Some s' ->
  wf s' = true.
Proof.
  rewrite process_stream_eq. cbv zeta. intros Hwf.
  destruct (Z.of_nat (length (rglob s)) <=? keep_videos); simpl.
  - intros H; inversion H; subst. exact Hwf.
  - destruct (deleted_any _ && negb _); [destruct (may_unlink base)|];
      simpl; [discriminate| |];
      intros H; inversion H; subst; apply delete_files_wf, Hwf.
Qed.

(** The candidates of a stream after the sweep; none once the
    directory is gone. *)
Definition remaining (after : option node) : list path :=
  match after with
  | Some s' => rglob s'
  | None => []
  end.

Lemma iterdir_nil_rglob (n : node) : iterdir n = [] -> rglob n = [].
Proof. destruct n as [sz|es]; simpl; [reflexivity|]. intros ->. reflexivity. Qed.

(** When the stream has more candidates than [keep_videos] and every
    unlink succeeds, what remains is what the deletion list spares. *)
Lemma process_stream_remaining (keep_videos : Z) (base : path) (s : node) :
  wf s = true ->
  keep_videos < Z.of_nat (length (rglob s)) ->
  no_failure (log (snd (process_stream may_unlink keep_videos base s))) ->
  remaining (fst (process_stream may_unlink keep_videos base s))
  = filter (spared (slice_from keep_videos (newest_first (rglob s))))
           (rglob s).
Proof.
  intros Hwf Hlt. rewrite process_stream_eq. cbv zeta.
  destruct (Z.leb_spec (Z.of_nat (length (rglob s))) keep_videos); [lia|].
  destruct (deleted_any (snd (delete_files _ _ _ _))) eqn:Hany; simpl.
  - destruct (iterdir (fst (delete_files _ _ _ _))) eqn:Hit; simpl.
    + destruct (may_unlink base); simpl; intros Hok.
      * rewrite <- delete_files_rglob with (base := base); auto.
        -- symmetry. apply iterdir_nil_rglob, Hit.
        -- intros g x Hin. apply (Hok g x). apply in_app_iff. auto.
      * apply delete_files_rglob; auto.
        intros g x Hin. apply (Hok g x). apply in_app_iff. auto.
    + intros Hok. apply delete_files_rglob; auto.
  - intros Hok. apply delete_files_rglob; auto.
Qed.


(** ** A loop over the entries of a directory *)

(** A removal of the directory [d] in the output. *)
Definition removal (e : event) (d : path) : Prop :=
  e = StreamDirRemoved d \/ e = AppDirRemoved d.

(** Every removal of a directory comes after a deletion of a file
    beneath that directory. *)
Definition justified (l : list event) : Prop :=
  forall pre e post d,
    l = pre ++ e :: post -> removal e d ->
    exists f, f <> [] /\ In (Deleted (d ++ f)) pre.

Lemma app_split {A} (l1 : list A) : forall l2 pre x post,
  l1 ++ l2 = pre ++ x :: post ->
  (exists post1, l1 = pre ++ x :: post1)
  \/ (exists pre2, pre = l1 ++ pre2 /\ l2 = pre2 ++ x :: post).
Proof.
  induction l1 as [|a l1 IH]; intros l2 pre x post H.
  - right. exists pre. auto.
  - destruct pre as [|b pre]; simpl in H; inversion H; subst.
    + left. exists l1. reflexivity.
    + destruct (IH _ _ _ _ H2) as [(post1 & ->) | (pre2 & -> & ->)].
      * left. exists post1. reflexivity.
      * right. exists pre2. auto.
Qed.

Lemma justified_nil : justified [].
Proof. intros [|? ?] e0 post d H; discriminate H. Qed.

Lemma justified_app (l1 l2 : list event) :
  justified l1 -> justified l2 -> justified (l1 ++ l2).
Proof.
  intros H1 H2 pre e post d H Hr.
  destruct (app_split _ _ _ _ _ H) as [(post1 & E) | (pre2 & -> & E)].
  - exact (H1 _ _ _ _ E Hr).
  - destruct (H2 _ _ _ _ E Hr) as (f & Hf & Hin).
    exists f. rewrite in_app_iff. auto.
Qed.

(** A log without removals, followed by the removal of [d], is
    justified when the log holds a deletion beneath [d]. *)
Lemma justified_snoc (l : list event) (e : event) (d : path) :
  justified l ->
  (forall d', removal e d' -> d' = d) ->
  (exists f, f <> [] /\ In (Deleted (d ++ f)) l) ->
  justified (l ++ [e]).
Proof.
  intros Hl He Hd pre e' post d' H Hr.
  destruct (app_split _ _ _ _ _ H) as [(post1 & E) | (pre2 & -> & E)].
  - exact (Hl _ _ _ _ E Hr).
  - destruct pre2 as [|x pre2]; simpl in E.
    + inversion E; subst. rewrite app_nil_r.
      rewrite (He _ Hr). exact Hd.
    + inversion E as [[E1 E2]]. destruct pre2; discriminate E2.
Qed.

(** An event that is no removal may follow a justified log. *)
Lemma justified_snoc_other (l : list event) (e : event) :
  justified l -> (forall d, ~ removal e d) -> justified (l ++ [e]).
Proof.
  intros Hl He pre e' post d' H Hr.
  destruct (app_split _ _ _ _ _ H) as [(post1 & E) | (pre2 & -> & E)].
  - exact (Hl _ _ _ _ E Hr).
  - destruct pre2 as [|x pre2]; simpl in E.
    + inversion E; subst. exfalso. exact (He _ Hr).
    + inversion E as [[E1 E2]]. destruct pre2; discriminate E2.
Qed.

Section Entries.
(** What becomes of an entry, and what its processing prints. *)
Variable after : string -> node -> option node.
Variable effect : string -> node -> effects.

Fixpoint sweep_entries (es : list (string * node))
  : list (string * node) * effects :=
  match es with
  | [] => ([], no_effects)
  | (name, n) :: rest =>
      ((match after name n with
        | Some n' => [(name, n')]
        | None => []
        end) ++ fst (sweep_entries rest),
       seq_effects (effect name n) (snd (sweep_entries rest)))
  end.

Lemma sweep_entries_In (s : string) (n' : node)
      (es : list (string * node)) :
  In (s, n') (fst (sweep_entries es)) ->
  exists n, In (s, n) es /\ after s n = Some n'.
Proof.
  induction es as [|[name n] es IH]; simpl; [tauto|].
  rewrite in_app_iff. intros [H|H].
  - destruct (after name n) as [n0|] eqn:E; simpl in H; [|tauto].
    destruct H as [H|[]]. inversion H; subst. eauto.
  - destruct (IH H) as (n0 & Hin & Ha). eauto.
Qed.

Lemma sweep_entries_names (es : list (string * node)) (x : string) :
  In x (map fst (fst (sweep_entries es))) -> In x (map fst es).
Proof.
  rewrite !in_map_iff. intros ([s n'] & <- & Hin).
  destruct (sweep_entries_In _ _ _ Hin) as (n & Hn & _).
  exists (s, n). auto.
Qed.

Lemma sweep_entries_NoDup (es : list (string * node)) :
  NoDup (map fst es) -> NoDup (map fst (fst (sweep_entries es))).
Proof.
  induction es as [|[name n] es IH]; simpl; intros H; [constructor|].
  inversion H as [|? ? Hn Hes]; subst.
  rewrite map_app.
  destruct (after name n); simpl; [|auto].
  constructor; [|auto].
  intros Hin. apply Hn. eapply sweep_entries_names, Hin.
Qed.

Lemma sweep_entries_assoc (s : string) (es : list (string * node)) :
  NoDup (map fst es) ->
  assoc s (fst (sweep_entries es))
  = match assoc s es with
    | Some n => after s n
    | None => None
    end.
Proof.
  induction es as [|[name n] es IH]; simpl; intros H; [reflexivity|].
  inversion H as [|? ? Hn Hes]; subst.
  destruct (String.eqb s name) eqn:E.
  - apply String.eqb_eq in E. subst.
    destruct (after name n) as [n'|]; simpl.
    + rewrite String.eqb_refl. reflexivity.
    + apply assoc_None. intros Hin. apply Hn.
      eapply sweep_entries_names, Hin.
  - destruct (after name n) as [n'|]; simpl; [rewrite E|]; auto.
Qed.

Lemma sweep_entries_log (e : event) (es : list (string * node)) :
  In e (log (snd (sweep_entries es))) <->
  exists s n, In (s, n) es /\ In e (log (effect s n)).
Proof.
  induction es as [|[name n] es IH]; simpl.
  - split; [tauto | intros (s & n & [] & _)].
  - rewrite in_app_iff, IH. split.
    + intros [H|(s & n0 & Hin & H)]; eauto 6.
    + intros (s & n0 & [Hin|Hin] & H); [inversion Hin; subst|]; eauto.
Qed.

Lemma sweep_entries_any (es : list (string * node)) :
  deleted_any (snd (sweep_entries es)) = true <->
  exists s n, In (s, n) es /\ deleted_any (effect s n) = true.
Proof.
  induction es as [|[name n] es IH]; simpl.
  - split; [discriminate | intros (s & n & [] & _)].
  - rewrite orb_true_iff, IH. split.
    + intros [H|(s & n0 & Hin & H)]; eauto 6.
    + intros (s & n0 & [Hin|Hin] & H); [inversion Hin; subst|]; eauto.
Qed.

Lemma sweep_entries_flag (es : list (string * node)) :
  app_deleted_any (snd (sweep_entries es)) = true <->
  exists s n, In (s, n) es /\ app_deleted_any (effect s n) = true.
Proof.
  induction es as [|[name n] es IH]; simpl.
  - split; [discriminate | intros (s & n & [] & _)].
  - rewrite orb_true_iff, IH. split.
    + intros [H|(s & n0 & Hin & H)]; eauto 6.
    + intros (s & n0 & [Hin|Hin] & H); [inversion Hin; subst|]; eauto.
Qed.

Lemma sweep_entries_total (es : list (string * node)) :
  (forall s n, In (s, n) es ->
               0 <= total_deleted (effect s n)
               /\ (deleted_any (effect s n) = true <->
                   0 < total_deleted (effect s n))) ->
  0 <= total_deleted (snd (sweep_entries es))
  /\ (deleted_any (snd (sweep_entries es)) = true <->
      0 < total_deleted (snd (sweep_entries es))).
Proof.
  induction es as [|[name n] es IH]; intros H;
    cbn [sweep_entries fst snd seq_effects deleted_any total_deleted
         no_effects].
  - split; [lia | split; [discriminate | lia]].
  - destruct (H name n (or_introl eq_refl)) as [H0 H1].
    destruct IH as [I0 I1]; [intros s n0 Hin; apply H; right; exact Hin|].
    split; [lia|]. rewrite orb_true_iff, H1, I1. lia.
Qed.

Lemma sweep_entries_justified (es : list (string * node)) :
  (forall s n, In (s, n) es -> justified (log (effect s n))) ->
  justified (log (snd (sweep_entries es))).
Proof.
  induction es as [|[name n] es IH]; intros H; simpl.
  - apply justified_nil.
  - apply justified_app; [apply H; left; reflexivity|].
    apply IH. intros s n0 Hin. apply H. right. exact Hin.
Qed.

Lemma sweep_entries_id (es : list (string * node)) :
  (forall s n, In (s, n) es -> after s n = Some n) ->
  fst (sweep_entries es) = es.
Proof.
  induction es as [|[name n] es IH]; intros H; simpl; [reflexivity|].
  rewrite (H name n (or_introl eq_refl)). simpl. f_equal.
  apply IH. intros s n0 Hin. apply H. right. exact Hin.
Qed.

End Entries.


(** ** The streams of an application and the applications of the root *)

Variable keep_videos : Z.

Definition stream_after (app s : string) (n : node) : option node :=
  if is_dir n then fst (process_stream may_unlink keep_videos [app; s] n)
  else Some n.

Definition stream_effect (app s : string) (n : node) : effects :=
  if is_dir n then snd (process_stream may_unlink keep_videos [app; s] n)
  else no_effects.

Lemma for_streams_eq (app : string) (es : list (string * node)) :
  for_streams may_unlink keep_videos app es
  = sweep_entries (stream_after app) (stream_effect app) es.
Proof.
  induction es as [|[s n] es IH]; [reflexivity|].
  simpl. rewrite IH. unfold stream_after, stream_effect.
  destruct (is_dir n).
  - destruct (process_stream may_unlink keep_videos [app; s] n)
      as [[n'|] eff];
      destruct (sweep_entries _ _ es); reflexivity.
  - destruct (sweep_entries _ _ es); reflexivity.
Qed.

Definition app_after (a : string) (n : node) : option node :=
  match n with
  | File sz => Some (File sz)
  | Dir streams =>
      let r := for_streams may_unlink keep_videos a streams in
      if app_deleted_any (snd r) && negb (any (fst r)) && may_unlink [a]
      then None
      else Some (Dir (fst r))
  end.

Definition app_effect (a : string) (n : node) : effects :=
  match n with
  | File _ => no_effects
  | Dir streams =>
      let r := for_streams may_unlink keep_videos a streams in
      if app_deleted_any (snd r) && negb (any (fst r))
      then
        seq_effects (snd r)
          (mk_effects false false 0
             [if may_unlink [a] then AppDirRemoved [a]
              else AppDirRemoveFailed [a] PermissionError])
      else snd r
  end.

Lemma for_apps_eq (es : list (string * node)) :
  for_apps may_unlink keep_videos es
  = sweep_entries app_after app_effect es.
Proof.
  induction es as [|[a n] es IH]; [reflexivity|].
  simpl. rewrite IH. unfold app_after, app_effect.
  destruct n as [sz|streams].
  - destruct (sweep_entries _ _ es); reflexivity.
  - destruct (for_streams may_unlink keep_videos a streams) as [ss eff].
    unfold rmdir. simpl.
    destruct (app_deleted_any eff && negb (any ss));
      [destruct (may_unlink [a])|];
      destruct (sweep_entries _ _ es); reflexivity.
Qed.

Lemma cleanup_Dir (apps : list (string * node)) :
  cleanup_old_videos may_unlink (Some (Dir apps)) keep_videos
  = (Some (Dir (fst (for_apps may_unlink keep_videos apps))),
     snd (for_apps may_unlink keep_videos apps)).
Proof.
  simpl. destruct (for_apps may_unlink keep_videos apps). reflexivity.
Qed.

Lemma no_removal_justified (l : list event) :
  (forall e d, In e l -> ~ removal e d) -> justified l.
Proof.
  intros H pre e post d E Hr. exfalso. apply (H e d); [|exact Hr].
  rewrite E. apply in_elt.
Qed.

Lemma deletion_event_no_removal (base : path) (D : list path)
      (e : event) (d : path) :
  deletion_event base D e -> ~ removal e d.
Proof.
  intros [(f & _ & _ & ->) | (f & x & _ & ->)] [H|H]; discriminate H.
Qed.

Lemma process_stream_justified (base : path) (s : node) :
  justified (log (snd (process_stream may_unlink keep_videos base s))).
Proof.
  rewrite process_stream_eq. cbv zeta.
  destruct (Z.of_nat (length (rglob s)) <=? keep_videos);
    [apply justified_nil|].
  assert (Hj : justified
                 (log (snd (delete_files may_unlink base
                              (slice_from keep_videos
                                 (newest_first (rglob s))) s)))).
  { apply no_removal_justified. intros e d Hin.
    eapply deletion_event_no_removal, delete_files_log, Hin. }
  destruct (deleted_any (snd (delete_files _ _ _ _))) eqn:Hany; simpl;
    [|exact Hj].
  destruct (negb _); simpl; [|exact Hj].
  destruct (may_unlink base); simpl.
  - apply justified_snoc with (d := base); [exact Hj| |].
    + intros d' [H|H]; inversion H; reflexivity.
    + apply delete_files_any, Hany.
  - apply justified_snoc_other; [exact Hj|].
    intros d [H|H]; discriminate H.
Qed.

Lemma stream_effect_facts (app s : string) (n : node) :
  0 <= total_deleted (stream_effect app s n)
  /\ (deleted_any (stream_effect app s n) = true <->
      0 < total_deleted (stream_effect app s n))
  /\ (deleted_any (stream_effect app s n) = true <->
      exists f, f <> []
                /\ In (Deleted ([app; s] ++ f)) (log (stream_effect app s n)))
  /\ justified (log (stream_effect app s n)).
Proof.
  unfold stream_effect. destruct (is_dir n).
  - pose proof (process_stream_any keep_videos [app; s] n) as (H0 & H1 & H2).
    repeat split; try apply H1; try apply H2; auto.
    apply process_stream_justified.
  - simpl. repeat split; try lia; try discriminate.
    + intros (f & _ & []).
    + apply justified_nil.
Qed.

Lemma stream_effect_flag (app s : string) (n : node) :
  app_deleted_any (stream_effect app s n) = true ->
  deleted_any (stream_effect app s n) = true.
Proof.
  unfold stream_effect. destruct (is_dir n); [|discriminate].
  apply process_stream_flag.
Qed.

Lemma for_streams_flag (app : string) (es : list (string * node)) :
  app_deleted_any (snd (for_streams may_unlink keep_videos app es)) = true ->
  deleted_any (snd (for_streams may_unlink keep_videos app es)) = true.
Proof.
  rewrite for_streams_eq. intros H.
  apply sweep_entries_flag in H as (s & n & Hin & H).
  apply sweep_entries_any. exists s, n. split; [exact Hin|].
  apply stream_effect_flag, H.
Qed.

Lemma for_streams_facts (app : string) (es : list (string * node)) :
  let eff := snd (for_streams may_unlink keep_videos app es) in
  0 <= total_deleted eff
  /\ (deleted_any eff = true <-> 0 < total_deleted eff)
  /\ (deleted_any eff = true ->
      exists f, f <> [] /\ In (Deleted ([app] ++ f)) (log eff))
  /\ justified (log eff).
Proof.
  cbv zeta. rewrite for_streams_eq.
  destruct (sweep_entries_total (stream_after app) (stream_effect app) es)
    as [H0 H1].
  { intros s n _. split; apply stream_effect_facts. }
  split; [exact H0|]. split; [exact H1|]. split.
  - intros H. apply sweep_entries_any in H as (s & n & Hin & H).
    apply stream_effect_facts in H as (f & Hf & Hd).
    exists (s :: f). split; [discriminate|].
    apply sweep_entries_log. exists s, n. auto.
  - apply sweep_entries_justified. intros s n _.
    apply stream_effect_facts.
Qed.

Lemma app_effect_facts (a : string) (n : node) :
  0 <= total_deleted (app_effect a n)
  /\ (deleted_any (app_effect a n) = true <->
      0 < total_deleted (app_effect a n))
  /\ justified (log (app_effect a n)).
Proof.
  destruct n as [sz|streams]; unfold app_effect; cbv zeta.
  - simpl. split; [lia|].
    split; [split; [discriminate|lia] | apply justified_nil].
  - pose proof (for_streams_facts a streams) as (H0 & H1 & H2 & H3).
    cbv zeta in H0, H1, H2, H3.
    destruct (app_deleted_any (snd (for_streams _ _ a streams))
              && negb (any (fst (for_streams _ _ a streams)))) eqn:Hc;
      [|auto].
    apply andb_prop in Hc as [Hany _]. apply for_streams_flag in Hany.
    cbn [seq_effects deleted_any total_deleted log].
    rewrite orb_false_r, Z.add_0_r.
    split; [exact H0|]. split; [exact H1|].
    destruct (may_unlink [a]).
    + apply justified_snoc with (d := [a]); auto.
      intros d' [H|H]; inversion H; reflexivity.
    + apply justified_snoc_other; [exact H3|].
      intros d [H|H]; discriminate H.
Qed.

Lemma for_apps_facts (es : list (string * node)) :
  let eff := snd (for_apps may_unlink keep_videos es) in
  0 <= total_deleted eff
  /\ (deleted_any eff = true <-> 0 < total_deleted eff)
  /\ justified (log eff).
Proof.
  cbv zeta. rewrite for_apps_eq.
  destruct (sweep_entries_total app_after app_effect es) as [H0 H1].
  { intros s n _. split; apply app_effect_facts. }
  split; [exact H0|]. split; [exact H1|].
  apply sweep_entries_justified. intros s n _. apply app_effect_facts.
Qed.


(** ** The store after the sweep, by path *)

Lemma lookup_two (apps : list (string * node)) (a s : string) (n : node) :
  lookup [a; s] (Dir apps) = Some n ->
  exists streams, assoc a apps = Some (Dir streams)
                  /\ assoc s streams = Some n.
Proof.
  simpl. destruct (assoc a apps) as [[sz|streams]|]; try discriminate.
  destruct (assoc s streams) as [c|] eqn:E; [|discriminate].
  intros H; inversion H; subst. eauto.
Qed.

Lemma lookup_one (apps : list (string * node)) (a : string) :
  lookup [a] (Dir apps) = assoc a apps.
Proof. simpl. destruct (assoc a apps); reflexivity. Qed.

Lemma sweep_lookup_app (apps : list (string * node)) (a : string)
      (n : node) :
  wf (Dir apps) = true ->
  assoc a apps = Some n ->
  assoc a (fst (for_apps may_unlink keep_videos apps)) = app_after a n.
Proof.
  intros Hwf Ha. apply wf_Dir in Hwf as [Hnd _].
  rewrite for_apps_eq, (sweep_entries_assoc _ _ _ _ Hnd), Ha.
  reflexivity.
Qed.

Lemma sweep_lookup_stream (apps : list (string * node)) (a s : string)
      (n : node) :
  wf (Dir apps) = true ->
  lookup [a; s] (Dir apps) = Some n ->
  lookup [a; s] (Dir (fst (for_apps may_unlink keep_videos apps)))
  = stream_after a s n.
Proof.
  intros Hwf H. apply lookup_two in H as (streams & Ha & Hs).
  pose proof (wf_assoc _ _ _ Hwf Ha) as Hwf'.
  apply wf_Dir in Hwf' as [Hnd' _].
  assert (Hss : assoc s (fst (for_streams may_unlink keep_videos a streams))
                = stream_after a s n).
  { rewrite for_streams_eq, (sweep_entries_assoc _ _ _ _ Hnd'), Hs.
    reflexivity. }
  simpl. rewrite (sweep_lookup_app _ _ _ Hwf Ha). simpl.
  destruct (app_deleted_any _ && negb _ && may_unlink [a]) eqn:Hc.
  - apply andb_prop in Hc as [Hc _]. apply andb_prop in Hc as [_ Hc].
    destruct (fst (for_streams may_unlink keep_videos a streams));
      [|discriminate].
    rewrite <- Hss. reflexivity.
  - rewrite Hss. destruct (stream_after a s n); reflexivity.
Qed.

Lemma app_effect_log (a : string) (streams : list (string * node))
      (e : event) :
  In e (log (snd (for_streams may_unlink keep_videos a streams))) ->
  In e (log (app_effect a (Dir streams))).
Proof.
  unfold app_effect. cbv zeta.
  destruct (app_deleted_any _ && negb _); simpl;
    [rewrite in_app_iff|]; auto.
Qed.

Lemma sweep_log_stream (apps : list (string * node)) (a s : string)
      (n : node) (e : event) :
  lookup [a; s] (Dir apps) = Some n ->
  In e (log (stream_effect a s n)) ->
  In e (log (snd (for_apps may_unlink keep_videos apps))).
Proof.
  intros H He. apply lookup_two in H as (streams & Ha & Hs).
  apply assoc_In in Ha, Hs.
  rewrite for_apps_eq. apply sweep_entries_log.
  exists a, (Dir streams). split; [exact Ha|].
  apply app_effect_log. rewrite for_streams_eq.
  apply sweep_entries_log. eauto.
Qed.

(** Where a printed deletion comes from. *)
Lemma deleted_provenance (apps : list (string * node)) (p : path) :
  In (Deleted p) (log (snd (for_apps may_unlink keep_videos apps))) ->
  exists a streams s n f,
    In (a, Dir streams) apps /\ In (s, n) streams /\ is_dir n = true
    /\ p = a :: s :: f /\ f <> []
    /\ deleted_any (snd (process_stream may_unlink keep_videos [a; s] n))
       = true.
Proof.
  rewrite for_apps_eq. intros H.
  apply sweep_entries_log in H as (a & n0 & Ha & H).
  destruct n0 as [sz|streams]; [destruct H|].
  assert (H' : In (Deleted p)
                  (log (snd (for_streams may_unlink keep_videos a streams)))).
  { revert H. unfold app_effect. cbv zeta.
    destruct (app_deleted_any _ && negb _); simpl; [|auto].
    rewrite in_app_iff. intros [H|[H|[]]]; [exact H|].
    destruct (may_unlink [a]); discriminate H. }
  rewrite for_streams_eq in H'.
  apply sweep_entries_log in H' as (s & n & Hs & H').
  unfold stream_effect in H'.
  destruct (is_dir n) eqn:Hd; [|destruct H'].
  exists a, streams, s, n.
  destruct (process_stream_log _ _ _ _ H')
    as [[(f & Hf & Hne & E) | (f & x & _ & E)] | [[E _] | (x & E)]];
    try discriminate.
  inversion E; subst. exists f. repeat split; auto.
  apply process_stream_any. eauto.
Qed.

Lemma deleted_any_sweep (apps : list (string * node)) (p : path) :
  In (Deleted p) (log (snd (for_apps may_unlink keep_videos apps))) ->
  0 < total_deleted (snd (for_apps may_unlink keep_videos apps)).
Proof.
  intros H.
  destruct (deleted_provenance _ _ H)
    as (a & streams & s & n & f & Ha & Hs & Hd & _ & _ & Hany).
  apply for_apps_facts. rewrite for_apps_eq.
  apply sweep_entries_any. exists a, (Dir streams). split; [exact Ha|].
  assert (Hst : deleted_any
                  (snd (for_streams may_unlink keep_videos a streams))
                = true).
  { rewrite for_streams_eq. apply sweep_entries_any.
    exists s, n. split; [exact Hs|].
    unfold stream_effect. rewrite Hd. exact Hany. }
  unfold app_effect. cbv zeta.
  destruct (app_deleted_any _ && negb _); simpl; rewrite Hst; reflexivity.
Qed.

(** A sweep that deleted nothing leaves the store as it was. *)
Lemma sweep_nothing (apps : list (string * node)) :
  total_deleted (snd (for_apps may_unlink keep_videos apps)) = 0 ->
  fst (for_apps may_unlink keep_videos apps) = apps.
Proof.
  intros H0.
  assert (Hany : deleted_any (snd (for_apps may_unlink keep_videos apps))
                 = false).
  { destruct (deleted_any _) eqn:E; [|reflexivity].
    apply for_apps_facts in E. lia. }
  rewrite for_apps_eq in *.
  apply sweep_entries_id. intros a n Hin.
  assert (Ha : deleted_any (app_effect a n) = false).
  { destruct (deleted_any (app_effect a n)) eqn:E; [|reflexivity].
    rewrite <- Hany. symmetry. apply sweep_entries_any. eauto. }
  destruct n as [sz|streams]; [reflexivity|].
  unfold app_after, app_effect in *. cbv zeta in *.
  destruct (deleted_any (snd (for_streams may_unlink keep_videos a streams)))
    eqn:Hs.
  { exfalso. revert Ha.
    destruct (app_deleted_any _ && negb _); simpl; rewrite ?Hs;
      discriminate. }
  assert (Hflag : app_deleted_any (snd (for_streams may_unlink keep_videos
                                          a streams)) = false).
  { destruct (app_deleted_any _) eqn:E; [|reflexivity].
    apply for_streams_flag in E. congruence. }
  rewrite Hflag. simpl. f_equal. f_equal.
  rewrite for_streams_eq in *. apply sweep_entries_id. intros s n Hsn.
  assert (Hst : deleted_any (stream_effect a s n) = false).
  { destruct (deleted_any (stream_effect a s n)) eqn:E; [|reflexivity].
    rewrite <- Hs. symmetry. apply sweep_entries_any. eauto. }
  unfold stream_after, stream_effect in *.
  destruct (is_dir n); [|reflexivity].
  rewrite (process_stream_none _ _ _ Hst). reflexivity.
Qed.

End Sweep.
End SweepFacts.

(* ================================================================== *)
(** * The retention sweep: directories *)
(* ================================================================== *)

Module Pruning.
Import PyFacts FSFacts SweepFacts.

Lemma slice_from_nil {A} (k : Z) : slice_from k (@nil A) = [].
Proof. unfold slice_from. destruct (k <? 0); apply skipn_nil. Qed.

Lemma process_stream_empty (may_unlink : path -> bool) (keep_videos : Z)
      (base : path) :
  process_stream may_unlink keep_videos base (Dir [])
  = (Some (Dir []), no_effects).
Proof.
  rewrite process_stream_eq. simpl.
  destruct (0 <=? keep_videos); [reflexivity|].
  unfold newest_first. simpl. rewrite slice_from_nil. reflexivity.
Qed.

(** C10.  The sweep removes a stream directory only after it has
    deleted a file beneath that directory in the same run, and an
    application directory only after it has deleted a file beneath
    it; a stream or application directory that was empty before the
    run stays; and a run that deleted nothing removes no directory and
    leaves the store as it was. *)
Theorem removal_only_after_deletion
        (may_unlink : path -> bool) (root : node) (keep_videos : Z) :
  wf root = true ->
  let run := cleanup_old_videos may_unlink (Some root) keep_videos in
  (forall pre post d,
      log (snd run) = pre ++ StreamDirRemoved d :: post ->
      exists f, f <> [] /\ In (Deleted (d ++ f)) pre)
  /\ (forall pre post d,
         log (snd run) = pre ++ AppDirRemoved d :: post ->
         exists f, f <> [] /\ In (Deleted (d ++ f)) pre)
  /\ (forall a s,
         lookup [a; s] root = Some (Dir []) ->
         exists root', fst run = Some root'
                       /\ lookup [a; s] root' = Some (Dir []))
  /\ (forall a,
         lookup [a] root = Some (Dir []) ->
         exists root', fst run = Some root'
                       /\ lookup [a] root' = Some (Dir []))
  /\ (total_deleted (snd run) = 0 ->
      fst run = Some root
      /\ forall e d, In e (log (snd run)) -> ~ removal e d).
Proof.
  intros Hwf. cbv zeta. destruct root as [sz|apps].
  - simpl. repeat split; try discriminate.
    + intros [|? [|? ?]] post d E; discriminate E.
    + intros [|? [|? ?]] post d E; discriminate E.
    + intros e d [<-|[]] [E|E]; discriminate E.
  - rewrite cleanup_Dir. cbn [fst snd].
    destruct (for_apps_facts may_unlink keep_videos apps) as (H0 & H1 & Hj).
    cbv zeta in H0, H1, Hj.
    split; [|split; [|split; [|split]]].
    + intros pre post d E. eapply Hj; [exact E | left; reflexivity].
    + intros pre post d E. eapply Hj; [exact E | right; reflexivity].
    + intros a s H. eexists. split; [reflexivity|].
      rewrite (sweep_lookup_stream may_unlink keep_videos _ _ _ _ Hwf H).
      unfold stream_after. simpl. rewrite process_stream_empty. reflexivity.
    + intros a H. eexists. split; [reflexivity|].
      rewrite lookup_one in *.
      rewrite (sweep_lookup_app may_unlink keep_videos _ _ _ Hwf H).
      reflexivity.
    + intros Hz. rewrite (sweep_nothing _ _ _ Hz). split; [reflexivity|].
      intros e d Hin Hr.
      apply in_split in Hin as (pre & post & E).
      destruct (Hj _ _ _ _ E Hr) as (f & _ & Hd).
      assert (Hin : In (Deleted (d ++ f))
                       (log (snd (for_apps may_unlink keep_videos apps)))).
      { rewrite E. apply in_app_iff. auto. }
      apply deleted_any_sweep in Hin. lia.
Qed.

(** A store with a stream that holds one segment and a stream that is
    empty. *)
Definition two_streams : node :=
  Dir [("live", Dir [("cam1", Dir [("2025-01-01-00-00-00-0.mp4", File 10)]);
                     ("cam2", Dir [])])].

Lemma removal_only_after_deletion_witness :
  let run := cleanup_old_videos (fun _ => true) (Some two_streams) 0 in
  (forall pre post d,
      log (snd run) = pre ++ StreamDirRemoved d :: post ->
      exists f, f <> [] /\ In (Deleted (d ++ f)) pre)
  /\ (forall pre post d,
         log (snd run) = pre ++ AppDirRemoved d :: post ->
         exists f, f <> [] /\ In (Deleted (d ++ f)) pre)
  /\ (forall a s,
         lookup [a; s] two_streams = Some (Dir []) ->
         exists root', fst run = Some root'
                       /\ lookup [a; s] root' = Some (Dir []))
  /\ (forall a,
         lookup [a] two_streams = Some (Dir []) ->
         exists root', fst run = Some root'
                       /\ lookup [a] root' = Some (Dir []))
  /\ (total_deleted (snd run) = 0 ->
      fst run = Some two_streams
      /\ forall e d, In e (log (snd run)) -> ~ removal e d).
Proof.
  apply (removal_only_after_deletion (fun _ => true) two_streams 0).
  reflexivity.
Defined.

(** ** Directories across a run *)

Lemma lookup_beneath (p q : path) : forall n,
  lookup (p ++ q) n
  = match lookup p n with
    | Some c => lookup q c
    | None => None
    end.
Proof.
  induction p as [|x p IH]; intros n; simpl; [reflexivity|].
  destruct n as [sz|es]; [reflexivity|].
  destruct (assoc x es); [apply IH | reflexivity].
Qed.

Lemma assoc_removed_other (x name : string) (es : list (string * node)) :
  x <> name -> assoc x (remove_entry name es) = assoc x es.
Proof.
  intros Hne. induction es as [|[n0 c0] es IH]; simpl; [reflexivity|].
  destruct (String.eqb name n0) eqn:E; simpl.
  - apply String.eqb_eq in E. subst.
    destruct (String.eqb x n0) eqn:E'; [|reflexivity].
    apply String.eqb_eq in E'. contradiction.
  - rewrite IH. reflexivity.
Qed.

Lemma assoc_replaced (x name : string) (c c' : node)
      (es : list (string * node)) :
  assoc name es = Some c ->
  assoc x (replace_entry name c' es)
  = if String.eqb x name then Some c' else assoc x es.
Proof.
  induction es as [|[n0 c0] es IH]; simpl; [discriminate|].
  destruct (String.eqb name n0) eqn:E; simpl.
  - apply String.eqb_eq in E. subst. intros _.
    destruct (String.eqb x n0); reflexivity.
  - intros H. rewrite (IH H).
    destruct (String.eqb_spec x name) as [->|Hne].
    + rewrite E. reflexivity.
    + reflexivity.
Qed.

(** [unlink] removes no directory. *)
Lemma unlink_keeps_directories (allowed : bool) (q : path) :
  forall n n' p es,
    unlink allowed q n = Ok n' ->
    lookup p n = Some (Dir es) ->
    exists es', lookup p n' = Some (Dir es').
Proof.
  induction q as [|name q' IH]; intros n n' p es H Hp; simpl in H;
    [discriminate|].
  destruct n as [sz0|es0]; [discriminate|].
  destruct (assoc name es0) as [c|] eqn:Hc; [|discriminate].
  destruct q' as [|name' q''].
  - destruct c as [szc|?]; [|discriminate].
    destruct allowed; [|discriminate].
    inversion H; subst n'; clear H.
    destruct p as [|x p']; [simpl; eauto|].
    simpl in Hp |- *.
    destruct (String.eqb_spec x name) as [->|Hne].
    + rewrite Hc in Hp. destruct p'; discriminate Hp.
    + rewrite (assoc_removed_other _ _ _ Hne). eauto.
  - destruct (unlink allowed (name' :: q'') c) as [c'|] eqn:Hu;
      [|discriminate].
    simpl in H. inversion H; subst n'; clear H.
    destruct p as [|x p']; [simpl; eauto|].
    simpl in Hp |- *. rewrite (assoc_replaced x name c c' es0 Hc).
    destruct (String.eqb_spec x name) as [->|Hne]; [|eauto].
    rewrite Hc in Hp. exact (IH _ _ _ _ Hu Hp).
Qed.

Section Directories.
Variable may_unlink : path -> bool.
Variable keep_videos : Z.

Lemma delete_files_keeps_directories (base : path) (D : list path) :
  forall s p es,
    lookup p s = Some (Dir es) ->
    exists es',
      lookup p (fst (delete_files may_unlink base D s)) = Some (Dir es').
Proof.
  induction D as [|d D IH]; intros s p es Hp; [simpl; eauto|].
  rewrite delete_files_cons.
  destruct (unlink _ d s) as [s'|x] eqn:Hu; cbn [fst]; [|eauto].
  destruct (unlink_keeps_directories _ _ _ _ _ _ Hu Hp) as [es' Hp'].
  eauto.
Qed.

(** A stream directory that has a subdirectory is not removed, and the
    subdirectory stays. *)
Lemma process_stream_keeps_directories (base : path) (stream : node)
      (q : path) (es : list (string * node)) :
  q <> [] ->
  lookup q stream = Some (Dir es) ->
  exists s' es',
    fst (process_stream may_unlink keep_videos base stream) = Some s'
    /\ lookup q s' = Some (Dir es').
Proof.
  intros Hq Hl. rewrite process_stream_eq. cbv zeta.
  destruct (Z.of_nat (length (rglob stream)) <=? keep_videos);
    [simpl; eauto|].
  destruct (delete_files_keeps_directories base
              (slice_from keep_videos (newest_first (rglob stream)))
              stream q es Hl) as [es' Hl'].
  assert (Hne : any (iterdir (fst (delete_files may_unlink base
                  (slice_from keep_videos (newest_first (rglob stream)))
                  stream))) = true).
  { destruct (fst (delete_files _ _ _ _)) as [sz|es0].
    - destruct q; [congruence | discriminate Hl'].
    - destruct es0; [|reflexivity].
      destruct q; [congruence | discriminate Hl']. }
  rewrite Hne, andb_false_r. cbn [fst]. eauto.
Qed.

(** The removal of an emptied stream directory did not fail. *)
Definition rmdir_succeeded (l : list event) : Prop :=
  forall d x, ~ In (StreamDirRemoveFailed d x) l
              /\ ~ In (AppDirRemoveFailed d x) l.

Lemma process_stream_emptied (base : path) (s : node) :
  deleted_any (snd (process_stream may_unlink keep_videos base s)) = true ->
  (forall x, ~ In (StreamDirRemoveFailed base x)
                  (log (snd (process_stream may_unlink keep_videos base s)))) ->
  app_deleted_any (snd (process_stream may_unlink keep_videos base s)) = true
  /\ forall s',
      fst (process_stream may_unlink keep_videos base s) = Some s' ->
      iterdir s' <> [].
Proof.
  rewrite process_stream_eq. cbv zeta.
  destruct (Z.of_nat (length (rglob s)) <=? keep_videos);
    [simpl; discriminate|].
  destruct (deleted_any (snd (delete_files _ _ _ _))) eqn:Hany; simpl.
  - destruct (iterdir (fst (delete_files _ _ _ _))) eqn:Hit; simpl.
    + destruct (may_unlink base); simpl.
      * intros _ _. split; [apply orb_true_r | discriminate].
      * intros _ Hno. exfalso. apply (Hno PermissionError).
        apply in_app_iff. right. left. reflexivity.
    + intros _ _. split; [reflexivity|].
      intros s' H; inversion H; subst. rewrite Hit. discriminate.
  - discriminate.
Qed.

End Directories.

(** C2, as the code has it.  After the sweep, a stream directory in
    which the run deleted a file, if it is still there, has an entry (a
    file or a subdirectory), and so has the application directory above
    it, provided that no [rmdir] of the run was refused: a directory
    that the run emptied of all its entries is gone.  A directory
    beneath a stream directory is never removed, and the stream
    directory above it stays; and a stream or application directory
    beneath which the run deleted nothing is left as it was. *)
Theorem emptied_directory_is_removed
        (may_unlink : path -> bool) (root root' : node) (keep_videos : Z) :
  wf root = true ->
  fst (cleanup_old_videos may_unlink (Some root) keep_videos) = Some root' ->
  let printed :=
    log (snd (cleanup_old_videos may_unlink (Some root) keep_videos)) in
  (forall a s f,
      In (Deleted (a :: s :: f)) printed ->
      rmdir_succeeded printed ->
      (forall n, lookup [a; s] root' = Some n -> iterdir n <> [])
      /\ (forall n, lookup [a] root' = Some n -> iterdir n <> []))
  /\ (forall a s q es,
         q <> [] ->
         lookup (a :: s :: q) root = Some (Dir es) ->
         exists es', lookup (a :: s :: q) root' = Some (Dir es'))
  /\ (forall a s n,
         lookup [a; s] root = Some n ->
         (forall f, ~ In (Deleted (a :: s :: f)) printed) ->
         lookup [a; s] root' = Some n)
  /\ (forall a n,
         lookup [a] root = Some n ->
         (forall q, ~ In (Deleted (a :: q)) printed) ->
         lookup [a] root' = Some n).
Proof.
  intros Hwf. cbv zeta. destruct root as [sz|apps].
  { simpl. intros E. inversion E; subst root'; clear E.
    split; [|split; [|split]].
    - intros a s f [H|[]]. discriminate H.
    - intros a s q es _ H. discriminate H.
    - intros a s n H. discriminate H.
    - intros a n H. discriminate H. }
  rewrite cleanup_Dir. cbn [fst snd]. intros E.
  inversion E; subst root'; clear E.
  pose proof (proj1 (wf_Dir apps) Hwf) as [Hnd _].
  assert (Hstream_log : forall a s n e,
             lookup [a; s] (Dir apps) = Some n -> is_dir n = true ->
             In e (log (snd (process_stream may_unlink keep_videos [a; s] n))) ->
             In e (log (snd (for_apps may_unlink keep_videos apps)))).
  { intros a s n e Hl Hd He.
    apply (sweep_log_stream may_unlink keep_videos apps a s n e Hl).
    unfold stream_effect. rewrite Hd. exact He. }
  assert (Hquiet : forall a s n,
             lookup [a; s] (Dir apps) = Some n ->
             (forall f, ~ In (Deleted (a :: s :: f))
                             (log (snd (for_apps may_unlink keep_videos apps)))) ->
             stream_after may_unlink keep_videos a s n = Some n
             /\ app_deleted_any (stream_effect may_unlink keep_videos a s n)
                = false).
  { intros a s n Hl Hno. unfold stream_after, stream_effect.
    destruct (is_dir n) eqn:Hd; [|auto].
    assert (Hany : deleted_any
                     (snd (process_stream may_unlink keep_videos [a; s] n))
                   = false).
    { destruct (deleted_any _) eqn:Hany; [|reflexivity].
      apply process_stream_any in Hany as (f & _ & Hin).
      exfalso. apply (Hno f). eapply Hstream_log; eassumption. }
    split.
    - rewrite (process_stream_none _ _ _ _ Hany). reflexivity.
    - destruct (app_deleted_any _) eqn:Hf; [|reflexivity].
      apply process_stream_flag in Hf. congruence. }
  split; [|split; [|split]].
  - intros a s f Hin Hok.
    destruct (deleted_provenance _ _ _ _ Hin)
      as (a' & streams & s' & n0 & f' & Ha & Hs & Hd & E & _ & Hany).
    inversion E; subst a' s' f'; clear E.
    pose proof (In_assoc _ _ _ Hnd Ha) as Ha'.
    pose proof (wf_assoc _ _ _ Hwf Ha') as Hwf'.
    pose proof (proj1 (wf_Dir streams) Hwf') as [Hnd' _].
    pose proof (In_assoc _ _ _ Hnd' Hs) as Hs'.
    assert (Hl : lookup [a; s] (Dir apps) = Some n0).
    { simpl. rewrite Ha', Hs'. reflexivity. }
    destruct (process_stream_emptied may_unlink keep_videos [a; s] n0 Hany)
      as [Hflag Hkept].
    { intros x Hx. apply (proj1 (Hok [a; s] x)).
      eapply Hstream_log; eassumption. }
    split.
    + intros n.
      rewrite (sweep_lookup_stream may_unlink keep_videos _ _ _ _ Hwf Hl).
      unfold stream_after. rewrite Hd. apply Hkept.
    + intros n. rewrite lookup_one.
      rewrite (sweep_lookup_app may_unlink keep_videos _ _ _ Hwf Ha').
      unfold app_after. cbv zeta.
      assert (Hst : app_deleted_any
                      (snd (for_streams may_unlink keep_videos a streams))
                    = true).
      { rewrite for_streams_eq. apply sweep_entries_flag.
        exists s, n0. split; [exact Hs|].
        unfold stream_effect. rewrite Hd. exact Hflag. }
      rewrite Hst. simpl.
      destruct (fst (for_streams may_unlink keep_videos a streams)) eqn:Hf;
        simpl.
      * destruct (may_unlink [a]) eqn:Hm; [discriminate|].
        exfalso. apply (proj2 (Hok [a] PermissionError)).
        rewrite for_apps_eq. apply sweep_entries_log.
        exists a, (Dir streams). split; [exact Ha|].
        unfold app_effect. cbv zeta. rewrite Hst, Hf, Hm. simpl.
        apply in_app_iff. right. left. reflexivity.
      * intros H; inversion H; subst. simpl. discriminate.
  - intros a s q es Hq Hl.
    change (a :: s :: q) with ([a; s] ++ q) in Hl |- *.
    rewrite lookup_beneath in Hl |- *.
    destruct (lookup [a; s] (Dir apps)) as [n|] eqn:Hs; [|discriminate].
    rewrite (sweep_lookup_stream may_unlink keep_videos _ _ _ _ Hwf Hs).
    unfold stream_after.
    destruct n as [sz|es0]; [destruct q; [congruence | discriminate Hl]|].
    cbn [is_dir].
    destruct (process_stream_keeps_directories may_unlink keep_videos
                [a; s] (Dir es0) q es Hq Hl) as (s' & es' & -> & Hl').
    eauto.
  - intros a s n Hl Hno.
    rewrite (sweep_lookup_stream may_unlink keep_videos _ _ _ _ Hwf Hl).
    apply (Hquiet a s n Hl Hno).
  - intros a n Hl Hno. rewrite lookup_one in Hl |- *.
    rewrite (sweep_lookup_app may_unlink keep_videos _ _ _ Hwf Hl).
    destruct n as [sz|streams]; [reflexivity|].
    pose proof (wf_assoc _ _ _ Hwf Hl) as Hwf'.
    pose proof (proj1 (wf_Dir streams) Hwf') as [Hnd' _].
    assert (Hall : forall s n, In (s, n) streams ->
                     stream_after may_unlink keep_videos a s n = Some n
                     /\ app_deleted_any
                          (stream_effect may_unlink keep_videos a s n)
                        = false).
    { intros s n Hin. apply Hquiet; [|intros f; apply Hno].
      simpl. rewrite Hl, (In_assoc _ _ _ Hnd' Hin). reflexivity. }
    unfold app_after. cbv zeta. rewrite for_streams_eq.
    rewrite (sweep_entries_id _ _ streams (fun s n Hin => proj1 (Hall s n Hin))).
    destruct (app_deleted_any _) eqn:Hf; [|reflexivity].
    apply sweep_entries_flag in Hf as (s & n & Hin & Hf).
    rewrite (proj2 (Hall s n Hin)) in Hf. discriminate Hf.
Qed.

Lemma emptied_directory_is_removed_witness :
  let printed :=
    log (snd (cleanup_old_videos (fun _ => true) (Some two_streams) 0)) in
  (forall a s f,
      In (Deleted (a :: s :: f)) printed ->
      rmdir_succeeded printed ->
      (forall n, lookup [a; s] (Dir [("live", Dir [("cam2", Dir [])])])
                 = Some n -> iterdir n <> [])
      /\ (forall n, lookup [a] (Dir [("live", Dir [("cam2", Dir [])])])
                    = Some n -> iterdir n <> []))
  /\ (forall a s q es,
         q <> [] ->
         lookup (a :: s :: q) two_streams = Some (Dir es) ->
         exists es', lookup (a :: s :: q)
                            (Dir [("live", Dir [("cam2", Dir [])])])
                     = Some (Dir es'))
  /\ (forall a s n,
         lookup [a; s] two_streams = Some n ->
         (forall f, ~ In (Deleted (a :: s :: f)) printed) ->
         lookup [a; s] (Dir [("live", Dir [("cam2", Dir [])])]) = Some n)
  /\ (forall a n,
         lookup [a] two_streams = Some n ->
         (forall q, ~ In (Deleted (a :: q)) printed) ->
         lookup [a] (Dir [("live", Dir [("cam2", Dir [])])]) = Some n).
Proof.
  apply (emptied_directory_is_removed (fun _ => true) two_streams
           (Dir [("live", Dir [("cam2", Dir [])])]) 0).
  - reflexivity.
  - reflexivity.
Defined.

(** Where the operating system refuses the [rmdir], the emptied stream
    directory stays, the failure is printed, and the application
    directory is not looked at. *)
Lemma refused_rmdir_leaves_empty_directory :
  let run :=
    cleanup_old_videos
      (fun p => negb (length p =? 2)%nat)
      (Some (Dir [("live",
                   Dir [("cam1",
                         Dir [("2025-01-01-00-00-00-0.mp4", File 10)])])]))
      0 in
  fst run = Some (Dir [("live", Dir [("cam1", Dir [])])])
  /\ log (snd run)
     = [Deleted ["live"; "cam1"; "2025-01-01-00-00-00-0.mp4"];
        StreamDirRemoveFailed ["live"; "cam1"] PermissionError].
Proof. split; reflexivity. Qed.

(** The number of files beneath a directory. *)
Fixpoint file_count (n : node) : nat :=
  match n with
  | File _ => 1
  | Dir es => list_sum (map (fun e => file_count (snd e)) es)
  end.

(** C2 as the design document states it: after the sweep no stream
    directory and no application directory is without a file beneath
    it. *)
Definition no_fileless_directory (may_unlink : path -> bool) (root : node)
           (keep_videos : Z) : Prop :=
  forall root' p n,
    fst (cleanup_old_videos may_unlink (Some root) keep_videos) = Some root' ->
    (length p = 1 \/ length p = 2)%nat ->
    lookup p root' = Some n ->
    is_dir n = true ->
    file_count n <> 0%nat.

(** A stream whose only segment lies in a date directory. *)
Definition bucketed : node :=
  Dir [("live",
        Dir [("cam1",
              Dir [("2025-01-01",
                    Dir [("2025-01-01-00-00-00-0.mp4", File 10)])])])].

(** A stream directory that was empty before the run is still there
    afterwards ([keep_videos = 72]); and with [keep_videos = 0] the
    stream [live/cam1] loses its only segment but stays, since its
    date directory stays. *)
Lemma no_fileless_directory_counterexample :
  ~ no_fileless_directory (fun _ => true) two_streams 72
  /\ ~ no_fileless_directory (fun _ => true) bucketed 0.
Proof.
  split; intros H.
  - apply (H two_streams ["live"; "cam2"] (Dir [])); try reflexivity.
    right; reflexivity.
  - apply (H (Dir [("live", Dir [("cam1", Dir [("2025-01-01", Dir [])])])])
             ["live"; "cam1"] (Dir [("2025-01-01", Dir [])]));
      try reflexivity.
    right; reflexivity.
Qed.

End Pruning.

(* ================================================================== *)
(** * The retention sweep: which segments stay *)
(* ================================================================== *)

Module Retention.
Import PyFacts FSFacts SweepFacts.

(** The timestamp a candidate is ranked by. *)
Definition time_of (f : path) : datetime := filename_time (name f).

(** [x] comes before [y] in the enumeration [l]. *)
Definition precedes {A} (x y : A) (l : list A) : Prop :=
  exists l1 l2 l3, l = l1 ++ x :: l2 ++ y :: l3.

(** ** The ranking *)

Lemma newer_first_total (a b : datetime) :
  newer_first a b = true \/ newer_first b a = true.
Proof. unfold newer_first. destruct (datetime_leb_total a b); auto. Qed.

Lemma newer_first_trans (a b c : datetime) :
  newer_first a b = true -> newer_first b c = true ->
  newer_first a c = true.
Proof. unfold newer_first. eauto using datetime_leb_trans. Qed.

Definition decorate (f : path) : datetime * path := (time_of f, f).

Lemma newest_first_decorated (l : list path) :
  stable_sort newer_first (map decorate l)
  = map decorate (newest_first l).
Proof.
  change (newest_first l)
    with (map snd (stable_sort newer_first (map decorate l))).
  rewrite map_map. symmetry.
  transitivity (map (fun e : datetime * path => e)
                    (stable_sort newer_first (map decorate l)));
    [|apply map_id].
  apply map_ext_in. intros e He.
  apply (Permutation_in _ (stable_sort_perm _ _ newer_first _)) in He.
  apply in_map_iff in He as (f & <- & _). reflexivity.
Qed.

Lemma sorted_map_decorate (l : list path) :
  StronglySorted (fun x y => newer_first (fst x) (fst y) = true)
                 (map decorate l) ->
  StronglySorted (fun f g => newer_first (time_of f) (time_of g) = true) l.
Proof.
  induction l as [|f l IH]; simpl; intros H; [constructor|].
  inversion H as [|? ? Hs Hall]; subst.
  constructor; [auto|].
  rewrite Forall_forall in *. intros g Hg.
  apply (Hall (decorate g)). apply in_map, Hg.
Qed.

(** Newest first. *)
Lemma newest_first_sorted (l : list path) :
  StronglySorted (fun f g => newer_first (time_of f) (time_of g) = true)
                 (newest_first l).
Proof.
  apply sorted_map_decorate. rewrite <- newest_first_decorated.
  apply stable_sort_sorted; [exact newer_first_total|].
  exact newer_first_trans.
Qed.

Definition same_time (t : datetime) (f : path) : bool :=
  newer_first (time_of f) t && newer_first t (time_of f).

Lemma same_time_iff (t : datetime) (f : path) :
  same_time t f = true <-> time_of f = t.
Proof.
  unfold same_time, newer_first. rewrite andb_true_iff. split.
  - intros [H1 H2]. apply datetime_leb_antisym; assumption.
  - intros <-. split; apply datetime_leb_refl.
Qed.

(** Candidates with the same timestamp keep their enumeration order. *)
Lemma newest_first_stable (t : datetime) (l : list path) :
  filter (same_time t) (newest_first l) = filter (same_time t) l.
Proof.
  assert (H : forall l0, filter (same_class datetime path newer_first t)
                                (map decorate l0)
                         = map decorate (filter (same_time t) l0)).
  { intros l0. rewrite filter_map_swap. reflexivity. }
  assert (Hinj : forall l1 l2 : list path,
             map decorate l1 = map decorate l2 -> l1 = l2).
  { intros l1 l2 E. apply (f_equal (map snd)) in E.
    rewrite !map_map in E. simpl in E. rewrite !map_id in E. exact E. }
  apply Hinj. rewrite <- !H, <- newest_first_decorated.
  apply stable_sort_stable. exact newer_first_trans.
Qed.

Lemma sorted_across {A} (R : A -> A -> Prop) (l1 l2 : list A) :
  StronglySorted R (l1 ++ l2) ->
  forall x y, In x l1 -> In y l2 -> R x y.
Proof.
  induction l1 as [|a l1 IH]; simpl; intros H x y Hx Hy; [tauto|].
  inversion H as [|? ? Hs Hall]; subst.
  destruct Hx as [<-|Hx]; [|eauto].
  rewrite Forall_forall in Hall. apply Hall, in_app_iff. auto.
Qed.

Lemma filter_split {A} (p : A -> bool) (l : list A) : forall a x b,
  filter p l = a ++ x :: b ->
  exists l1 l2, l = l1 ++ x :: l2 /\ filter p l1 = a /\ filter p l2 = b.
Proof.
  induction l as [|y l IH]; simpl; intros a x b H.
  - destruct a; discriminate H.
  - destruct (p y) eqn:Hy.
    + destruct a as [|a0 a]; simpl in H; injection H as Hhd Htl.
      * exists [], l. simpl. rewrite Hhd. auto.
      * destruct (IH _ _ _ Htl) as (l1 & l2 & -> & <- & <-).
        exists (y :: l1), l2. simpl. rewrite Hy, Hhd. auto.
    + destruct (IH _ _ _ H) as (l1 & l2 & -> & <- & <-).
      exists (y :: l1), l2. simpl. rewrite Hy. auto.
Qed.

Lemma precedes_of_filter {A} (p : A -> bool) (l : list A) (x y : A) :
  precedes x y (filter p l) -> precedes x y l.
Proof.
  intros (a & b & c & H).
  apply filter_split in H as (l1 & l2 & -> & _ & H).
  apply filter_split in H as (l3 & l4 & -> & _ & _).
  exists l1, l3, l4. reflexivity.
Qed.

Lemma precedes_app {A} (l1 l2 : list A) (x y : A) :
  In x l1 -> In y l2 -> precedes x y (l1 ++ l2).
Proof.
  intros Hx Hy.
  apply in_split in Hx as (a & b & ->). apply in_split in Hy as (c & d & ->).
  exists a, (b ++ c), d. rewrite <- ?app_assoc. simpl.
  rewrite <- ?app_assoc. reflexivity.
Qed.

Lemma precedes_filter {A} (p : A -> bool) (l : list A) (x y : A) :
  precedes x y l -> p x = true -> p y = true -> precedes x y (filter p l).
Proof.
  intros (a & b & c & ->) Hx Hy.
  exists (filter p a), (filter p b), (filter p c).
  rewrite filter_app. simpl. rewrite Hx, filter_app. simpl. rewrite Hy.
  reflexivity.
Qed.


(** ** What the deletion list spares *)

Lemma slice_from_nonneg {A} (k : Z) (l : list A) :
  0 <= k -> slice_from k l = skipn (Z.to_nat k) l.
Proof.
  intros H. unfold slice_from.
  destruct (Z.ltb_spec k 0); [lia | reflexivity].
Qed.

Lemma NoDup_app_disjoint {A} (l1 l2 : list A) (x : A) :
  NoDup (l1 ++ l2) -> In x l1 -> ~ In x l2.
Proof.
  induction l1 as [|a l1 IH]; simpl; intros H Hx Hx2; [tauto|].
  inversion H as [|? ? Ha Hnd]; subst.
  destruct Hx as [<-|Hx]; [|exact (IH Hnd Hx Hx2)].
  apply Ha, in_app_iff. auto.
Qed.

Section Spared.
Variables (V : list path) (keep_videos : Z).
Hypothesis V_NoDup : NoDup V.
Hypothesis keep_nonneg : 0 <= keep_videos.

Let ranked : list path := newest_first V.
Let kept : list path := firstn (Z.to_nat keep_videos) ranked.
Let dropped : list path := slice_from keep_videos ranked.
Let left : list path := filter (spared dropped) V.

Lemma ranked_split : ranked = kept ++ dropped.
Proof.
  unfold kept, dropped. rewrite slice_from_nonneg by exact keep_nonneg.
  symmetry. apply firstn_skipn.
Qed.

Lemma ranked_NoDup : NoDup ranked.
Proof.
  apply (Permutation_NoDup (Permutation_sym (newest_first_perm V))).
  exact V_NoDup.
Qed.

Lemma left_iff (x : path) : In x left <-> In x kept.
Proof.
  unfold left. rewrite filter_In, spared_iff. split.
  - intros [Hx Hd].
    apply (Permutation_in _ (Permutation_sym (newest_first_perm V))) in Hx.
    fold ranked in Hx. rewrite ranked_split in Hx.
    apply in_app_iff in Hx as [Hx|Hx]; tauto.
  - intros Hx. split.
    + apply (Permutation_in _ (newest_first_perm V)).
      fold ranked. rewrite ranked_split. apply in_app_iff. auto.
    + apply NoDup_app_disjoint with (l1 := kept); [|exact Hx].
      rewrite <- ranked_split. exact ranked_NoDup.
Qed.

Lemma dropped_iff (x : path) : In x V -> ~ In x left -> In x dropped.
Proof.
  intros Hx Hl.
  apply (Permutation_in _ (Permutation_sym (newest_first_perm V))) in Hx.
  fold ranked in Hx. rewrite ranked_split in Hx.
  apply in_app_iff in Hx as [Hx|Hx]; [|exact Hx].
  apply left_iff in Hx. contradiction.
Qed.

Lemma left_length :
  keep_videos < Z.of_nat (length V) ->
  Z.of_nat (length left) = keep_videos.
Proof.
  intros Hlt.
  assert (HP : Permutation left kept).
  { apply NoDup_Permutation.
    - apply NoDup_filter, V_NoDup.
    - apply NoDup_app_remove_r with (l' := dropped).
      rewrite <- ranked_split. exact ranked_NoDup.
    - exact left_iff. }
  rewrite (Permutation_length HP). unfold kept.
  rewrite length_firstn. unfold ranked.
  rewrite (Permutation_length (newest_first_perm V)). lia.
Qed.

Lemma left_newest (k d : path) :
  In k left -> In d V -> ~ In d left ->
  datetime_leb (time_of d) (time_of k) = true
  /\ (time_of d = time_of k -> precedes k d V).
Proof.
  intros Hk Hd Hnl.
  apply left_iff in Hk. pose proof (dropped_iff d Hd Hnl) as Hd'.
  split.
  - apply (sorted_across
             (fun f g => newer_first (time_of f) (time_of g) = true)
             kept dropped); auto.
    rewrite <- ranked_split. apply newest_first_sorted.
  - intros E.
    apply precedes_of_filter with (p := same_time (time_of k)).
    rewrite <- newest_first_stable. fold ranked. rewrite ranked_split.
    apply precedes_filter.
    + apply precedes_app; assumption.
    + apply same_time_iff. reflexivity.
    + apply same_time_iff. exact E.
Qed.

End Spared.

(** C1, as the code has it.  For a stream directory with more than
    [keep_videos] candidates ([keep_videos >= 0]), after a run in which
    every deletion succeeds exactly [keep_videos] candidates remain in
    that stream, all of them candidates from before; each remaining
    one is at least as new as each deleted one, and where the two
    timestamps are equal the remaining one was enumerated before the
    deleted one. *)
Theorem sweep_keeps_newest
        (may_unlink : path -> bool) (root : node) (keep_videos : Z)
        (a s : string) (stream : node) :
  wf root = true ->
  0 <= keep_videos ->
  lookup [a; s] root = Some stream ->
  keep_videos < Z.of_nat (length (rglob stream)) ->
  no_failure
    (log (snd (cleanup_old_videos may_unlink (Some root) keep_videos))) ->
  exists root',
    fst (cleanup_old_videos may_unlink (Some root) keep_videos) = Some root'
    /\ let left := remaining (lookup [a; s] root') in
       Z.of_nat (length left) = keep_videos
       /\ incl left (rglob stream)
       /\ forall k d,
           In k left -> In d (rglob stream) -> ~ In d left ->
           datetime_leb (time_of d) (time_of k) = true
           /\ (time_of d = time_of k -> precedes k d (rglob stream)).
Proof.
  intros Hwf HK Hl Hlt Hok.
  assert (Hd : is_dir stream = true).
  { destruct stream; [simpl in Hlt; lia | reflexivity]. }
  destruct root as [sz|apps]; [discriminate Hl|].
  revert Hok. rewrite cleanup_Dir. cbn [fst snd]. intros Hok.
  eexists. split; [reflexivity|]. cbv zeta.
  rewrite (sweep_lookup_stream may_unlink keep_videos _ _ _ _ Hwf Hl).
  unfold stream_after. rewrite Hd.
  pose proof (wf_lookup _ _ _ Hwf Hl) as Hwfs.
  rewrite (process_stream_remaining may_unlink keep_videos [a; s] stream
             Hwfs Hlt).
  - pose proof (rglob_NoDup _ Hwfs) as Hnd.
    split; [apply left_length; assumption|].
    split; [intros x Hx; apply filter_In in Hx; tauto|].
    intros k d. apply left_newest; assumption.
  - intros f e Hin. apply (Hok f e).
    apply (sweep_log_stream may_unlink keep_videos _ _ _ _ _ Hl).
    unfold stream_effect. rewrite Hd. exact Hin.
Qed.


(** Decides, on a concrete run, that no unlink failed. *)
Ltac no_failure_by_computation :=
  let Hin := fresh "Hin" in
  unfold no_failure; intros ? ? Hin; vm_compute in Hin;
  repeat (destruct Hin as [Hin|Hin]; [discriminate Hin|]);
  exact Hin.

(** A stream with two segments of the same second, the one with the
    lexically earlier name enumerated first. *)
Definition tied_stream : node :=
  Dir [("2025-01-01-00-00-00-0.mp4", File 10);
       ("2025-01-01-00-00-00-1.mp4", File 10)].

Definition tied : node := Dir [("live", Dir [("cam1", tied_stream)])].

Lemma sweep_keeps_newest_witness :
  exists root',
    fst (cleanup_old_videos (fun _ => true) (Some tied) 1) = Some root'
    /\ let left := remaining (lookup ["live"; "cam1"] root') in
       Z.of_nat (length left) = 1
       /\ incl left (rglob tied_stream)
       /\ forall k d,
           In k left -> In d (rglob tied_stream) -> ~ In d left ->
           datetime_leb (time_of d) (time_of k) = true
           /\ (time_of d = time_of k -> precedes k d (rglob tied_stream)).
Proof.
  apply (sweep_keeps_newest (fun _ => true) tied 1 "live" "cam1" tied_stream).
  - reflexivity.
  - lia.
  - reflexivity.
  - simpl. lia.
  - no_failure_by_computation.
Defined.

(** The ranking the design document describes: a later timestamp
    first, and among equal timestamps the lexically later file name
    first. *)
Definition ranked_above_by_name (k d : path) : Prop :=
  datetime_ltb (time_of d) (time_of k) = true
  \/ (time_of d = time_of k /\ String.ltb (name d) (name k) = true).

(** C1 as the design document states it, for one stream of a store:
    exactly [keep_videos] candidates remain, and each of them is ranked
    above each deleted one, ties going to the later name. *)
Definition keeps_newest_by_name
           (may_unlink : path -> bool) (root : node) (keep_videos : Z)
           (a s : string) (stream : node) : Prop :=
  lookup [a; s] root = Some stream ->
  keep_videos < Z.of_nat (length (rglob stream)) ->
  no_failure
    (log (snd (cleanup_old_videos may_unlink (Some root) keep_videos))) ->
  exists root',
    fst (cleanup_old_videos may_unlink (Some root) keep_videos) = Some root'
    /\ let left := remaining (lookup [a; s] root') in
       Z.of_nat (length left) = keep_videos
       /\ forall k d,
           In k left -> In d (rglob stream) -> ~ In d left ->
           ranked_above_by_name k d.

(** With [keep_videos = 1] the sweep keeps [...-0.mp4], the name that
    was enumerated first, and deletes the lexically later
    [...-1.mp4]. *)
Lemma keeps_newest_by_name_counterexample :
  ~ keeps_newest_by_name (fun _ => true) tied 1 "live" "cam1" tied_stream.
Proof.
  intros H.
  destruct H as (root' & E & _ & H).
  - reflexivity.
  - simpl. lia.
  - no_failure_by_computation.
  - vm_compute in E. injection E as <-.
    destruct (H ["2025-01-01-00-00-00-0.mp4"] ["2025-01-01-00-00-00-1.mp4"])
      as [H1 | [_ H1]].
    + vm_compute. auto.
    + vm_compute. auto.
    + vm_compute. intros [H1|[]]. discriminate H1.
    + vm_compute in H1. discriminate H1.
    + vm_compute in H1. discriminate H1.
Qed.


(** ** Names that do not parse *)

(** The name yields a timestamp of its own: the pattern matches and
    the fields form a valid date and time. *)
Definition parsable (filename : string) : bool :=
  match Regex.re_match filename with
  | Some (y, mo, d, h, mi, s) =>
      valid_datetime (int y) (int mo) (int d) (int h) (int mi) (int s)
  | None => false
  end.

Lemma unparsable_time (filename : string) :
  parsable filename = false -> filename_time filename = datetime_min.
Proof.
  unfold parsable, filename_time, parse_filename_time, datetime_ctor.
  destruct (Regex.re_match filename) as [[[[[[y mo] d] h] mi] s]|];
    [|reflexivity].
  intros ->. reflexivity.
Qed.

Lemma datetime_min_least (y mo d h mi s : Z) :
  valid_datetime y mo d h mi s = true ->
  datetime_leb datetime_min (mk_datetime y mo d h mi s) = true.
Proof.
  unfold valid_datetime. rewrite !andb_true_iff, !Z.leb_le.
  intros H. unfold datetime_leb, datetime_compare, fields, datetime_min.
  cbn [lex_compare year month day hour minute second].
  destruct (Z.compare_spec 1 y); try reflexivity; try lia.
  destruct (Z.compare_spec 1 mo); try reflexivity; try lia.
  destruct (Z.compare_spec 1 d); try reflexivity; try lia.
  destruct (Z.compare_spec 0 h); try reflexivity; try lia.
  destruct (Z.compare_spec 0 mi); try reflexivity; try lia.
  destruct (Z.compare_spec 0 s); try reflexivity; lia.
Qed.

(** No timestamp of a file name lies before the sentinel. *)
Lemma filename_time_least (filename : string) :
  datetime_leb datetime_min (filename_time filename) = true.
Proof.
  unfold filename_time, parse_filename_time, datetime_ctor.
  destruct (Regex.re_match filename) as [[[[[[y mo] d] h] mi] s]|];
    [|reflexivity].
  destruct (valid_datetime _ _ _ _ _ _) eqn:E; [|reflexivity].
  apply datetime_min_least, E.
Qed.

Lemma slice_from_skipn {A} (k : Z) (l : list A) :
  exists n, slice_from k l = skipn n l.
Proof. unfold slice_from. destruct (k <? 0); eauto. Qed.

(** C4, as the code has it.  Computing the deletion list never raises;
    a candidate whose name does not parse is ranked with the sentinel
    [datetime.min]; every candidate is ranked, none is skipped; and
    whenever the deletion list holds a candidate whose name parses to
    a timestamp other than the sentinel, it holds every candidate whose
    name does not parse. *)
Theorem unparsable_evicted_first
        (keep_videos : Z) (stream : node) (u p : path) :
  In u (rglob stream) ->
  In p (rglob stream) ->
  parsable (name u) = false ->
  parsable (name p) = true ->
  time_of p <> datetime_min ->
  exists ranked,
    sorted (rglob stream) (fun f => parse_filename_time (name f)) true
    = Ok ranked
    /\ Permutation ranked (rglob stream)
    /\ files_to_delete keep_videos stream
       = Ok (slice_from keep_videos ranked)
    /\ time_of u = datetime_min
    /\ (In p (slice_from keep_videos ranked) ->
        In u (slice_from keep_videos ranked)).
Proof.
  intros Hu Hp Hun Hpar Hne.
  exists (newest_first (rglob stream)).
  split; [apply sorted_newest_first|].
  split; [apply newest_first_perm|].
  split; [apply files_to_delete_eq|].
  pose proof (unparsable_time _ Hun) as Htu.
  split; [exact Htu|].
  destruct (slice_from_skipn keep_videos (newest_first (rglob stream)))
    as [n ->].
  intros Hpd.
  apply (Permutation_in _ (Permutation_sym (newest_first_perm _))) in Hu.
  rewrite <- (firstn_skipn n (newest_first (rglob stream))) in Hu.
  apply in_app_iff in Hu as [Hu|Hu]; [exfalso|exact Hu].
  pose proof (newest_first_sorted (rglob stream)) as Hs.
  rewrite <- (firstn_skipn n (newest_first (rglob stream))) in Hs.
  pose proof (sorted_across _ _ _ Hs u p Hu Hpd) as Hup.
  simpl in Hup. unfold newer_first in Hup.
  apply Hne. apply datetime_leb_antisym.
  - unfold time_of in *. rewrite Htu in Hup. exact Hup.
  - apply filename_time_least.
Qed.

(** A stream with a name that does not parse between two dated
    segments. *)
Definition mixed_stream : node :=
  Dir [("2025-01-01-00-00-00-0.mp4", File 10);
       ("garbage.mp4", File 10);
       ("2025-01-02-00-00-00-0.mp4", File 10)].

Lemma unparsable_evicted_first_witness :
  exists ranked,
    sorted (rglob mixed_stream) (fun f => parse_filename_time (name f)) true
    = Ok ranked
    /\ Permutation ranked (rglob mixed_stream)
    /\ files_to_delete 1 mixed_stream = Ok (slice_from 1 ranked)
    /\ time_of ["garbage.mp4"] = datetime_min
    /\ (In ["2025-01-01-00-00-00-0.mp4"] (slice_from 1 ranked) ->
        In ["garbage.mp4"] (slice_from 1 ranked)).
Proof.
  apply (unparsable_evicted_first 1 mixed_stream ["garbage.mp4"]
           ["2025-01-01-00-00-00-0.mp4"]).
  - simpl. auto.
  - simpl. auto.
  - reflexivity.
  - reflexivity.
  - vm_compute. discriminate.
Defined.

(** C4 as the design document states it: whenever the deletion list
    holds a candidate whose name parses, it holds every candidate
    whose name does not. *)
Definition unparsable_before_parsable (keep_videos : Z) (stream : node)
  : Prop :=
  forall to_delete u p,
    files_to_delete keep_videos stream = Ok to_delete ->
    In u (rglob stream) -> In p (rglob stream) ->
    parsable (name u) = false -> parsable (name p) = true ->
    In p to_delete -> In u to_delete.

(** A name may parse to the very instant of the sentinel. *)
Definition sentinel_stream : node :=
  Dir [("garbage.mp4", File 10);
       ("0001-01-01-00-00-00-0.mp4", File 10)].

(** With [keep_videos = 1] the sweep deletes the segment dated
    0001-01-01 00:00:00 and keeps [garbage.mp4]: both rank with
    [datetime.min], and [garbage.mp4] was enumerated first. *)
Lemma unparsable_before_parsable_counterexample :
  ~ unparsable_before_parsable 1 sentinel_stream.
Proof.
  intros H.
  specialize (H [["0001-01-01-00-00-00-0.mp4"]] ["garbage.mp4"]
                ["0001-01-01-00-00-00-0.mp4"]).
  destruct H as [H|[]].
  - reflexivity.
  - simpl. auto.
  - simpl. auto.
  - reflexivity.
  - reflexivity.
  - simpl. auto.
  - discriminate H.
Qed.


(** ** Running the sweep again *)

Lemma process_stream_noop (may_unlink : path -> bool) (keep_videos : Z)
      (base : path) (n : node) :
  Z.of_nat (length (rglob n)) <= keep_videos ->
  process_stream may_unlink keep_videos base n = (Some n, no_effects).
Proof.
  intros H. rewrite process_stream_eq.
  destruct (Z.leb_spec (Z.of_nat (length (rglob n))) keep_videos);
    [reflexivity | lia].
Qed.

(** After a run in which every unlink succeeded, a stream that is
    still there has at most [keep_videos] candidates. *)
Lemma stream_within_limit (may_unlink : path -> bool) (keep_videos : Z)
      (base : path) (n n' : node) :
  wf n = true ->
  0 <= keep_videos ->
  no_failure (log (snd (process_stream may_unlink keep_videos base n))) ->
  fst (process_stream may_unlink keep_videos base n) = Some n' ->
  Z.of_nat (length (rglob n')) <= keep_videos.
Proof.
  intros Hwf HK Hok E.
  destruct (Z.leb_spec (Z.of_nat (length (rglob n))) keep_videos) as [Hle|Hlt].
  - rewrite (process_stream_noop _ _ _ _ Hle) in E.
    inversion E; subst. exact Hle.
  - pose proof (process_stream_remaining may_unlink keep_videos base n
                  Hwf Hlt Hok) as Hr.
    rewrite E in Hr. simpl in Hr. rewrite Hr.
    rewrite left_length; auto; [lia|]. apply rglob_NoDup, Hwf.
Qed.

Section TwoRuns.
Variables (first second : path -> bool) (keep_videos : Z).
Variable apps : list (string * node).
Hypothesis apps_wf : wf (Dir apps) = true.
Hypothesis keep_nonneg : 0 <= keep_videos.
Hypothesis first_ok :
  no_failure (log (snd (for_apps first keep_videos apps))).

Lemma after_first_run (a s : string) (streams' : list (string * node))
      (n' : node) :
  In (a, Dir streams') (fst (for_apps first keep_videos apps)) ->
  In (s, n') streams' ->
  is_dir n' = true ->
  Z.of_nat (length (rglob n')) <= keep_videos.
Proof.
  rewrite for_apps_eq. intros Ha Hs Hd.
  apply sweep_entries_In in Ha as (n0 & Ha & Eapp).
  destruct n0 as [sz|streams]; [discriminate Eapp|].
  unfold app_after in Eapp. cbv zeta in Eapp.
  destruct (app_deleted_any _ && negb _ && first [a]); [discriminate|].
  inversion Eapp; subst streams'; clear Eapp.
  rewrite for_streams_eq in Hs.
  apply sweep_entries_In in Hs as (n & Hs & Est).
  unfold stream_after in Est.
  destruct (is_dir n) eqn:Hdn; [|congruence].
  apply wf_Dir in apps_wf as [_ Hall].
  rewrite Forall_forall in Hall. pose proof (Hall _ Ha) as Hwfa.
  simpl snd in Hwfa. apply wf_Dir in Hwfa as [_ Hall'].
  rewrite Forall_forall in Hall'. pose proof (Hall' _ Hs) as Hwfn.
  eapply stream_within_limit; [exact Hwfn | exact keep_nonneg | | exact Est].
  intros f e Hin. apply (first_ok f e).
  rewrite for_apps_eq. apply sweep_entries_log.
  exists a, (Dir streams). split; [exact Ha|].
  apply app_effect_log. rewrite for_streams_eq.
  apply sweep_entries_log. exists s, n. split; [exact Hs|].
  unfold stream_effect. rewrite Hdn. exact Hin.
Qed.

Lemma second_run_total :
  total_deleted
    (snd (for_apps second keep_videos
            (fst (for_apps first keep_videos apps)))) = 0.
Proof.
  destruct (for_apps_facts second keep_videos
              (fst (for_apps first keep_videos apps))) as (H0 & H1 & _).
  cbv zeta in H0, H1.
  destruct (deleted_any
              (snd (for_apps second keep_videos
                      (fst (for_apps first keep_videos apps))))) eqn:E.
  - exfalso. rewrite for_apps_eq in E.
    apply sweep_entries_any in E as (a & n0 & Ha & E).
    destruct n0 as [sz|streams']; [discriminate E|].
    assert (Es : deleted_any
                   (snd (for_streams second keep_videos a streams'))
                 = true).
    { revert E. unfold app_effect. cbv zeta.
      destruct (app_deleted_any _ && negb _); simpl; [|auto].
      rewrite orb_false_r. auto. }
    rewrite for_streams_eq in Es.
    apply sweep_entries_any in Es as (s & n' & Hs & Es).
    unfold stream_effect in Es.
    destruct (is_dir n') eqn:Hd; [|discriminate Es].
    rewrite process_stream_noop in Es; [discriminate Es|].
    eapply after_first_run; eassumption.
  - assert (~ 0 < total_deleted
                    (snd (for_apps second keep_videos
                            (fst (for_apps first keep_videos apps))))).
    { intros Hpos. apply H1 in Hpos. discriminate Hpos. }
    lia.
Qed.

End TwoRuns.

(** C5, as the code has it.  With [keep_videos >= 0], after a run in
    which every deletion succeeded each stream directory is left with
    at most [keep_videos] candidates, and a second run (whatever the
    operating system would then allow) deletes nothing and leaves the
    store as the first run left it. *)
Theorem second_run_deletes_nothing
        (first second : path -> bool) (root : node) (keep_videos : Z) :
  wf root = true ->
  0 <= keep_videos ->
  no_failure (log (snd (cleanup_old_videos first (Some root) keep_videos))) ->
  let after := fst (cleanup_old_videos first (Some root) keep_videos) in
  total_deleted (snd (cleanup_old_videos second after keep_videos)) = 0
  /\ fst (cleanup_old_videos second after keep_videos) = after
  /\ forall root' a s n,
       after = Some root' -> lookup [a; s] root' = Some n ->
       Z.of_nat (length (rglob n)) <= keep_videos.
Proof.
  intros Hwf HK. destruct root as [sz|apps].
  { intros _. simpl. repeat split. intros root' a s n E. inversion E; subst.
    discriminate. }
  rewrite cleanup_Dir. cbn [fst snd]. intros Hok. cbv zeta.
  rewrite cleanup_Dir. cbn [fst snd].
  pose proof (second_run_total first second keep_videos apps Hwf HK Hok)
    as Hz.
  split; [exact Hz|]. split.
  - rewrite (sweep_nothing _ _ _ Hz). reflexivity.
  - intros root' a s n E Hl. inversion E; subst root'; clear E.
    destruct (is_dir n) eqn:Hd; [|destruct n; [simpl; lia | discriminate Hd]].
    apply lookup_two in Hl as (streams' & Ha & Hs).
    apply assoc_In in Ha, Hs.
    eapply after_first_run; eassumption.
Qed.

Lemma second_run_deletes_nothing_witness :
  let after := fst (cleanup_old_videos (fun _ => true) (Some tied) 1) in
  total_deleted (snd (cleanup_old_videos (fun _ => true) after 1)) = 0
  /\ fst (cleanup_old_videos (fun _ => true) after 1) = after
  /\ forall root' a s n,
       after = Some root' -> lookup [a; s] root' = Some n ->
       Z.of_nat (length (rglob n)) <= 1.
Proof.
  apply (second_run_deletes_nothing (fun _ => true) (fun _ => true) tied 1).
  - reflexivity.
  - lia.
  - no_failure_by_computation.
Defined.

(** C5 as the design document states it: a second run on what the
    first run left deletes nothing. *)
Definition second_run_idle (first second : path -> bool) (root : node)
           (keep_videos : Z) : Prop :=
  total_deleted
    (snd (cleanup_old_videos second
            (fst (cleanup_old_videos first (Some root) keep_videos))
            keep_videos)) = 0.

(** Two ways in which a second run still deletes: the first run could
    not unlink a file that the second run can (with [keep_videos = 1]
    the stream is left with two candidates), and [keep_videos = -1],
    where each run deletes the oldest remaining candidate. *)
Lemma second_run_idle_counterexample :
  ~ second_run_idle (fun _ => false) (fun _ => true) tied 1
  /\ ~ second_run_idle (fun _ => true) (fun _ => true) tied (-1).
Proof.
  split; intros H; vm_compute in H; discriminate H.
Qed.

End Retention.

(* ================================================================== *)
(** * The recording index *)
(* ================================================================== *)

Module Index.

Section Estimate.
Context {num : PyNumber}.
Variable timestamp : Type.
Variable get_video_shanghai_time : path -> option (video_info timestamp).
Variable base : path.

(** The walk takes the file for a segment. *)
Definition is_segment (f : path * Z) : bool :=
  endswith (lower (name (fst f))) ".mp4".

Let visit := visit timestamp get_video_shanghai_time base.

Lemma visit_other (t : tally) (f : path * Z) :
  is_segment f = false -> visit t f = t.
Proof.
  unfold visit, Main.visit, is_segment. intros ->. reflexivity.
Qed.

Lemma visit_slices (t : tally) (f : path * Z) :
  is_segment f = true -> total_slices (visit t f) = total_slices t + 1.
Proof.
  unfold visit, Main.visit, is_segment. intros ->. simpl.
  destruct (is_zero (first_video_duration t)); [|reflexivity].
  destruct (get_video_shanghai_time _); reflexivity.
Qed.

Lemma visit_settled (t : tally) (f : path * Z) :
  is_zero (first_video_duration t) = false ->
  first_video_duration (visit t f) = first_video_duration t.
Proof.
  unfold visit, Main.visit. intros H.
  destruct (negb _); [reflexivity|]. simpl. rewrite H. reflexivity.
Qed.

Lemma visit_unknown (t : tally) (f : path * Z) :
  (is_segment f = true -> get_video_shanghai_time (base ++ fst f) = None) ->
  first_video_duration (visit t f) = first_video_duration t.
Proof.
  unfold visit, Main.visit, is_segment. intros H.
  destruct (endswith _ _); simpl; [|reflexivity].
  rewrite (H eq_refl).
  destruct (is_zero (first_video_duration t)); reflexivity.
Qed.

Lemma visit_known (t : tally) (f : path * Z) (info : video_info timestamp) :
  is_segment f = true ->
  is_zero (first_video_duration t) = true ->
  get_video_shanghai_time (base ++ fst f) = Some info ->
  first_video_duration (visit t f) = snap (duration info).
Proof.
  unfold visit, Main.visit, is_segment. intros -> Hz ->. simpl.
  rewrite Hz. reflexivity.
Qed.

Lemma walk_slices (l : list (path * Z)) : forall t,
  total_slices (fold_left visit l t)
  = total_slices t + Z.of_nat (length (filter is_segment l)).
Proof.
  induction l as [|f l IH]; intros t; simpl; [lia|].
  rewrite IH. destruct (is_segment f) eqn:E.
  - rewrite (visit_slices _ _ E). simpl. lia.
  - rewrite (visit_other _ _ E). lia.
Qed.

Lemma walk_settled (l : list (path * Z)) : forall t,
  is_zero (first_video_duration t) = false ->
  first_video_duration (fold_left visit l t) = first_video_duration t.
Proof.
  induction l as [|f l IH]; intros t H; simpl; [reflexivity|].
  rewrite IH; rewrite (visit_settled _ _ H); [reflexivity | exact H].
Qed.

Lemma walk_unknown (l : list (path * Z)) : forall t,
  (forall g, In g l -> is_segment g = true ->
             get_video_shanghai_time (base ++ fst g) = None) ->
  first_video_duration (fold_left visit l t) = first_video_duration t.
Proof.
  induction l as [|f l IH]; intros t H; simpl; [reflexivity|].
  rewrite IH by (intros g Hg; apply H; right; exact Hg).
  apply visit_unknown. apply H. left. reflexivity.
Qed.

End Estimate.


(** C3, as the code has it.  When the first segment that the walk
    meets with a known duration has a duration that snaps to a non-zero
    multiple of [86400 / KEEP_VIDEOS], the record-days entry is that
    snapped duration times [KEEP_VIDEOS] over [86400]; and for a stream
    in which no segment has a known duration the entry is the string
    ["-"]. *)
Theorem record_days_estimate
        {num : PyNumber} (timestamp : Type)
        (get_video_shanghai_time : path -> option (video_info timestamp))
        (app_name stream_name : string) (n : node) :
  (forall pre f post info,
      walk_files n = pre ++ f :: post ->
      (forall g, In g pre -> is_segment g = true ->
                 get_video_shanghai_time ([app_name; stream_name] ++ fst g)
                 = None) ->
      is_segment f = true ->
      get_video_shanghai_time ([app_name; stream_name] ++ fst f) = Some info ->
      is_zero (snap (duration info)) = false ->
      exists r,
        summarize_stream timestamp get_video_shanghai_time
                         app_name stream_name n = Some r
        /\ record_days r
           = str (truediv (mul (of_int KEEP_VIDEOS) (snap (duration info)))
                          (of_int 86400)))
  /\ (forall r,
         summarize_stream timestamp get_video_shanghai_time
                          app_name stream_name n = Some r ->
         (forall g, In g (walk_files n) -> is_segment g = true ->
                    get_video_shanghai_time ([app_name; stream_name] ++ fst g)
                    = None) ->
         record_days r = "-").
Proof.
  split.
  - intros pre f post info Hw Hpre Hf Hinfo Hnz.
    unfold summarize_stream. cbv zeta. rewrite Hw.
    rewrite walk_slices. simpl total_slices.
    rewrite fold_left_app. simpl fold_left.
    rewrite walk_settled;
      rewrite (visit_known _ _ _ _ _ info Hf); auto;
      try (rewrite walk_unknown by exact Hpre; apply zero_is_zero).
    rewrite Hnz.
    rewrite filter_app. simpl filter. rewrite Hf.
    rewrite length_app. simpl length.
    destruct (Z.eqb_spec
                (0 + Z.of_nat (length (filter is_segment pre)
                               + S (length (filter is_segment post)))) 0);
      [lia|].
    eexists. split; reflexivity.
  - intros r Hr Hnone. revert Hr.
    unfold summarize_stream. cbv zeta.
    destruct (total_slices _ =? 0); [discriminate|].
    rewrite walk_unknown by exact Hnone. simpl first_video_duration.
    rewrite zero_is_zero. intros Hr. inversion Hr. reflexivity.
Qed.

(** A stream with two segments. *)
Definition two_segments : node :=
  Dir [("2025-01-01-00-00-00-0.mp4", File 1000);
       ("2025-01-01-01-00-00-0.mp4", File 1000)].

(** The container metadata: only the second segment can be read, and
    lasts an hour. *)
Definition second_lasts_an_hour (p : path)
  : option (@video_info Exact.rational Z) :=
  if String.eqb (name p) "2025-01-01-01-00-00-0.mp4"
  then Some (@mk_video_info Exact.rational Z 3600 (3600 # 1)%Q)
  else None.

Lemma record_days_estimate_witness :
  exists r,
    summarize_stream Z second_lasts_an_hour "live" "cam1" two_segments
    = Some r
    /\ record_days r = "3.0".
Proof.
  apply (proj1 (record_days_estimate Z second_lasts_an_hour
                  "live" "cam1" two_segments)
               [(["2025-01-01-00-00-00-0.mp4"], 1000)]
               (["2025-01-01-01-00-00-0.mp4"], 1000)
               []
               (@mk_video_info Exact.rational Z 3600 (3600 # 1)%Q)).
  - reflexivity.
  - intros g [<-|[]] _. reflexivity.
  - reflexivity.
  - reflexivity.
  - reflexivity.
Defined.

(** C3 as the design document states it, for a stream in which no
    segment has a known duration: the entry reads ["unknown"]. *)
Definition reports_unknown
           {num : PyNumber} (timestamp : Type)
           (get_video_shanghai_time : path -> option (video_info timestamp))
           (app_name stream_name : string) (n : node) : Prop :=
  forall r,
    summarize_stream timestamp get_video_shanghai_time
                     app_name stream_name n = Some r ->
    (forall g, In g (walk_files n) -> is_segment g = true ->
               get_video_shanghai_time ([app_name; stream_name] ++ fst g)
               = None) ->
    record_days r = "unknown".

(** With no readable metadata at all the entry is ["-"]. *)
Lemma reports_unknown_counterexample :
  ~ reports_unknown (num := Exact.rational) Z (fun _ => None)
      "live" "cam1" two_segments.
Proof.
  intros H.
  assert (E : exists r,
             summarize_stream (num := Exact.rational) Z (fun _ => None)
                              "live" "cam1" two_segments = Some r
             /\ record_days r = "-").
  { eexists. split; reflexivity. }
  destruct E as (r & E & Er).
  specialize (H r E (fun _ _ _ => eq_refl)).
  rewrite Er in H. discriminate H.
Qed.

(** ** Upper-case extensions *)

(** A stream with three segments, two of them with an upper-case
    extension. *)
Definition upper_case_store : node :=
  Dir [("live",
        Dir [("cam1",
              Dir [("2025-01-01-00-00-00-0.MP4", File 1000);
                   ("2025-01-02-00-00-00-0.MP4", File 1000);
                   ("2025-01-03-00-00-00-0.mp4", File 1000)])])].

(** C8 fails on the code.  The index counts all three segments of the
    stream, the sweep sees one candidate only: with [keep_videos = 1]
    it deletes nothing, and the two [.MP4] segments outlive every
    sweep. *)
Theorem upper_case_segments_escape_the_sweep :
  option_map (map slice_num)
             (data (get_video_list (num := Exact.rational) Z
                                   (fun _ => None) (Some upper_case_store)))
  = Some [3]
  /\ option_map rglob (lookup ["live"; "cam1"] upper_case_store)
     = Some [["2025-01-03-00-00-00-0.mp4"]]
  /\ cleanup_old_videos (fun _ => true) (Some upper_case_store) 1
     = (Some upper_case_store, no_effects).
Proof. repeat split. Qed.

End Index.



(* ================================================================== *)
(** * What the sweep leaves alone *)
(* ================================================================== *)

Module SweepSafety.
Import PyFacts FSFacts SweepFacts.

(** ** Files across one unlink *)

Lemma lookup_app (p q : path) : forall n,
  lookup (p ++ q) n
  = match lookup p n with
    | Some c => lookup q c
    | None => None
    end.
Proof.
  induction p as [|x p IH]; intros n; simpl; [reflexivity|].
  destruct n as [sz|es]; [reflexivity|].
  destruct (assoc x es); [apply IH | reflexivity].
Qed.

Lemma assoc_remove_other (x name : string) (es : list (string * node)) :
  x <> name -> assoc x (remove_entry name es) = assoc x es.
Proof.
  intros Hne. induction es as [|[n0 c0] es IH]; simpl; [reflexivity|].
  destruct (String.eqb name n0) eqn:E; simpl.
  - apply String.eqb_eq in E. subst.
    destruct (String.eqb x n0) eqn:E'; [|reflexivity].
    apply String.eqb_eq in E'. contradiction.
  - rewrite IH. reflexivity.
Qed.

Lemma assoc_remove_same (name : string) (es : list (string * node)) :
  NoDup (map fst es) -> assoc name (remove_entry name es) = None.
Proof.
  induction es as [|[n0 c0] es IH]; simpl; intros H; [reflexivity|].
  inversion H as [|? ? Hn Hes]; subst.
  destruct (String.eqb name n0) eqn:E; simpl.
  - apply String.eqb_eq in E. subst. apply assoc_None, Hn.
  - rewrite E. apply IH, Hes.
Qed.

Lemma assoc_replace_other (x name : string) (c' : node)
      (es : list (string * node)) :
  x <> name -> assoc x (replace_entry name c' es) = assoc x es.
Proof.
  intros Hne. induction es as [|[n0 c0] es IH]; simpl; [reflexivity|].
  destruct (String.eqb name n0) eqn:E; simpl.
  - apply String.eqb_eq in E. subst.
    destruct (String.eqb x n0) eqn:E'; [|reflexivity].
    apply String.eqb_eq in E'. contradiction.
  - rewrite IH. reflexivity.
Qed.

Lemma assoc_replace_same (name : string) (c c' : node)
      (es : list (string * node)) :
  assoc name es = Some c -> assoc name (replace_entry name c' es) = Some c'.
Proof.
  induction es as [|[n0 c0] es IH]; simpl; [discriminate|].
  destruct (String.eqb name n0) eqn:E; simpl; rewrite E; auto.
Qed.

(** After a successful [unlink] of [q], the regular files of the
    directory are those it had, but for [q]. *)
Lemma unlink_files (allowed : bool) (q : path) : forall n n' p sz,
  wf n = true ->
  unlink allowed q n = Ok n' ->
  (lookup p n' = Some (File sz) <-> lookup p n = Some (File sz) /\ p <> q).
Proof.
  induction q as [|name q' IH]; intros n n' p sz Hwf H; simpl in H;
    [discriminate|].
  destruct n as [sz0|es]; [discriminate|].
  destruct (assoc name es) as [c|] eqn:Hc; [|discriminate].
  pose proof (proj1 (wf_Dir es) Hwf) as [Hnd _].
  destruct q' as [|name' q''].
  - destruct c as [szc|?]; [|discriminate].
    destruct allowed; [|discriminate].
    inversion H; subst n'; clear H.
    destruct p as [|x p']; simpl.
    { split; [discriminate | intros [E _]; discriminate E]. }
    destruct (String.eqb_spec x name) as [->|Hne].
    + rewrite (assoc_remove_same _ _ Hnd), Hc. split; [discriminate|].
      intros [E Hp]. destruct p' as [|y p'']; [congruence|].
      simpl in E. discriminate E.
    + rewrite (assoc_remove_other _ _ _ Hne).
      split; [|tauto]. intros E. split; [exact E | congruence].
  - destruct (unlink allowed (name' :: q'') c) as [c'|] eqn:Hu;
      [|discriminate].
    simpl in H. inversion H; subst n'; clear H.
    pose proof (wf_assoc _ _ _ Hwf Hc) as Hwfc.
    destruct p as [|x p']; simpl.
    { split; [discriminate | intros [E _]; discriminate E]. }
    destruct (String.eqb_spec x name) as [->|Hne].
    + rewrite (assoc_replace_same _ _ _ _ Hc), Hc.
      rewrite (IH c c' p' sz Hwfc Hu).
      split; intros [E Hp]; (split; [exact E | congruence]).
    + rewrite (assoc_replace_other _ _ _ _ Hne).
      split; [|tauto]. intros E. split; [exact E | congruence].
Qed.

Lemma unlink_was_file (allowed : bool) (q : path) : forall n n',
  unlink allowed q n = Ok n' -> exists sz, lookup q n = Some (File sz).
Proof.
  induction q as [|name q' IH]; intros n n' H; simpl in H; [discriminate|].
  destruct n as [sz0|es]; [discriminate|].
  destruct (assoc name es) as [c|] eqn:Hc; [|discriminate].
  destruct q' as [|name' q''].
  - destruct c as [szc|?]; [|discriminate].
    exists szc. simpl. rewrite Hc. reflexivity.
  - destruct (unlink allowed (name' :: q'') c) as [c'|] eqn:Hu;
      [|discriminate].
    destruct (IH _ _ Hu) as [sz E]. exists sz.
    change (lookup (name :: name' :: q'') (Dir es))
      with (match assoc name es with
            | Some c0 => lookup (name' :: q'') c0
            | None => None
            end).
    rewrite Hc. exact E.
Qed.


Lemma unlink_gone (allowed : bool) (q : path) : forall n n',
  wf n = true -> unlink allowed q n = Ok n' -> lookup q n' = None.
Proof.
  induction q as [|name q' IH]; intros n n' Hwf H; simpl in H;
    [discriminate|].
  destruct n as [sz0|es]; [discriminate|].
  destruct (assoc name es) as [c|] eqn:Hc; [|discriminate].
  pose proof (proj1 (wf_Dir es) Hwf) as [Hnd _].
  destruct q' as [|name' q''].
  - destruct c as [szc|?]; [|discriminate].
    destruct allowed; [|discriminate].
    inversion H; subst n'. simpl.
    rewrite (assoc_remove_same _ _ Hnd). reflexivity.
  - destruct (unlink allowed (name' :: q'') c) as [c'|] eqn:Hu;
      [|discriminate].
    simpl in H. inversion H; subst n'.
    change (match assoc name (replace_entry name c' es) with
            | Some c0 => lookup (name' :: q'') c0
            | None => None
            end = None).
    rewrite (assoc_replace_same _ _ _ _ Hc).
    apply (IH c c' (wf_assoc _ _ _ Hwf Hc) Hu).
Qed.

Lemma unlink_none_stays (allowed : bool) (q : path) : forall n n' f,
  wf n = true ->
  unlink allowed q n = Ok n' ->
  lookup f n = None -> lookup f n' = None.
Proof.
  induction q as [|name q' IH]; intros n n' f Hwf H Hf; simpl in H;
    [discriminate|].
  destruct n as [sz0|es]; [discriminate|].
  destruct (assoc name es) as [c|] eqn:Hc; [|discriminate].
  pose proof (proj1 (wf_Dir es) Hwf) as [Hnd _].
  destruct f as [|x f']; [discriminate Hf|].
  simpl in Hf.
  destruct q' as [|name' q''].
  - destruct c as [szc|?]; [|discriminate].
    destruct allowed; [|discriminate].
    inversion H; subst n'. simpl.
    destruct (String.eqb_spec x name) as [->|Hne].
    + rewrite (assoc_remove_same _ _ Hnd). reflexivity.
    + rewrite (assoc_remove_other _ _ _ Hne). exact Hf.
  - destruct (unlink allowed (name' :: q'') c) as [c'|] eqn:Hu;
      [|discriminate].
    simpl in H. inversion H; subst n'. simpl.
    destruct (String.eqb_spec x name) as [->|Hne].
    + rewrite (assoc_replace_same _ _ _ _ Hc). rewrite Hc in Hf.
      apply (IH c c' f' (wf_assoc _ _ _ Hwf Hc) Hu Hf).
    + rewrite (assoc_replace_other _ _ _ _ Hne). exact Hf.
Qed.

(** ** Files across the deletion loop *)

Section Loop.
Variable may_unlink : path -> bool.
Variable base : path.

Lemma delete_files_none_stays (D : list path) : forall s f,
  wf s = true ->
  lookup f s = None ->
  lookup f (fst (delete_files may_unlink base D s)) = None.
Proof.
  induction D as [|d D IH]; intros s f Hwf Hf; [exact Hf|].
  rewrite delete_files_cons.
  destruct (unlink _ d s) as [s'|x] eqn:Hu; simpl; [|auto].
  apply IH.
  - exact (proj2 (unlink_rglob _ _ _ _ Hwf Hu)).
  - exact (unlink_none_stays _ _ _ _ _ Hwf Hu Hf).
Qed.

(** A regular file is there after the loop exactly when it was there
    before and the loop printed no deletion of it. *)
Lemma delete_files_files (D : list path) : forall s p sz,
  wf s = true ->
  (lookup p (fst (delete_files may_unlink base D s)) = Some (File sz)
   <-> lookup p s = Some (File sz)
       /\ ~ In (Deleted (base ++ p))
               (log (snd (delete_files may_unlink base D s)))).
Proof.
  induction D as [|d D IH]; intros s p sz Hwf.
  - simpl. tauto.
  - rewrite delete_files_cons.
    destruct (unlink _ d s) as [s'|x] eqn:Hu;
      cbn [fst snd seq_effects log]; simpl app; simpl In.
    + destruct (unlink_rglob _ _ _ _ Hwf Hu) as [_ Hwf'].
      rewrite (IH s' p sz Hwf'), (unlink_files _ _ _ _ p sz Hwf Hu).
      split.
      * intros [[E Hne] Hno]. split; [exact E|].
        intros [Hd|Hd]; [|tauto].
        inversion Hd as [Hd']. apply app_inv_head in Hd'. congruence.
      * intros [E Hno]. split; [split; [exact E|] | tauto].
        intros ->. apply Hno. left. reflexivity.
    + rewrite (IH s p sz Hwf). split.
      * intros [E Hno]. split; [exact E|].
        intros [Hd|Hd]; [discriminate Hd | tauto].
      * intros [E Hno]. split; [exact E | tauto].
Qed.

(** What the loop printed as deleted was a regular file and is gone. *)
Lemma delete_files_deleted (D : list path) : forall s f,
  wf s = true ->
  In (Deleted (base ++ f)) (log (snd (delete_files may_unlink base D s))) ->
  (exists sz, lookup f s = Some (File sz))
  /\ lookup f (fst (delete_files may_unlink base D s)) = None.
Proof.
  induction D as [|d D IH]; intros s f Hwf; [simpl; tauto|].
  rewrite delete_files_cons.
  destruct (unlink _ d s) as [s'|x] eqn:Hu;
    cbn [fst snd seq_effects log]; simpl app; simpl In.
  - destruct (unlink_rglob _ _ _ _ Hwf Hu) as [_ Hwf'].
    intros [Hd|Hd].
    + inversion Hd as [Hd']. apply app_inv_head in Hd'. subst d.
      split; [eapply unlink_was_file; eassumption|].
      apply delete_files_none_stays; [exact Hwf'|].
      exact (unlink_gone _ _ _ _ Hwf Hu).
    + destruct (IH s' f Hwf' Hd) as [[sz E] Hgone].
      split; [|exact Hgone].
      exists sz. apply (unlink_files _ _ _ _ f sz Hwf Hu) in E. tauto.
  - intros [Hd|Hd]; [discriminate Hd | auto].
Qed.

End Loop.


(** ** Files across a run *)

Lemma lookup_in_empty (n : node) (p : path) :
  iterdir n = [] -> p <> [] -> lookup p n = None.
Proof.
  destruct p as [|x p]; [congruence|]. intros H _.
  destruct n as [sz|es]; [reflexivity|]. simpl in H. subst. reflexivity.
Qed.

Lemma rglob_matches (n : node) : forall p,
  In p (rglob n) -> fnmatch_mp4 (name p) = true.
Proof.
  induction n as [sz|es IH] using node_induction; intros p Hp.
  - destruct Hp.
  - rewrite rglob_Dir in Hp. apply in_app_iff in Hp as [Hp|Hp].
    + unfold matching in Hp. apply in_map_iff in Hp as (e & <- & He).
      apply filter_In in He as [_ He]. exact He.
    + unfold below in Hp. apply in_flat_map in Hp as (e & He & Hp).
      apply in_map_iff in Hp as (q & <- & Hq).
      rewrite Forall_forall in IH. specialize (IH e He q Hq).
      destruct q as [|y q]; [exfalso; exact (rglob_not_nil _ Hq)|].
      exact IH.
Qed.

Lemma name_below (a s : string) (p : path) :
  p <> [] -> name (a :: s :: p) = name p.
Proof. destruct p as [|x p]; [congruence | reflexivity]. Qed.

Section Run.
Variable may_unlink : path -> bool.
Variable keep_videos : Z.

(** The stream directory after its iteration, by path: below a removed
    directory nothing is found. *)
Definition found_after (base : path) (stream : node) (p : path)
  : option node :=
  match fst (process_stream may_unlink keep_videos base stream) with
  | Some s' => lookup p s'
  | None => None
  end.

Lemma process_stream_files (base : path) (stream : node) (p : path) (sz : Z) :
  wf stream = true -> p <> [] ->
  (found_after base stream p = Some (File sz)
   <-> lookup p stream = Some (File sz)
       /\ ~ In (Deleted (base ++ p))
               (log (snd (process_stream may_unlink keep_videos base stream)))).
Proof.
  intros Hwf Hp. unfold found_after. rewrite process_stream_eq. cbv zeta.
  destruct (Z.of_nat (length (rglob stream)) <=? keep_videos);
    [simpl; tauto|].
  pose proof (delete_files_files may_unlink base
                (slice_from keep_videos (newest_first (rglob stream)))
                stream p sz Hwf) as Hiff.
  destruct (deleted_any _ && negb _) eqn:Hc;
    [|cbn [fst snd log]; exact Hiff].
  apply andb_prop in Hc as [_ Hc].
  assert (Hempty : iterdir (fst (delete_files may_unlink base
                    (slice_from keep_videos (newest_first (rglob stream)))
                    stream)) = []).
  { destruct (iterdir _); [reflexivity | discriminate Hc]. }
  pose proof (lookup_in_empty _ _ Hempty Hp) as Hnone.
  rewrite Hnone in Hiff.
  destruct (may_unlink base); cbn [fst snd seq_effects log];
    rewrite ?Hnone; (split; [discriminate|]);
    intros [E Hno]; apply Hiff; (split; [exact E|]);
    intros Hd; apply Hno, in_app_iff; auto.
Qed.

Lemma process_stream_deleted (base : path) (stream : node) (f : path) :
  wf stream = true ->
  In (Deleted (base ++ f))
     (log (snd (process_stream may_unlink keep_videos base stream))) ->
  (exists sz, lookup f stream = Some (File sz))
  /\ found_after base stream f = None
  /\ In f (rglob stream).
Proof.
  intros Hwf. unfold found_after. rewrite process_stream_eq. cbv zeta.
  destruct (Z.of_nat (length (rglob stream)) <=? keep_videos);
    [simpl; tauto|].
  assert (Hin : forall l, In (Deleted (base ++ f))
                   (log (snd (delete_files may_unlink base
                     (slice_from keep_videos (newest_first (rglob stream)))
                     stream))) ->
                l = rglob stream -> In f l).
  { intros l Hd ->. apply delete_files_log in Hd
      as [(g & Hg & _ & E) | (g & x & _ & E)]; [|discriminate E].
    inversion E as [E']. apply app_inv_head in E'. subst g.
    eapply to_delete_incl, Hg. }
  destruct (deleted_any _ && negb _); [destruct (may_unlink base)|];
    cbn [fst snd seq_effects log].
  - rewrite in_app_iff. intros [Hd|[Hd|[]]]; [|discriminate Hd].
    destruct (delete_files_deleted may_unlink base _ stream f Hwf Hd)
      as [Hw _].
    split; [exact Hw|]. split; [reflexivity | exact (Hin _ Hd eq_refl)].
  - rewrite in_app_iff. intros [Hd|[Hd|[]]]; [|discriminate Hd].
    destruct (delete_files_deleted may_unlink base _ stream f Hwf Hd)
      as [Hw Hg].
    split; [exact Hw|]. split; [exact Hg | exact (Hin _ Hd eq_refl)].
  - intros Hd.
    destruct (delete_files_deleted may_unlink base _ stream f Hwf Hd)
      as [Hw Hg].
    split; [exact Hw|]. split; [exact Hg | exact (Hin _ Hd eq_refl)].
Qed.

(** Where an event of the run comes from. *)
Lemma event_origin (apps : list (string * node)) (e : event) :
  In e (log (snd (for_apps may_unlink keep_videos apps))) ->
  (exists a streams s n,
      In (a, Dir streams) apps /\ In (s, n) streams /\ is_dir n = true
      /\ In e (log (snd (process_stream may_unlink keep_videos [a; s] n))))
  \/ (exists a, e = AppDirRemoved [a])
  \/ (exists a x, e = AppDirRemoveFailed [a] x).
Proof.
  rewrite for_apps_eq. intros H.
  apply sweep_entries_log in H as (a & n0 & Ha & H).
  destruct n0 as [sz|streams]; [destruct H|].
  assert (H' : In e (log (snd (for_streams may_unlink keep_videos a streams)))
               \/ e = AppDirRemoved [a]
               \/ e = AppDirRemoveFailed [a] PermissionError).
  { revert H. unfold app_effect. cbv zeta.
    destruct (app_deleted_any _ && negb _); simpl; [|auto].
    rewrite in_app_iff. intros [H|[H|[]]]; [auto|].
    destruct (may_unlink [a]); auto. }
  destruct H' as [H'|[H'|H']]; [|right; left; eauto|right; right; eauto].
  rewrite for_streams_eq in H'.
  apply sweep_entries_log in H' as (s & n & Hs & H').
  unfold stream_effect in H'.
  destruct (is_dir n) eqn:Hd; [|destruct H'].
  left. exists a, streams, s, n. auto.
Qed.

(** The path an event says was tried. *)
Definition attempted (e : event) : option path :=
  match e with
  | Deleted p => Some p
  | DeleteFailed p _ => Some p
  | _ => None
  end.

(** The events about a path below a stream directory are those of the
    iteration of that directory. *)
Lemma attempt_in_stream (apps : list (string * node)) (a s : string)
      (stream : node) (f : path) (e : event) :
  wf (Dir apps) = true ->
  lookup [a; s] (Dir apps) = Some stream ->
  In e (log (snd (for_apps may_unlink keep_videos apps))) ->
  attempted e = Some (a :: s :: f) ->
  is_dir stream = true
  /\ In e (log (snd (process_stream may_unlink keep_videos [a; s] stream))).
Proof.
  intros Hwf Hl Hin Hat.
  destruct (event_origin _ _ Hin)
    as [(a' & streams & s' & n & Ha & Hs & Hd & He)
       | [(a' & E) | (a' & x & E)]];
    [|subst e; discriminate Hat|subst e; discriminate Hat].
  assert (E : a' = a /\ s' = s).
  { destruct (process_stream_log _ _ _ _ _ He)
      as [[(g & _ & _ & E) | (g & x & _ & E)] | [[E _] | (x & E)]];
      subst e; simpl in Hat; inversion Hat; auto. }
  destruct E as [-> ->].
  apply lookup_two in Hl as (streams0 & Ha0 & Hs0).
  pose proof (proj1 (wf_Dir apps) Hwf) as [Hnd _].
  rewrite (In_assoc _ _ _ Hnd Ha) in Ha0. inversion Ha0; subst streams0.
  pose proof (wf_assoc _ _ _ Hwf (In_assoc _ _ _ Hnd Ha)) as Hwf'.
  pose proof (proj1 (wf_Dir streams) Hwf') as [Hnd' _].
  rewrite (In_assoc _ _ _ Hnd' Hs) in Hs0. inversion Hs0; subst n.
  auto.
Qed.

Lemma process_stream_deleted_listed (base : path) (stream : node) (f : path) :
  In (Deleted (base ++ f))
     (log (snd (process_stream may_unlink keep_videos base stream))) ->
  In f (slice_from keep_videos (newest_first (rglob stream))).
Proof.
  rewrite process_stream_eq. cbv zeta.
  destruct (Z.of_nat (length (rglob stream)) <=? keep_videos);
    [simpl; tauto|].
  assert (Hin : In (Deleted (base ++ f))
                   (log (snd (delete_files may_unlink base
                     (slice_from keep_videos (newest_first (rglob stream)))
                     stream))) ->
                In f (slice_from keep_videos (newest_first (rglob stream)))).
  { intros Hd. apply delete_files_log in Hd
      as [(g & Hg & _ & E) | (g & x & _ & E)]; [|discriminate E].
    inversion E as [E']. apply app_inv_head in E'. subst g. exact Hg. }
  destruct (deleted_any _ && negb _); [destruct (may_unlink base)|];
    cbn [fst snd seq_effects log]; [| |exact Hin];
    rewrite in_app_iff; intros [Hd|[Hd|[]]]; auto; discriminate Hd.
Qed.

Lemma sweep_found_after (apps : list (string * node)) (a s : string)
      (stream : node) (p : path) :
  wf (Dir apps) = true ->
  lookup [a; s] (Dir apps) = Some stream ->
  is_dir stream = true ->
  lookup (a :: s :: p) (Dir (fst (for_apps may_unlink keep_videos apps)))
  = found_after [a; s] stream p.
Proof.
  intros Hwf Hl Hd.
  change (a :: s :: p) with ([a; s] ++ p).
  rewrite lookup_app, (sweep_lookup_stream _ _ _ _ _ _ Hwf Hl).
  unfold stream_after, found_after. rewrite Hd. reflexivity.
Qed.

End Run.


(** ** Properties of a run *)

(** X1.  A stream directory with at most [keep_videos] candidates is
    left exactly as it was, and the run tries to delete nothing beneath
    it. *)
Theorem stream_within_limit_is_untouched
        (may_unlink : path -> bool) (root : node) (keep_videos : Z)
        (a s : string) (stream : node) :
  wf root = true ->
  lookup [a; s] root = Some stream ->
  Z.of_nat (length (rglob stream)) <= keep_videos ->
  exists root',
    fst (cleanup_old_videos may_unlink (Some root) keep_videos) = Some root'
    /\ lookup [a; s] root' = Some stream
    /\ forall e f,
        In e (log (snd (cleanup_old_videos may_unlink (Some root) keep_videos))) ->
        attempted e <> Some (a :: s :: f).
Proof.
  intros Hwf Hl Hle. destruct root as [sz|apps]; [discriminate Hl|].
  rewrite cleanup_Dir. cbn [fst snd]. eexists. split; [reflexivity|].
  split.
  - rewrite (sweep_lookup_stream _ _ _ _ _ _ Hwf Hl). unfold stream_after.
    rewrite (Retention.process_stream_noop _ _ _ _ Hle).
    destruct (is_dir stream); reflexivity.
  - intros e f Hin Hat.
    destruct (attempt_in_stream _ _ _ _ _ _ _ _ Hwf Hl Hin Hat) as [_ He].
    rewrite (Retention.process_stream_noop _ _ _ _ Hle) in He. exact He.
Qed.

Lemma stream_within_limit_is_untouched_witness :
  exists root',
    fst (cleanup_old_videos (fun _ => true) (Some Retention.tied) 2)
    = Some root'
    /\ lookup ["live"; "cam1"] root' = Some Retention.tied_stream
    /\ forall e f,
        In e (log (snd (cleanup_old_videos (fun _ => true)
                          (Some Retention.tied) 2))) ->
        attempted e <> Some ("live" :: "cam1" :: f).
Proof.
  apply (stream_within_limit_is_untouched (fun _ => true) Retention.tied 2
           "live" "cam1" Retention.tied_stream).
  - reflexivity.
  - reflexivity.
  - simpl. lia.
Defined.

(** X2.  The sweep deletes nothing but [*.mp4] entries inside stream
    directories: a regular file whose name does not end in [.mp4], and
    any regular file directly under the root or under an application
    directory, is still there after the run. *)
Theorem sweep_spares_other_files
        (may_unlink : path -> bool) (root : node) (keep_videos : Z)
        (p : path) (sz : Z) :
  wf root = true ->
  lookup p root = Some (File sz) ->
  fnmatch_mp4 (name p) = false \/ (length p <= 2)%nat ->
  exists root',
    fst (cleanup_old_videos may_unlink (Some root) keep_videos) = Some root'
    /\ lookup p root' = Some (File sz).
Proof.
  intros Hwf Hl Hp. destruct root as [sz0|apps].
  { simpl. eexists. split; [reflexivity | exact Hl]. }
  rewrite cleanup_Dir. cbn [fst snd]. eexists. split; [reflexivity|].
  destruct p as [|a [|s q]].
  - discriminate Hl.
  - rewrite lookup_one in *.
    rewrite (sweep_lookup_app _ _ _ _ _ Hwf Hl). reflexivity.
  - destruct q as [|x q'].
    { rewrite (sweep_lookup_stream _ _ _ _ _ _ Hwf Hl). reflexivity. }
    assert (Hq : x :: q' <> []) by discriminate.
    change (a :: s :: x :: q') with ([a; s] ++ x :: q') in Hl.
    rewrite lookup_app in Hl.
    destruct (lookup [a; s] (Dir apps)) as [stream|] eqn:Hs; [|discriminate].
    destruct stream as [sz1|es]; [discriminate Hl|].
    rewrite (sweep_found_after _ _ _ _ _ _ (x :: q') Hwf Hs eq_refl).
    apply process_stream_files; [exact (wf_lookup _ _ _ Hwf Hs) | exact Hq |].
    split; [exact Hl|]. intros Hd.
    apply process_stream_deleted in Hd as (_ & _ & Hin);
      [|exact (wf_lookup _ _ _ Hwf Hs)].
    apply rglob_matches in Hin.
    destruct Hp as [Hp|Hp]; [|simpl in Hp; lia].
    rewrite (name_below a s _ Hq) in Hp. congruence.
Qed.

(** A stream with a note beside its only segment. *)
Definition with_note : node :=
  Dir [("live",
        Dir [("cam1",
              Dir [("2025-01-01-00-00-00-0.mp4", File 10);
                   ("note.txt", File 1)])])].

Lemma sweep_spares_other_files_witness :
  exists root',
    fst (cleanup_old_videos (fun _ => true) (Some with_note) 0) = Some root'
    /\ lookup ["live"; "cam1"; "note.txt"] root' = Some (File 1).
Proof.
  apply (sweep_spares_other_files (fun _ => true) with_note 0
           ["live"; "cam1"; "note.txt"] 1).
  - reflexivity.
  - reflexivity.
  - left. reflexivity.
Defined.

(** X3.  Whatever unlink does, the [keep_videos] newest candidates of a
    stream are still there after the run ([keep_videos >= 0]): a regular
    file among the first [keep_videos] of the ranking is never
    deleted. *)
Theorem newest_survive_every_run
        (may_unlink : path -> bool) (root : node) (keep_videos : Z)
        (a s : string) (stream : node) (ranked : list path)
        (p : path) (sz : Z) :
  wf root = true ->
  0 <= keep_videos ->
  lookup [a; s] root = Some stream ->
  sorted (rglob stream) (fun f => parse_filename_time (name f)) true
  = Ok ranked ->
  In p (firstn (Z.to_nat keep_videos) ranked) ->
  lookup p stream = Some (File sz) ->
  exists root',
    fst (cleanup_old_videos may_unlink (Some root) keep_videos) = Some root'
    /\ lookup (a :: s :: p) root' = Some (File sz).
Proof.
  intros Hwf HK Hl Hr Hin Hf. destruct root as [sz0|apps]; [discriminate Hl|].
  rewrite cleanup_Dir. cbn [fst snd]. eexists. split; [reflexivity|].
  rewrite sorted_newest_first in Hr. inversion Hr; subst ranked; clear Hr.
  pose proof (wf_lookup _ _ _ Hwf Hl) as Hwfs.
  assert (Hp : p <> []).
  { intros ->. apply (rglob_not_nil stream).
    apply (Permutation_in _ (newest_first_perm _)).
    rewrite <- (firstn_skipn (Z.to_nat keep_videos)). apply in_app_iff. auto. }
  assert (Hd : is_dir stream = true).
  { destruct stream as [sz1|es]; [|reflexivity].
    destruct p; [congruence | discriminate Hf]. }
  rewrite (sweep_found_after _ _ _ _ _ _ p Hwf Hl Hd).
  apply process_stream_files; [exact Hwfs | exact Hp |].
  split; [exact Hf|]. intros Hdel.
  apply process_stream_deleted_listed in Hdel.
  rewrite Retention.slice_from_nonneg in Hdel by exact HK.
  refine (Retention.NoDup_app_disjoint
            (firstn (Z.to_nat keep_videos) (newest_first (rglob stream)))
            (skipn (Z.to_nat keep_videos) (newest_first (rglob stream)))
            p _ Hin Hdel).
  rewrite firstn_skipn.
  apply (Permutation_NoDup (Permutation_sym (newest_first_perm _))).
  apply rglob_NoDup, Hwfs.
Qed.

Lemma newest_survive_every_run_witness :
  exists root',
    fst (cleanup_old_videos (fun _ => false) (Some Retention.tied) 1)
    = Some root'
    /\ lookup ["live"; "cam1"; "2025-01-01-00-00-00-0.mp4"] root'
       = Some (File 10).
Proof.
  apply (newest_survive_every_run (fun _ => false) Retention.tied 1
           "live" "cam1" Retention.tied_stream
           [["2025-01-01-00-00-00-0.mp4"]; ["2025-01-01-00-00-00-1.mp4"]]
           ["2025-01-01-00-00-00-0.mp4"] 10).
  - reflexivity.
  - lia.
  - reflexivity.
  - reflexivity.
  - simpl. auto.
  - reflexivity.
Defined.

(** X4.  Every deletion the run prints is real: the path names a
    [*.mp4] entry inside a stream directory that was a regular file
    before the run and is gone after it. *)
Theorem printed_deletions_are_real
        (may_unlink : path -> bool) (root : node) (keep_videos : Z)
        (q : path) :
  wf root = true ->
  In (Deleted q)
     (log (snd (cleanup_old_videos may_unlink (Some root) keep_videos))) ->
  exists root' a s f,
    fst (cleanup_old_videos may_unlink (Some root) keep_videos) = Some root'
    /\ q = a :: s :: f /\ f <> []
    /\ fnmatch_mp4 (name q) = true
    /\ (exists sz, lookup q root = Some (File sz))
    /\ lookup q root' = None.
Proof.
  intros Hwf. destruct root as [sz0|apps].
  { simpl. intros [H|[]]. discriminate H. }
  rewrite cleanup_Dir. cbn [fst snd]. intros Hin.
  destruct (event_origin _ _ _ _ Hin)
    as [(a & streams & s & n & Ha & Hs & Hd & He)
       | [(a & E) | (a & x & E)]];
    [|discriminate E|discriminate E].
  destruct (process_stream_log _ _ _ _ _ He)
    as [[(f & _ & Hne & E) | (f & x & _ & E)] | [[E _] | (x & E)]];
    try discriminate E.
  inversion E; subst q; clear E.
  pose proof (proj1 (wf_Dir apps) Hwf) as [Hnd _].
  pose proof (In_assoc _ _ _ Hnd Ha) as Ha'.
  pose proof (wf_assoc _ _ _ Hwf Ha') as Hwf'.
  pose proof (proj1 (wf_Dir streams) Hwf') as [Hnd' _].
  pose proof (In_assoc _ _ _ Hnd' Hs) as Hs'.
  assert (Hl : lookup [a; s] (Dir apps) = Some n).
  { simpl. rewrite Ha', Hs'. reflexivity. }
  pose proof (wf_lookup _ _ _ Hwf Hl) as Hwfn.
  destruct (process_stream_deleted _ _ _ _ _ Hwfn He) as ([sz E] & Hg & Hc).
  eexists. exists a, s, f. split; [reflexivity|].
  split; [reflexivity|]. split; [exact Hne|].
  split; [|split].
  - change ([a; s] ++ f) with (a :: s :: f).
    rewrite (name_below a s f Hne). exact (rglob_matches _ _ Hc).
  - exists sz.
    change (lookup ([a; s] ++ f) (Dir apps) = Some (File sz)).
    rewrite lookup_app, Hl. exact E.
  - change ([a; s] ++ f) with (a :: s :: f).
    rewrite (sweep_found_after _ _ _ _ _ _ f Hwf Hl Hd). exact Hg.
Qed.

Lemma printed_deletions_are_real_witness :
  exists root' a s f,
    fst (cleanup_old_videos (fun _ => true) (Some Retention.tied) 1)
    = Some root'
    /\ ["live"; "cam1"; "2025-01-01-00-00-00-1.mp4"] = a :: s :: f
    /\ f <> []
    /\ fnmatch_mp4 (name ["live"; "cam1"; "2025-01-01-00-00-00-1.mp4"]) = true
    /\ (exists sz, lookup ["live"; "cam1"; "2025-01-01-00-00-00-1.mp4"]
                          Retention.tied = Some (File sz))
    /\ lookup ["live"; "cam1"; "2025-01-01-00-00-00-1.mp4"] root' = None.
Proof.
  apply (printed_deletions_are_real (fun _ => true) Retention.tied 1
           ["live"; "cam1"; "2025-01-01-00-00-00-1.mp4"]).
  - reflexivity.
  - vm_compute. auto.
Defined.


(** ** Counting *)

(** The deletions a run printed. *)
Definition deletions (l : list event) : nat :=
  length (filter (fun e => match e with Deleted _ => true | _ => false end) l).

Lemma deletions_app (l1 l2 : list event) :
  deletions (l1 ++ l2) = (deletions l1 + deletions l2)%nat.
Proof. unfold deletions. rewrite filter_app, length_app. reflexivity. Qed.

(** The files beneath what is left of a directory. *)
Definition files_left (after : option node) : nat :=
  match after with
  | Some n => Pruning.file_count n
  | None => 0%nat
  end.

Lemma count_remove (name : string) (sz : Z) (es : list (string * node)) :
  assoc name es = Some (File sz) ->
  Pruning.file_count (Dir es)
  = S (Pruning.file_count (Dir (remove_entry name es))).
Proof.
  induction es as [|[n0 c0] es IH]; simpl; [discriminate|].
  destruct (String.eqb name n0); simpl.
  - intros H; inversion H; subst. reflexivity.
  - intros H. simpl in IH. rewrite (IH H). lia.
Qed.

Lemma count_replace (name : string) (c c' : node)
      (es : list (string * node)) :
  assoc name es = Some c ->
  (Pruning.file_count (Dir es) + Pruning.file_count c'
   = Pruning.file_count (Dir (replace_entry name c' es))
     + Pruning.file_count c)%nat.
Proof.
  induction es as [|[n0 c0] es IH]; simpl; [discriminate|].
  destruct (String.eqb name n0); simpl.
  - intros H; inversion H; subst. lia.
  - intros H. simpl in IH. specialize (IH H). lia.
Qed.

Lemma unlink_count (allowed : bool) (q : path) : forall n n',
  unlink allowed q n = Ok n' ->
  Pruning.file_count n = S (Pruning.file_count n') /\ is_dir n' = true.
Proof.
  induction q as [|name q' IH]; intros n n' H; simpl in H; [discriminate|].
  destruct n as [sz0|es]; [discriminate|].
  destruct (assoc name es) as [c|] eqn:Hc; [|discriminate].
  destruct q' as [|name' q''].
  - destruct c as [szc|?]; [|discriminate].
    destruct allowed; [|discriminate].
    inversion H; subst n'. split; [|reflexivity].
    eapply count_remove, Hc.
  - destruct (unlink allowed (name' :: q'') c) as [c'|] eqn:Hu;
      [|discriminate].
    simpl in H. inversion H; subst n'. split; [|reflexivity].
    destruct (IH _ _ Hu) as [E _].
    pose proof (count_replace name c c' es Hc). lia.
Qed.

Section Counting.
Variable may_unlink : path -> bool.
Variable keep_videos : Z.

Lemma delete_files_count (base : path) (D : list path) : forall s,
  let r := delete_files may_unlink base D s in
  Z.of_nat (Pruning.file_count s)
  = Z.of_nat (Pruning.file_count (fst r)) + total_deleted (snd r)
  /\ Z.of_nat (deletions (log (snd r))) = total_deleted (snd r)
  /\ (deleted_any (snd r) = true -> is_dir (fst r) = true).
Proof.
  induction D as [|d D IH]; intros s; cbv zeta.
  - simpl. repeat split; try lia; try discriminate.
  - rewrite delete_files_cons.
    destruct (unlink _ d s) as [s'|x] eqn:Hu;
      cbn [fst snd seq_effects deleted_any total_deleted log].
    + destruct (unlink_count _ _ _ _ Hu) as [E Hd].
      destruct (IH s') as (H1 & H2 & H3). cbv zeta in H1, H2, H3.
      rewrite deletions_app.
      change (deletions [Deleted (base ++ d)]) with 1%nat.
      cbn [orb].
      split; [lia|]. split; [lia|]. intros _.
      destruct (deleted_any (snd (delete_files may_unlink base D s'))) eqn:Ha;
        [auto|].
      rewrite (delete_files_none _ _ _ _ Ha). exact Hd.
    + destruct (IH s) as (H1 & H2 & H3). cbv zeta in H1, H2, H3.
      rewrite deletions_app.
      change (deletions [DeleteFailed (base ++ d) x]) with 0%nat.
      cbn [orb].
      split; [lia|]. split; [lia | exact H3].
Qed.

Lemma process_stream_count (base : path) (stream : node) :
  let r := process_stream may_unlink keep_videos base stream in
  Z.of_nat (Pruning.file_count stream)
  = Z.of_nat (files_left (fst r)) + total_deleted (snd r)
  /\ Z.of_nat (deletions (log (snd r))) = total_deleted (snd r).
Proof.
  cbv zeta. rewrite process_stream_eq. cbv zeta.
  destruct (Z.of_nat (length (rglob stream)) <=? keep_videos).
  - simpl. lia.
  - destruct (delete_files_count base
                (slice_from keep_videos (newest_first (rglob stream))) stream)
      as (H1 & H2 & H3). cbv zeta in H1, H2, H3.
    destruct (deleted_any (snd (delete_files _ _ _ _))) eqn:Ha;
      cbn [andb]; [|simpl; lia].
    destruct (iterdir (fst (delete_files _ _ _ _))) eqn:Hit;
      cbn [any negb];
      [|cbn [fst snd files_left total_deleted log]; lia].
    specialize (H3 eq_refl).
    destruct (may_unlink base);
      cbn [fst snd files_left seq_effects total_deleted log];
      rewrite deletions_app; unfold deletions at 2; simpl filter;
      simpl length;
      (destruct (fst (delete_files may_unlink base
                  (slice_from keep_videos (newest_first (rglob stream)))
                  stream)) as [sz|es]; [discriminate H3|]);
      simpl in Hit; subst es; simpl in H1 |- *; lia.
Qed.

Section Entries.
Variable after : string -> node -> option node.
Variable effect : string -> node -> effects.
Hypothesis entry_count : forall s n,
  Z.of_nat (Pruning.file_count n)
  = Z.of_nat (files_left (after s n)) + total_deleted (effect s n)
  /\ Z.of_nat (deletions (log (effect s n))) = total_deleted (effect s n).

Lemma sweep_entries_count (es : list (string * node)) :
  let r := sweep_entries after effect es in
  Z.of_nat (Pruning.file_count (Dir es))
  = Z.of_nat (Pruning.file_count (Dir (fst r))) + total_deleted (snd r)
  /\ Z.of_nat (deletions (log (snd r))) = total_deleted (snd r).
Proof.
  cbv zeta. induction es as [|[s n] es IH]; [simpl; lia|].
  cbn [sweep_entries fst snd seq_effects total_deleted log].
  destruct IH as [I1 I2]. destruct (entry_count s n) as [E1 E2].
  rewrite deletions_app.
  assert (Hsum : forall l1 l2 : list (string * node),
             Pruning.file_count (Dir (l1 ++ l2))
             = (Pruning.file_count (Dir l1) + Pruning.file_count (Dir l2))%nat).
  { intros l1 l2. simpl. rewrite map_app, list_sum_app. reflexivity. }
  rewrite Hsum.
  change (Pruning.file_count (Dir ((s, n) :: es)))
    with (Pruning.file_count n + Pruning.file_count (Dir es))%nat.
  split; [|lia].
  destruct (after s n) as [n'|]; cbn [files_left] in E1.
  - change (Pruning.file_count (Dir [(s, n')]))
      with (Pruning.file_count n' + 0)%nat.
    lia.
  - change (Pruning.file_count (Dir [])) with 0%nat. lia.
Qed.

End Entries.

Lemma for_streams_count (app : string) (es : list (string * node)) :
  let r := for_streams may_unlink keep_videos app es in
  Z.of_nat (Pruning.file_count (Dir es))
  = Z.of_nat (Pruning.file_count (Dir (fst r))) + total_deleted (snd r)
  /\ Z.of_nat (deletions (log (snd r))) = total_deleted (snd r).
Proof.
  cbv zeta. rewrite for_streams_eq. apply sweep_entries_count.
  intros s n. unfold stream_after, stream_effect.
  destruct (is_dir n); [apply process_stream_count | simpl; lia].
Qed.

Lemma for_apps_count (es : list (string * node)) :
  let r := for_apps may_unlink keep_videos es in
  Z.of_nat (Pruning.file_count (Dir es))
  = Z.of_nat (Pruning.file_count (Dir (fst r))) + total_deleted (snd r)
  /\ Z.of_nat (deletions (log (snd r))) = total_deleted (snd r).
Proof.
  cbv zeta. rewrite for_apps_eq. apply sweep_entries_count.
  intros a n. destruct n as [sz|streams]; [simpl; lia|].
  unfold app_after, app_effect. cbv zeta.
  destruct (for_streams_count a streams) as [H1 H2]. cbv zeta in H1, H2.
  destruct (app_deleted_any _ && negb _) eqn:Hc; cbn [andb];
    [|cbn [files_left]; lia].
  apply andb_prop in Hc as [_ Hc].
  destruct (fst (for_streams may_unlink keep_videos a streams));
    [|discriminate Hc].
  cbn [seq_effects total_deleted log]. rewrite deletions_app.
  destruct (may_unlink [a]); cbn [files_left]; unfold deletions at 2;
    simpl in *; lia.
Qed.

End Counting.

(** X5.  The number of deleted segments that a run reports is exact: it
    is the number of deletions printed, and the number of files beneath
    the root has gone down by just that number. *)
Theorem deleted_total_is_exact
        (may_unlink : path -> bool) (root : node) (keep_videos : Z) :
  let run := cleanup_old_videos may_unlink (Some root) keep_videos in
  Z.of_nat (Pruning.file_count root)
  = Z.of_nat (files_left (fst run)) + total_deleted (snd run)
  /\ Z.of_nat (deletions (log (snd run))) = total_deleted (snd run).
Proof.
  cbv zeta. destruct root as [sz|apps]; [simpl; lia|].
  rewrite cleanup_Dir. cbn [fst snd files_left]. apply for_apps_count.
Qed.

(** The paths a log says were tried, in order. *)
Definition attempts (l : list event) : list path :=
  flat_map (fun e => match attempted e with
                     | Some p => [p]
                     | None => []
                     end) l.

Lemma delete_files_attempts (may_unlink : path -> bool) (base : path)
      (D : list path) : forall s,
  attempts (log (snd (delete_files may_unlink base D s)))
  = map (List.app base) D.
Proof.
  induction D as [|d D IH]; intros s; [reflexivity|].
  rewrite delete_files_cons.
  destruct (unlink _ d s) as [s'|x];
    cbn [fst snd seq_effects log]; simpl; rewrite IH; reflexivity.
Qed.

(** X6.  A failed unlink does not stop the loop: when a stream has more
    than [keep_videos] candidates, every file of its deletion list is
    tried exactly once, in the order of the list (oldest last). *)
Theorem every_listed_file_is_tried
        (may_unlink : path -> bool) (keep_videos : Z) (base : path)
        (stream : node) (to_delete : list path) :
  keep_videos < Z.of_nat (length (rglob stream)) ->
  files_to_delete keep_videos stream = Ok to_delete ->
  attempts (log (snd (process_stream may_unlink keep_videos base stream)))
  = map (List.app base) to_delete.
Proof.
  intros Hlt Hd. rewrite files_to_delete_eq in Hd. inversion Hd; subst.
  rewrite process_stream_eq. cbv zeta.
  destruct (Z.leb_spec (Z.of_nat (length (rglob stream))) keep_videos); [lia|].
  destruct (deleted_any _ && negb _); [destruct (may_unlink base)|];
    cbn [fst snd seq_effects log]; [| |apply delete_files_attempts];
    unfold attempts; rewrite flat_map_app; simpl; rewrite app_nil_r;
    apply delete_files_attempts.
Qed.

Lemma every_listed_file_is_tried_witness :
  attempts (log (snd (process_stream (fun _ => false) 0 ["live"; "cam1"]
                        Retention.tied_stream)))
  = map (List.app ["live"; "cam1"])
        [["2025-01-01-00-00-00-0.mp4"]; ["2025-01-01-00-00-00-1.mp4"]].
Proof.
  apply (every_listed_file_is_tried (fun _ => false) 0 ["live"; "cam1"]
           Retention.tied_stream).
  - simpl. lia.
  - reflexivity.
Defined.

End SweepSafety.


(* ================================================================== *)
(** * Names and ranks *)
(* ================================================================== *)

Module Names.
Import PyFacts TimeExtractor.

(** X9.  Only the leading stamp of a name counts: two names that begin
    with the same stamp, its seconds written with two digits, get the
    same timestamp, whatever follows (the index of the segment, the
    extension). *)
Theorem text_after_the_stamp_is_ignored
        (Y Mo D H Mi S rest rest' : string) :
  all_digits Y = true -> String.length Y = 4%nat ->
  field Mo -> field D -> field H -> field Mi ->
  all_digits S = true -> String.length S = 2%nat ->
  parse_filename_time
    (Y ++ "-" ++ Mo ++ "-" ++ D ++ "-" ++ H ++ "-" ++ Mi ++ "-" ++ S ++ rest)
  = parse_filename_time
      (Y ++ "-" ++ Mo ++ "-" ++ D ++ "-" ++ H ++ "-" ++ Mi ++ "-" ++ S
         ++ rest').
Proof.
  intros HY HlY HMo HD HH HMi HS HlS.
  assert (HL : forall r,
             leading_fields
               (Y ++ "-" ++ Mo ++ "-" ++ D ++ "-" ++ H ++ "-" ++ Mi ++ "-"
                  ++ S ++ r) Y Mo D H Mi S).
  { intros r. exists r.
    split; [reflexivity|]. split; [exact HY|]. split; [exact HlY|].
    split; [exact HMo|]. split; [exact HD|]. split; [exact HH|].
    split; [exact HMi|]. split; [split; [exact HS | right; exact HlS]|].
    intros E. rewrite HlS in E. discriminate E. }
  unfold parse_filename_time.
  rewrite (re_match_complete _ _ _ _ _ _ _ (HL rest)).
  rewrite (re_match_complete _ _ _ _ _ _ _ (HL rest')).
  reflexivity.
Qed.

Lemma text_after_the_stamp_is_ignored_witness :
  parse_filename_time "2025-01-01-00-00-00-0.mp4"
  = parse_filename_time "2025-01-01-00-00-00-1.MP4.part".
Proof.
  apply (text_after_the_stamp_is_ignored
           "2025" "01" "01" "00" "00" "00" "-0.mp4" "-1.MP4.part");
    try reflexivity; split; simpl; auto.
Defined.

(** ** The three tests on a file name *)

Lemma append_assoc (a b c : string) :
  ((a ++ b) ++ c = a ++ (b ++ c))%string.
Proof. induction a as [|x a IH]; simpl; [|rewrite IH]; reflexivity. Qed.

Lemma rev_from_acc (s : string) : forall acc,
  rev_from acc s = (rev_from "" s ++ acc)%string.
Proof.
  induction s as [|c s IH]; intros acc; simpl; [reflexivity|].
  rewrite (IH (String c acc)), (IH (String c "")).
  rewrite append_assoc. reflexivity.
Qed.

Lemma rev_from_append (p q : string) :
  rev_from "" (p ++ q) = (rev_from "" q ++ rev_from "" p)%string.
Proof.
  assert (H : forall acc, rev_from acc (p ++ q)%string
                          = rev_from (rev_from acc p) q).
  { induction p as [|c p IH]; intros acc; simpl; [reflexivity | apply IH]. }
  rewrite H. apply rev_from_acc.
Qed.

Lemma prefix_append (a r : string) : String.prefix a (a ++ r) = true.
Proof.
  induction a as [|c a IH]; simpl; [destruct r; reflexivity|].
  destruct (ascii_dec c c); [exact IH | contradiction].
Qed.

Lemma endswith_append (p suffix : string) :
  endswith (p ++ suffix) suffix = true.
Proof. unfold endswith. rewrite rev_from_append. apply prefix_append. Qed.

Lemma prefix_split (a : string) : forall b,
  String.prefix a b = true -> exists r, b = (a ++ r)%string.
Proof.
  induction a as [|c a IH]; intros b H.
  - exists b. reflexivity.
  - destruct b as [|d b]; simpl in H; [discriminate|].
    destruct (ascii_dec c d) as [->|]; [|discriminate].
    destruct (IH _ H) as [r ->]. exists r. reflexivity.
Qed.

Lemma rev_from_involutive (s : string) : rev_from "" (rev_from "" s) = s.
Proof.
  induction s as [|c s IH]; [reflexivity|].
  simpl. rewrite (rev_from_acc s (String c "")), rev_from_append, IH.
  reflexivity.
Qed.

Lemma endswith_split (s suffix : string) :
  endswith s suffix = true -> exists p, s = (p ++ suffix)%string.
Proof.
  unfold endswith. intros H. apply prefix_split in H as [r Hr].
  exists (rev_from "" r).
  rewrite <- (rev_from_involutive s), Hr, rev_from_append,
    rev_from_involutive.
  reflexivity.
Qed.

Lemma lower_append (p q : string) :
  lower (p ++ q) = (lower p ++ lower q)%string.
Proof. induction p as [|c p IH]; simpl; [|rewrite IH]; reflexivity. Qed.

Lemma drop_split (i : nat) : forall s,
  exists p, s = (p ++ drop i s)%string.
Proof.
  induction i as [|i IH]; intros s; simpl.
  - exists ""%string. reflexivity.
  - destruct s as [|c s]; [exists ""%string; reflexivity|].
    destruct (IH s) as [p Hp]. exists (String c p). simpl. congruence.
Qed.

Lemma append_length (p q : string) :
  String.length (p ++ q) = (String.length p + String.length q)%nat.
Proof. induction p as [|c p IH]; simpl; [|rewrite IH]; reflexivity. Qed.

Lemma lower_length (s : string) : String.length (lower s) = String.length s.
Proof. induction s as [|c s IH]; simpl; [|rewrite IH]; reflexivity. Qed.

(** X10.  The three tests on a file name nest.  A name that the sweep
    takes for a segment ([*.mp4]) and a name that the listing of a date
    takes for one ([suffix.lower() == ".mp4"]) both pass the test of the
    index ([lower().endswith(".mp4")]); and the listing, unlike the other
    two, wants a character before the extension. *)
Theorem name_tests_nest (file_name : string) :
  (fnmatch_mp4 file_name = true ->
   endswith (lower file_name) ".mp4" = true)
  /\ (String.eqb (lower (suffix file_name)) ".mp4" = true ->
      endswith (lower file_name) ".mp4" = true
      /\ (4 < String.length file_name)%nat).
Proof.
  split.
  - unfold fnmatch_mp4. intros H. apply endswith_split in H as [p ->].
    rewrite lower_append. apply endswith_append.
  - unfold suffix.
    destruct (rfind_dot file_name) as [i|]; [|discriminate].
    destruct ((0 <? i)%nat && (i <? String.length file_name - 1)%nat)
      eqn:Hi; [|discriminate].
    intros H. apply String.eqb_eq in H.
    apply andb_prop in Hi as [H0 _]. apply Nat.ltb_lt in H0.
    destruct i as [|i]; [lia|].
    destruct file_name as [|c r]; [discriminate H|].
    simpl drop in H.
    destruct (drop_split i r) as [p Hp].
    split.
    + rewrite Hp. change (String c (p ++ drop i r))
        with (String c p ++ drop i r)%string.
      rewrite lower_append, H. apply endswith_append.
    + assert (Hl : String.length (drop i r) = 4%nat).
      { rewrite <- lower_length, H. reflexivity. }
      rewrite Hp. simpl. rewrite append_length. lia.
Qed.

Lemma name_tests_nest_witness :
  endswith (lower "a.MP4") ".mp4" = true /\ (4 < String.length "a.MP4")%nat.
Proof. exact (proj2 (name_tests_nest "a.MP4") eq_refl). Defined.

(** ** Equal starts in the listing of a date *)

Section Ties.
Variables (K A : Type) (before : K -> K -> bool) (key : A -> K).
Hypothesis before_trans :
  forall a b c, before a b = true -> before b c = true ->
                before a c = true.

(** The elements whose key is equivalent to [c]. *)
Definition tied_with (c : K) (x : A) : bool :=
  before (key x) c && before c (key x).

Lemma filter_keyed (c : K) (l : list A) :
  filter (same_class K A before c) (map (keyed K A key) l)
  = map (keyed K A key) (filter (tied_with c) l).
Proof.
  induction l as [|x l IH]; [reflexivity|].
  simpl. unfold same_class at 1, tied_with at 1. simpl fst.
  destruct (before (key x) c && before c (key x)); simpl; rewrite IH;
    reflexivity.
Qed.

Lemma sort_by_stable (c : K) (l : list A) :
  filter (tied_with c) (sort_by K A before key l) = filter (tied_with c) l.
Proof.
  pose proof (stable_sort_stable K A before before_trans c
                (map (keyed K A key) l)) as H.
  rewrite sort_by_keyed, !filter_keyed in H.
  apply (f_equal (map snd)) in H.
  rewrite !map_map in H. simpl in H. rewrite !map_id in H. exact H.
Qed.

End Ties.

(** X11.  [get_video] sorts stably: the segments of a date whose starts
    are equal come in the order in which the directory lists them. *)
Theorem equal_starts_keep_directory_order
        {num : PyNumber} (timestamp : Type)
        (timestamp_leb : timestamp -> timestamp -> bool)
        (get_video_shanghai_time : path -> option (video_info timestamp))
        (RECORD_ROOT : option node) (app stream date : string)
        (entries : list (string * node)) (t : timestamp) :
  (forall a b c, timestamp_leb a b = true -> timestamp_leb b c = true ->
                 timestamp_leb a c = true) ->
  bind_root RECORD_ROOT (lookup [app; stream; date]) = Some (Dir entries) ->
  let same_start r :=
    timestamp_leb (start (seg_info r)) t
    && timestamp_leb t (start (seg_info r)) in
  option_map (filter same_start)
    (data (get_video timestamp timestamp_leb get_video_shanghai_time
                     RECORD_ROOT app stream date))
  = Some (filter same_start
            (collect timestamp get_video_shanghai_time
                     [app; stream; date] entries)).
Proof.
  intros Htrans Hdir. cbv zeta. unfold get_video. cbv zeta.
  rewrite Hdir. simpl. f_equal.
  unfold sort_by_start. rewrite SweepFacts.combine_keys.
  apply (sort_by_stable timestamp _ timestamp_leb
           (fun r => start (seg_info r)) Htrans t).
Qed.

(** Two segments with the same start, the lexically later one listed
    first. *)
Definition same_start_day : node :=
  Dir [("live",
        Dir [("cam1",
              Dir [("2025-01-05",
                    Dir [("b.mp4", File 1); ("a.mp4", File 1)])])])].

Lemma equal_starts_keep_directory_order_witness :
  option_map (map (@filename Exact.rational Z))
    (option_map (filter (fun r => (start (seg_info r) <=? 7)
                                  && (7 <=? start (seg_info r))))
       (data (get_video Z Z.leb
                (fun _ => Some (@mk_video_info Exact.rational Z 7 (1 # 1)%Q))
                (Some same_start_day) "live" "cam1" "2025-01-05")))
  = Some [["live"; "cam1"; "2025-01-05"; "b.mp4"];
          ["live"; "cam1"; "2025-01-05"; "a.mp4"]].
Proof.
  rewrite (equal_starts_keep_directory_order
             Z Z.leb
             (fun _ => Some (@mk_video_info Exact.rational Z 7 (1 # 1)%Q))
             (Some same_start_day) "live" "cam1" "2025-01-05"
             [("b.mp4", File 1); ("a.mp4", File 1)] 7).
  - reflexivity.
  - intros a b c. rewrite !Z.leb_le. lia.
  - reflexivity.
Defined.

End Names.

(* ================================================================== *)
(** * The dates of a stream in the index *)
(* ================================================================== *)

Module Dates.
Import PyFacts.

(** [s.split("-")] *)
Fixpoint split_hyphen (s : string) : list string :=
  match s with
  | EmptyString => [EmptyString]
  | String c r =>
      if Ascii.eqb c "-" then EmptyString :: split_hyphen r
      else match split_hyphen r with
           | p :: ps => String c p :: ps
           | [] => [String c EmptyString]
           end
  end.

(** White space, among ASCII characters: tab to carriage return, the
    four separators and the blank. *)
Definition is_space (c : ascii) : bool :=
  let n := N_of_ascii c in
  (((9 <=? n) && (n <=? 13)) || ((28 <=? n) && (n <=? 31)) || (n =? 32))%N.

Fixpoint lstrip (s : string) : string :=
  match s with
  | EmptyString => EmptyString
  | String c r => if is_space c then lstrip r else s
  end.

Definition strip (s : string) : string :=
  rev_from "" (lstrip (rev_from "" (lstrip s))).

(** The digits of a decimal literal after its first digit; one
    underscore may stand between two digits.  Returns the value and the
    number of digits. *)
Fixpoint digits_from (acc : Z) (count : nat) (s : string)
  : option (Z * nat) :=
  match s with
  | EmptyString => Some (acc, count)
  | String c r =>
      if is_digit c
      then digits_from (acc * 10 + digit_value c) (S count) r
      else if Ascii.eqb c "_" then
        match r with
        | String d r' =>
            if is_digit d
            then digits_from (acc * 10 + digit_value d) (S count) r'
            else None
        | EmptyString => None
        end
      else None
  end.

(** A literal without sign.  A literal of more than 4300 digits is
    refused (the default of [sys.int_max_str_digits]). *)
Definition unsigned (s : string) : result Z :=
  match s with
  | EmptyString => Raise ValueError
  | String c r =>
      if is_digit c then
        match digits_from (digit_value c) 1 r with
        | Some (v, n) => if (4300 <? n)%nat then Raise ValueError else Ok v
        | None => Raise ValueError
        end
      else Raise ValueError
  end.

(** [int(s)] on an ASCII string: white space around the literal, an
    optional sign, decimal digits. *)
Definition int_of_str (s : string) : result Z :=
  match strip s with
  | EmptyString => Raise ValueError
  | String c r =>
      if Ascii.eqb c "+" then unsigned r
      else if Ascii.eqb c "-" then bind (unsigned r) (fun v => Ok (- v))
      else unsigned (String c r)
  end.

Definition zeros (n : nat) : string := string_of_list_ascii (repeat "0"%char n).

(** [format(z, "0{width}d")]: the sign, then zeros up to the width, then
    the digits. *)
Definition format_0d (width : nat) (z : Z) : string :=
  let digits := NilEmpty.string_of_uint (N.to_uint (Z.abs_N z)) in
  if z <? 0
  then ("-" ++ zeros (width - 1 - String.length digits) ++ digits)%string
  else (zeros (width - String.length digits) ++ digits)%string.

(** [f"{year:04d}-{month:02d}-{day:02d}"] *)
Definition format_date (t : Z * Z * Z) : string :=
  let '(year, month, day) := t in
  (format_0d 4 year ++ "-" ++ format_0d 2 month ++ "-" ++ format_0d 2 day)%string.

Definition in_range (t : Z * Z * Z) : bool :=
  let '(year, month, day) := t in
  (2000 <=? year) && (year <=? 2100)
  && (1 <=? month) && (month <=? 12)
  && (1 <=? day) && (day <=? 31).

(** Lines 403-422: the date that a directory name stands for, if it
    stands for one. *)
Definition formatted_date (dir_name : string) : option string :=
  match split_hyphen dir_name with
  | [p0; p1; p2] =>
      match bind (int_of_str p0) (fun year =>
            bind (int_of_str p1) (fun month =>
            bind (int_of_str p2) (fun day => Ok (year, month, day)))) with
      | Ok t => if in_range t then Some (format_date t) else None
      | Raise _ => None
      end
  | _ => None
  end.

(** The names of the entries of a directory that are not directories
    (the [files] of [os.walk]). *)
Definition file_names (es : list (string * node)) : list string :=
  flat_map (fun e => match snd e with
                     | File _ => [fst e]
                     | Dir _ => []
                     end) es.

(** [os.walk(stream_path)], top down: each directory with its name and
    its [files]. *)
Fixpoint walk (dir_name : string) (n : node)
  : list (string * list string) :=
  match n with
  | File _ => []
  | Dir es =>
      (dir_name, file_names es)
      :: flat_map (fun e => walk (fst e) (snd e)) es
  end.

(** Lines 424-451: what one directory of the walk adds to the set. *)
Definition dated (d : string * list string) : list string :=
  if existsb (fun file => endswith (lower file) ".mp4") (snd d)
  then match formatted_date (fst d) with
       | Some f => [f]
       | None => []
       end
  else [].

(** [sorted(dates)] of a set of strings, given the elements in the
    order in which they were added. *)
Definition sorted_set (added : list string) : list string :=
  map snd (stable_sort String.leb
             (map (fun s => (s, s)) (nodup string_dec added))).

(** The ["dates"] entry of the summary of a stream directory. *)
Definition dates (stream_name : string) (stream : node) : list string :=
  sorted_set (flat_map dated (walk stream_name stream)).


(** ** The order of strings *)

Lemma compare_trans (a : string) : forall b c,
  String.compare a b <> Gt -> String.compare b c <> Gt ->
  String.compare a c <> Gt.
Proof.
  induction a as [|x a IH]; intros [|y b] [|z c]; simpl; try congruence.
  unfold Ascii.compare.
  destruct (N.compare_spec (N_of_ascii x) (N_of_ascii y)),
    (N.compare_spec (N_of_ascii y) (N_of_ascii z)),
    (N.compare_spec (N_of_ascii x) (N_of_ascii z));
    try congruence; try lia.
  apply IH.
Qed.

Lemma leb_trans (a b c : string) :
  String.leb a b = true -> String.leb b c = true -> String.leb a c = true.
Proof.
  unfold String.leb. intros H1 H2.
  pose proof (compare_trans a b c) as H.
  destruct (String.compare a b), (String.compare b c),
    (String.compare a c); try discriminate; try reflexivity;
    exfalso; apply H; congruence.
Qed.

Lemma compare_cons_same (c : ascii) (a b : string) :
  String.compare (String c a) (String c b) = String.compare a b.
Proof. simpl. unfold Ascii.compare. rewrite N.compare_refl. reflexivity. Qed.

Lemma compare_append (a : string) : forall a' b b',
  String.length a = String.length a' ->
  String.compare (a ++ b) (a' ++ b')
  = match String.compare a a' with
    | Eq => String.compare b b'
    | c => c
    end.
Proof.
  induction a as [|x a IH]; intros [|y a'] b b' Hl; simpl in Hl;
    try discriminate; [reflexivity|].
  simpl. destruct (Ascii.compare x y); [|reflexivity|reflexivity].
  apply IH. congruence.
Qed.

(** ** The set, sorted *)

Lemma sorted_set_perm (added : list string) :
  Permutation (sorted_set added) (nodup string_dec added).
Proof.
  apply (sort_by_perm string string String.leb (fun s => s)).
Qed.

Lemma sorted_set_In (added : list string) (f : string) :
  In f (sorted_set added) <-> In f added.
Proof.
  split; intros H.
  - apply (nodup_In string_dec).
    eapply Permutation_in; [apply sorted_set_perm | exact H].
  - eapply Permutation_in; [symmetry; apply sorted_set_perm|].
    apply (nodup_In string_dec), H.
Qed.

Lemma strictly_sorted {A} (R : A -> A -> Prop) (l : list A) :
  StronglySorted R l -> NoDup l ->
  StronglySorted (fun x y => R x y /\ x <> y) l.
Proof.
  induction 1 as [|x l Hs IH Hx]; intros Hnd; [constructor|].
  inversion Hnd as [|? ? Hn Hl]; subst.
  constructor; [auto|].
  rewrite Forall_forall in *. intros y Hy.
  split; [auto|]. intros ->. contradiction.
Qed.

Lemma sorted_weaken {A} (R R' : A -> A -> Prop) (l : list A) :
  (forall x y, R x y -> R' x y) ->
  StronglySorted R l -> StronglySorted R' l.
Proof.
  intros HR. induction 1 as [|x l Hs IH Hx]; constructor; [exact IH|].
  rewrite Forall_forall in *. auto.
Qed.

Lemma sorted_set_ascending (added : list string) :
  StronglySorted (fun x y => String.compare x y = Lt) (sorted_set added).
Proof.
  pose proof (sort_by_sorted string string String.leb (fun s => s)
                String.leb_total leb_trans (nodup string_dec added)) as Hs.
  assert (Hnd : NoDup (sorted_set added)).
  { eapply Permutation_NoDup; [symmetry; apply sorted_set_perm|].
    apply NoDup_nodup. }
  pose proof (strictly_sorted _ _ Hs Hnd) as H.
  change (sort_by string string String.leb (fun s => s)
            (nodup string_dec added)) with (sorted_set added) in H.
  refine (sorted_weaken _ _ _ _ H).
  intros x y [Hle Hne]. cbv beta in Hle. unfold String.leb in Hle.
  destruct (String.compare x y) eqn:E; try discriminate; [|reflexivity].
  apply String.compare_eq_iff in E. contradiction.
Qed.

(** ** Formatted dates *)

(** The integers from [lo], [n] of them. *)
Definition span (lo : Z) (n : nat) : list Z :=
  map (fun k => lo + Z.of_nat k) (seq 0 n).

Lemma span_In (lo : Z) (n : nat) (z : Z) :
  lo <= z < lo + Z.of_nat n -> In z (span lo n).
Proof.
  intros H. unfold span. apply in_map_iff.
  exists (Z.to_nat (z - lo)). split; [lia|]. apply in_seq. lia.
Qed.

Definition same_comparison (a b : comparison) : bool :=
  match a, b with
  | Eq, Eq | Lt, Lt | Gt, Gt => true
  | _, _ => false
  end.

(** On a span of integers, formatting to a width gives strings of that
    width whose order is the order of the integers. *)
Definition ordered_on (width : nat) (zs : list Z) : bool :=
  forallb (fun y =>
    (String.length (format_0d width y) =? width)%nat
    && forallb (fun y' =>
         same_comparison
           (String.compare (format_0d width y) (format_0d width y'))
           (y ?= y')) zs) zs.

Lemma ordered_on_sound (width : nat) (zs : list Z) :
  ordered_on width zs = true ->
  forall y y', In y zs -> In y' zs ->
    String.length (format_0d width y) = width
    /\ String.compare (format_0d width y) (format_0d width y') = (y ?= y').
Proof.
  unfold ordered_on. rewrite forallb_forall. intros H y y' Hy Hy'.
  specialize (H y Hy). apply andb_prop in H as [Hl H].
  apply Nat.eqb_eq in Hl. split; [exact Hl|].
  rewrite forallb_forall in H. specialize (H y' Hy').
  destruct (String.compare _ _), (y ?= y'); try discriminate; reflexivity.
Qed.

Lemma years_ordered : ordered_on 4 (span 2000 101) = true.
Proof. vm_compute. reflexivity. Qed.

Lemma months_ordered : ordered_on 2 (span 1 12) = true.
Proof. vm_compute. reflexivity. Qed.

Lemma days_ordered : ordered_on 2 (span 1 31) = true.
Proof. vm_compute. reflexivity. Qed.

(** The fields of a date, most significant first. *)
Definition date_fields (t : Z * Z * Z) : list Z :=
  let '(year, month, day) := t in [year; month; day].

(** Formatted dates compare as the dates do. *)
Lemma format_date_order (a b : Z * Z * Z) :
  in_range a = true -> in_range b = true ->
  String.compare (format_date a) (format_date b)
  = lex_compare (date_fields a) (date_fields b).
Proof.
  destruct a as [[y m] d], b as [[y' m'] d']. unfold in_range.
  rewrite !andb_true_iff, !Z.leb_le.
  intros (((((Y1 & Y2) & M1) & M2) & D1) & D2)
         (((((Y1' & Y2') & M1') & M2') & D1') & D2').
  assert (Hy : In y (span 2000 101)) by (apply span_In; lia).
  assert (Hy' : In y' (span 2000 101)) by (apply span_In; lia).
  assert (Hm : In m (span 1 12)) by (apply span_In; lia).
  assert (Hm' : In m' (span 1 12)) by (apply span_In; lia).
  assert (Hd : In d (span 1 31)) by (apply span_In; lia).
  assert (Hd' : In d' (span 1 31)) by (apply span_In; lia).
  destruct (ordered_on_sound _ _ years_ordered y y' Hy Hy') as [Ly Cy].
  destruct (ordered_on_sound _ _ years_ordered y' y Hy' Hy) as [Ly' _].
  destruct (ordered_on_sound _ _ months_ordered m m' Hm Hm') as [Lm Cm].
  destruct (ordered_on_sound _ _ months_ordered m' m Hm' Hm) as [Lm' _].
  destruct (ordered_on_sound _ _ days_ordered d d' Hd Hd') as [_ Cd].
  unfold format_date, date_fields. cbn [lex_compare].
  rewrite compare_append by congruence. rewrite Cy.
  destruct (y ?= y'); try reflexivity.
  change ("-" ++ format_0d 2 m ++ "-" ++ format_0d 2 d)%string
    with (String "-" (format_0d 2 m ++ String "-" (format_0d 2 d))).
  change ("-" ++ format_0d 2 m' ++ "-" ++ format_0d 2 d')%string
    with (String "-" (format_0d 2 m' ++ String "-" (format_0d 2 d'))).
  rewrite compare_cons_same, compare_append by congruence. rewrite Cm.
  destruct (m ?= m'); try reflexivity.
  rewrite compare_cons_same, Cd.
  destruct (d ?= d'); reflexivity.
Qed.

Lemma formatted_date_Some (dir_name f : string) :
  formatted_date dir_name = Some f ->
  exists t, in_range t = true /\ f = format_date t.
Proof.
  unfold formatted_date.
  destruct (split_hyphen dir_name) as [|p0 [|p1 [|p2 [|? ?]]]];
    try discriminate.
  destruct (bind _ _) as [t|e]; [|discriminate].
  destruct (in_range t) eqn:E; [|discriminate].
  intros H; inversion H; subst. exists t. auto.
Qed.

Lemma dated_In (d : string * list string) (f : string) :
  In f (dated d) <->
  existsb (fun file => endswith (lower file) ".mp4") (snd d) = true
  /\ formatted_date (fst d) = Some f.
Proof.
  unfold dated.
  destruct (existsb _ (snd d)); [|simpl; intuition discriminate].
  destruct (formatted_date (fst d)) as [f0|]; simpl.
  - split; [intros [->|[]]; auto | intros [_ H]; inversion H; auto].
  - intuition discriminate.
Qed.

Lemma images {A B} (g : A -> B) (P : A -> Prop) (l : list B) :
  Forall (fun y => exists x, P x /\ y = g x) l ->
  exists xs, l = map g xs /\ Forall P xs.
Proof.
  induction 1 as [|y l (x & Hx & ->) _ (xs & -> & Hxs)].
  - exists []. split; [reflexivity | constructor].
  - exists (x :: xs). split; [reflexivity | constructor; assumption].
Qed.

Lemma sorted_images {A B} (g : A -> B) (P : A -> Prop)
      (R : B -> B -> Prop) (R' : A -> A -> Prop) (xs : list A) :
  (forall a b, P a -> P b -> R (g a) (g b) -> R' a b) ->
  Forall P xs ->
  StronglySorted R (map g xs) -> StronglySorted R' xs.
Proof.
  intros HR. induction xs as [|x xs IH]; intros HP Hs; [constructor|].
  inversion HP as [|? ? Px Pxs]; subst.
  simpl in Hs. inversion Hs as [|? ? Hs' Hall]; subst.
  constructor; [auto|].
  rewrite Forall_forall in *. intros y Hy.
  apply HR; auto. apply Hall, in_map, Hy.
Qed.

(** X12.  The ["dates"] entry of a stream holds dates of the form
    [YYYY-MM-DD] with the year from 2000 to 2100, the month from 1 to 12
    and the day from 1 to 31, each once, in chronological order: sorting
    the strings sorts the dates. *)
Theorem dates_are_canonical_and_ascending
        (stream_name : string) (stream : node) :
  exists ts : list (Z * Z * Z),
    dates stream_name stream = map format_date ts
    /\ Forall (fun t => in_range t = true) ts
    /\ StronglySorted
         (fun a b => lex_compare (date_fields a) (date_fields b) = Lt) ts.
Proof.
  unfold dates.
  set (added := flat_map dated (walk stream_name stream)).
  assert (H : Forall (fun f => exists t, in_range t = true
                                         /\ f = format_date t)
                     (sorted_set added)).
  { apply Forall_forall. intros f Hf.
    apply (proj1 (sorted_set_In _ _)) in Hf.
    apply in_flat_map in Hf as (d & _ & Hf).
    apply (proj1 (dated_In _ _)) in Hf as [_ Hf].
    eapply formatted_date_Some, Hf. }
  destruct (images _ _ _ H) as (ts & Hts & Hrange).
  exists ts. split; [exact Hts|]. split; [exact Hrange|].
  pose proof (sorted_set_ascending added) as Hs. rewrite Hts in Hs.
  refine (sorted_images format_date (fun t => in_range t = true) _ _ ts
            _ Hrange Hs).
  intros a b Ha Hb. rewrite (format_date_order a b Ha Hb). auto.
Qed.

(** ** Directories that are found *)






End Dates.

(* ================================================================== *)
(** * What the index counts *)
(* ================================================================== *)

Module Tally.
Import Index.

Section Sizes.
Context {num : PyNumber}.
Variable timestamp : Type.
Variable get_video_shanghai_time : path -> option (video_info timestamp).
Variable base : path.

Let visit := visit timestamp get_video_shanghai_time base.

(** The bytes of the segments of a walk. *)
Definition bytes (l : list (path * Z)) : Z :=
  fold_right Z.add 0 (map snd (filter is_segment l)).

Lemma visit_size (t : tally) (f : path * Z) :
  is_segment f = true ->
  total_size_bytes (visit t f) = total_size_bytes t + snd f.
Proof.
  unfold visit, Main.visit, is_segment. intros ->. simpl.
  destruct (is_zero (first_video_duration t)); [|reflexivity].
  destruct (get_video_shanghai_time _); reflexivity.
Qed.

Lemma walk_size (l : list (path * Z)) : forall t,
  total_size_bytes (fold_left visit l t) = total_size_bytes t + bytes l.
Proof.
  unfold bytes.
  induction l as [|f l IH]; intros t; simpl; [lia|].
  rewrite IH. destruct (is_segment f) eqn:E.
  - rewrite (visit_size _ _ E). simpl. lia.
  - assert (Hv : visit t f = t)
      by exact (visit_other timestamp get_video_shanghai_time base t f E).
    rewrite Hv. reflexivity.
Qed.

End Sizes.

(** X14.  The index counts the segments of a stream and adds up their
    sizes whatever their metadata says: a stream has an entry exactly
    when some file beneath it, at any depth, has a name that ends in
    [.mp4] in any case; the entry then gives the number of these files
    as [slice_num] and their bytes over [1024**3], rounded to two
    digits, as [total_storage_gb]. *)
Theorem index_counts_every_segment
        {num : PyNumber} (timestamp : Type)
        (get_video_shanghai_time : path -> option (video_info timestamp))
        (app_name stream_name : string) (n : node) :
  match summarize_stream timestamp get_video_shanghai_time
                         app_name stream_name n with
  | Some r =>
      app r = app_name /\ stream r = stream_name
      /\ 0 < slice_num r
      /\ slice_num r = Z.of_nat (length (filter is_segment (walk_files n)))
      /\ total_storage_gb r
         = round_ndigits (truediv (of_int (bytes (walk_files n)))
                                  (of_int (1024 ^ 3))) 2
  | None => filter is_segment (walk_files n) = []
  end.
Proof.
  unfold summarize_stream. cbv zeta.
  pose proof (walk_slices timestamp get_video_shanghai_time
                [app_name; stream_name] (walk_files n)
                (mk_tally 0 0 (of_int 0))) as Hn.
  pose proof (walk_size timestamp get_video_shanghai_time
                [app_name; stream_name] (walk_files n)
                (mk_tally 0 0 (of_int 0))) as Hb.
  cbn [total_slices total_size_bytes] in Hn, Hb.
  destruct (Z.eqb_spec (total_slices
              (fold_left (visit timestamp get_video_shanghai_time
                            [app_name; stream_name])
                         (walk_files n) (mk_tally 0 0 (of_int 0)))) 0)
    as [E|E].
  - destruct (filter is_segment (walk_files n)); [reflexivity|].
    simpl length in Hn. lia.
  - cbn [app stream slice_num total_storage_gb].
    rewrite Hb, Hn. repeat split; try reflexivity. lia.
Qed.

End Tally.

(* ================================================================== *)
(** * The list of streams *)
(* ================================================================== *)

Module Streams.

(** The key of a stream: [(vhost, app, stream)]. *)
Definition key : Type := string * string * string.

Definition key_eqb (a b : key) : bool :=
  let '(v, p, s) := a in
  let '(v', p', s') := b in
  String.eqb v v' && String.eqb p p' && String.eqb s s'.

Section Grouping.

(** The values that the handler copies without looking at them: the
    entries [originTypeStr], [originUrl], [originSock], [aliveSecond],
    [isRecordingMP4], [isRecordingHLS] and [totalReaderCount] of a media
    object, and its entries [schema], [bytesSpeed], [readerCount],
    [totalBytes] and [tracks] (or [[]]). *)
Variables (Origin Schema : Type).

(** An element of the media list of the media server. *)
Record media : Type := mk_media {
  vhost : string;
  app : string;
  stream : string;
  origin : Origin;
  schema : Schema
}.

(** An element of the answer. *)
Record stream_info : Type := mk_stream_info {
  info_vhost : string;
  info_app : string;
  info_stream : string;
  info_origin : Origin;
  schemas : list Schema
}.

Definition media_key (m : media) : key := (vhost m, app m, stream m).

Definition info_key (e : stream_info) : key :=
  (info_vhost e, info_app e, info_stream e).

(** [key in stream_map] *)
Definition contains (k : key) (stream_map : list (key * stream_info)) : bool :=
  existsb (fun p => key_eqb k (fst p)) stream_map.

(** [stream_map[key]["schemas"].append(x)] *)
Definition append_schema (k : key) (x : Schema)
           (stream_map : list (key * stream_info))
  : list (key * stream_info) :=
  map (fun p =>
         if key_eqb k (fst p)
         then (fst p,
               mk_stream_info (info_vhost (snd p)) (info_app (snd p))
                              (info_stream (snd p)) (info_origin (snd p))
                              (schemas (snd p) ++ [x]))
         else p)
      stream_map.

(** Lines 196-223: one turn of the loop.  The dictionary keeps its keys
    in the order in which they were added. *)
Definition add_media (stream_map : list (key * stream_info)) (m : media)
  : list (key * stream_info) :=
  let k := media_key m in
  let stream_map' :=
    if contains k stream_map then stream_map
    else stream_map
         ++ [(k, mk_stream_info (vhost m) (app m) (stream m) (origin m) [])] in
  append_schema k (schema m) stream_map'.

(** Lines 194-226: [list(stream_map.values())] after the loop. *)
Definition group (media_list : list media) : list stream_info :=
  map snd (fold_left add_media media_list []).

(** [raw_data.get("data", [])] *)
Definition media_of (data : option (list media)) : list media :=
  match data with
  | Some media_list => media_list
  | None => []
  end.

(** [get_streamid_list] on the answer of the media server, given by its
    code and its ["data"] entry, if it has one: [None] stands for
    passing the answer on as it is, [Some result] for code 0 with the
    data [result]. *)
Definition get_streamid_list (code : Z) (data : option (list media))
  : option (list stream_info) :=
  if negb (code =? 0) then None
  else Some (group (media_of data)).

(** The keys of a list in the order of their first appearance. *)
Fixpoint first_seen (ks : list key) : list key :=
  match ks with
  | [] => []
  | k :: r => k :: filter (fun k' => negb (key_eqb k k')) (first_seen r)
  end.

Definition has_key (k : key) (m : media) : bool := key_eqb k (media_key m).

End Grouping.

Arguments mk_media {Origin Schema} vhost app stream origin schema.
Arguments vhost {Origin Schema} m.
Arguments app {Origin Schema} m.
Arguments stream {Origin Schema} m.
Arguments origin {Origin Schema} m.
Arguments schema {Origin Schema} m.
Arguments mk_stream_info {Origin Schema}
  info_vhost info_app info_stream info_origin schemas.
Arguments info_vhost {Origin Schema} s.
Arguments info_app {Origin Schema} s.
Arguments info_stream {Origin Schema} s.
Arguments info_origin {Origin Schema} s.
Arguments schemas {Origin Schema} s.
Arguments media_key {Origin Schema} m.
Arguments info_key {Origin Schema} e.
Arguments contains {Origin Schema} k stream_map.
Arguments append_schema {Origin Schema} k x stream_map.
Arguments add_media {Origin Schema} stream_map m.
Arguments group {Origin Schema} media_list.
Arguments media_of {Origin Schema} data.
Arguments get_streamid_list {Origin Schema} code data.
Arguments has_key {Origin Schema} k m.

Lemma key_eqb_spec (a b : key) : reflect (a = b) (key_eqb a b).
Proof.
  destruct a as [[v p] s], b as [[v' p'] s']. unfold key_eqb.
  destruct (String.eqb_spec v v'), (String.eqb_spec p p'),
    (String.eqb_spec s s'); simpl; constructor; congruence.
Qed.

Lemma key_eqb_refl (a : key) : key_eqb a a = true.
Proof. destruct (key_eqb_spec a a); congruence. Qed.

Lemma existsb_key (k : key) (ks : list key) :
  existsb (key_eqb k) ks = true <-> In k ks.
Proof.
  rewrite existsb_exists. split.
  - intros (x & Hx & E). destruct (key_eqb_spec k x); congruence.
  - intros H. exists k. split; [exact H | apply key_eqb_refl].
Qed.

Lemma first_seen_In (k : key) (ks : list key) :
  In k (first_seen ks) <-> In k ks.
Proof.
  induction ks as [|a ks IH]; simpl; [tauto|].
  rewrite filter_In, IH.
  destruct (key_eqb_spec a k) as [->|Hne]; simpl; [tauto|].
  intuition congruence.
Qed.

Lemma first_seen_NoDup (ks : list key) : NoDup (first_seen ks).
Proof.
  induction ks as [|a ks IH]; simpl; constructor.
  - rewrite filter_In, key_eqb_refl. simpl. intros [_ H]. discriminate H.
  - apply NoDup_filter, IH.
Qed.

Lemma first_seen_snoc (ks : list key) (k : key) :
  first_seen (ks ++ [k])
  = if existsb (key_eqb k) ks then first_seen ks else first_seen ks ++ [k].
Proof.
  induction ks as [|a ks IH]; simpl; [reflexivity|].
  rewrite IH.
  destruct (key_eqb_spec k a) as [->|Hne]; simpl.
  - destruct (existsb (key_eqb a) ks); [reflexivity|].
    rewrite filter_app. simpl. rewrite key_eqb_refl. simpl.
    rewrite app_nil_r. reflexivity.
  - destruct (existsb (key_eqb k) ks); [reflexivity|].
    rewrite filter_app. simpl.
    destruct (key_eqb_spec a k) as [E|_]; [congruence|]. reflexivity.
Qed.

Section Facts.
Variables (Origin Schema : Type).
Local Abbreviation media := (media Origin Schema).
Local Abbreviation stream_info := (stream_info Origin Schema).

(** What the dictionary holds after the loop has seen [l]. *)
Definition holds (l : list media) (stream_map : list (key * stream_info))
  : Prop :=
  map fst stream_map = first_seen (map media_key l)
  /\ forall k e,
       In (k, e) stream_map ->
       info_key e = k
       /\ schemas e = map schema (filter (has_key k) l)
       /\ exists m, find (has_key k) l = Some m
                    /\ info_origin e = origin m.

Lemma append_schema_keys (k : key) (x : Schema)
      (stream_map : list (key * stream_info)) :
  map fst (append_schema k x stream_map) = map fst stream_map.
Proof.
  unfold append_schema. rewrite map_map. apply map_ext.
  intros p. destruct (key_eqb k (fst p)); reflexivity.
Qed.

Lemma contains_keys (k : key) (stream_map : list (key * stream_info)) :
  contains k stream_map = existsb (key_eqb k) (map fst stream_map).
Proof.
  unfold contains. induction stream_map as [|p sm IH]; simpl;
    [|rewrite IH]; reflexivity.
Qed.

Lemma absent (k : key) (l : list media) :
  existsb (key_eqb k) (map media_key l) = false ->
  filter (has_key k) l = [] /\ find (has_key k) l = None.
Proof.
  induction l as [|m l IH]; simpl; [auto|].
  intros H. apply orb_false_iff in H as [H1 H2].
  change (key_eqb k (media_key m)) with (has_key k m) in H1.
  rewrite H1. exact (IH H2).
Qed.

Lemma find_snoc (k : key) (l : list media) (m : media) :
  find (has_key k) (l ++ [m])
  = match find (has_key k) l with
    | Some x => Some x
    | None => if has_key k m then Some m else None
    end.
Proof.
  induction l as [|a l IH]; simpl; [reflexivity|].
  destruct (has_key k a); [reflexivity | exact IH].
Qed.

Lemma holds_step (l : list media) (stream_map : list (key * stream_info))
      (m : media) :
  holds l stream_map -> holds (l ++ [m]) (add_media stream_map m).
Proof.
  intros [Hkeys Hall]. unfold add_media. cbv zeta.
  rewrite contains_keys, Hkeys.
  assert (Hex : existsb (key_eqb (media_key m)) (first_seen (map media_key l))
                = existsb (key_eqb (media_key m)) (map media_key l)).
  { destruct (existsb (key_eqb (media_key m)) (map media_key l)) eqn:E.
    - apply existsb_key, first_seen_In, existsb_key, E.
    - destruct (existsb _ (first_seen _)) eqn:E'; [|reflexivity].
      apply (proj1 (existsb_key _ _)) in E'.
      apply (proj1 (first_seen_In _ _)) in E'.
      apply (proj2 (existsb_key _ _)) in E'. congruence. }
  rewrite Hex. split.
  - rewrite append_schema_keys, map_app.
    change (map media_key [m]) with [media_key m].
    rewrite first_seen_snoc.
    destruct (existsb (key_eqb (media_key m)) (map media_key l));
      [exact Hkeys|].
    rewrite map_app, Hkeys. reflexivity.
  - intros k e Hin. unfold append_schema in Hin.
    apply in_map_iff in Hin as ([k0 e0] & E & Hin0). cbn [fst snd] in E.
    rewrite filter_app, map_app, find_snoc. simpl filter. simpl find.
    assert (Hold : In (k0, e0) stream_map
                   \/ (existsb (key_eqb (media_key m)) (map media_key l)
                       = false
                       /\ (k0, e0)
                          = (media_key m,
                             mk_stream_info (vhost m) (app m) (stream m)
                                            (origin m) []))).
    { destruct (existsb (key_eqb (media_key m)) (map media_key l));
        [left; exact Hin0|].
      apply in_app_iff in Hin0 as [H|[H|[]]]; [left; exact H|].
      right. split; [reflexivity | symmetry; exact H]. }
    destruct (key_eqb_spec (media_key m) k0) as [Ek|Hne].
    + inversion E; subst k e; clear E. cbn [info_key schemas info_origin].
      unfold has_key at 2 4. rewrite <- Ek, key_eqb_refl. simpl map.
      destruct Hold as [Hold|[Habs Hnew]].
      * destruct (Hall _ _ Hold) as (H1 & H2 & m0 & H3 & H4).
        rewrite Ek. split; [exact H1|]. split; [rewrite H2; reflexivity|].
        exists m0. rewrite H3. auto.
      * inversion Hnew; subst e0; clear Hnew.
        destruct (absent _ _ Habs) as [Hf Hn]. rewrite Hf, Hn.
        split; [reflexivity|]. split; [reflexivity|].
        exists m. auto.
    + inversion E; subst k e; clear E.
      unfold has_key at 2 4.
      destruct (key_eqb_spec k0 (media_key m)) as [E'|_]; [congruence|].
      simpl map. rewrite app_nil_r.
      destruct Hold as [Hold|[_ Hnew]]; [|congruence].
      destruct (Hall _ _ Hold) as (H1 & H2 & m0 & H3 & H4).
      split; [exact H1|]. split; [exact H2|].
      exists m0. rewrite H3. auto.
Qed.

Lemma holds_loop (l : list media) : holds l (fold_left add_media l []).
Proof.
  induction l as [|m l IH] using rev_ind.
  - split; [reflexivity | intros k e []].
  - rewrite fold_left_app. simpl. apply holds_step, IH.
Qed.

End Facts.

Lemma get_streamid_list_Some
      (Origin Schema : Type) (code : Z)
      (data : option (list (media Origin Schema)))
      (result : list (stream_info Origin Schema)) :
  get_streamid_list code data = Some result ->
  code = 0 /\ result = group (media_of data).
Proof.
  unfold get_streamid_list. destruct (Z.eqb_spec code 0); simpl;
    [|discriminate].
  intros H; inversion H. auto.
Qed.

(** X15.  When the media server answers with code 0,
    [get_streamid_list] lists every stream of the media list once, in
    the order in which the streams first appear in it; any other answer
    is passed on. *)
Theorem streams_listed_once_in_order
        (Origin Schema : Type) (code : Z)
        (data : option (list (media Origin Schema)))
        (result : list (stream_info Origin Schema)) :
  get_streamid_list code data = Some result ->
  code = 0
  /\ map info_key result = first_seen (map media_key (media_of data))
  /\ NoDup (map info_key result)
  /\ (forall m, In m (media_of data) ->
                In (media_key m) (map info_key result)).
Proof.
  intros H. apply get_streamid_list_Some in H as [Hcode ->].
  split; [exact Hcode|].
  destruct (holds_loop Origin Schema (media_of data)) as [Hkeys Hall].
  assert (E : map info_key (group (media_of data))
              = first_seen (map media_key (media_of data))).
  { rewrite <- Hkeys. unfold group. rewrite map_map.
    apply map_ext_in. intros [k e] Hin. apply (Hall k e Hin). }
  rewrite E. split; [reflexivity|]. split; [apply first_seen_NoDup|].
  intros m Hm. apply first_seen_In, in_map, Hm.
Qed.

(** A camera published over two protocols, and another camera between
    them. *)
Definition three_media : list (media string string) :=
  [mk_media "__defaultVhost__" "live" "cam1" "pull" "rtsp";
   mk_media "__defaultVhost__" "live" "cam2" "push" "rtmp";
   mk_media "__defaultVhost__" "live" "cam1" "other" "rtmp"].

Definition cam1_and_cam2 : list (stream_info string string) :=
  [mk_stream_info "__defaultVhost__" "live" "cam1" "pull" ["rtsp"; "rtmp"];
   mk_stream_info "__defaultVhost__" "live" "cam2" "push" ["rtmp"]].

Lemma streams_listed_once_in_order_witness :
  map info_key cam1_and_cam2
  = [("__defaultVhost__", "live", "cam1");
     ("__defaultVhost__", "live", "cam2")].
Proof.
  exact (proj1 (proj2 (streams_listed_once_in_order
                         string string 0 (Some three_media) cam1_and_cam2
                         eq_refl))).
Defined.

(** X16.  Each element of the answer of [get_streamid_list] carries the
    schemas of all the media objects of its stream, in the order of the
    media list, and the origin entries of the first of them. *)
Theorem stream_carries_its_schemas
        (Origin Schema : Type) (code : Z)
        (data : option (list (media Origin Schema)))
        (result : list (stream_info Origin Schema))
        (e : stream_info Origin Schema) :
  get_streamid_list code data = Some result ->
  In e result ->
  schemas e = map schema (filter (has_key (info_key e)) (media_of data))
  /\ exists m, find (has_key (info_key e)) (media_of data) = Some m
               /\ info_origin e = origin m.
Proof.
  intros H. apply get_streamid_list_Some in H as [_ ->].
  destruct (holds_loop Origin Schema (media_of data)) as [_ Hall].
  unfold group. intros Hin. apply in_map_iff in Hin as ([k e0] & <- & Hin).
  destruct (Hall k e0 Hin) as (H1 & H2 & H3). cbn [snd].
  rewrite H1. split; assumption.
Qed.

Lemma stream_carries_its_schemas_witness :
  schemas (mk_stream_info "__defaultVhost__" "live" "cam1" "pull"
                          ["rtsp"; "rtmp"])
  = ["rtsp"; "rtmp"]
  /\ exists m,
      find (has_key ("__defaultVhost__", "live", "cam1")) three_media = Some m
      /\ "pull" = origin m.
Proof.
  apply (stream_carries_its_schemas string string 0 (Some three_media)
           cam1_and_cam2
           (mk_stream_info "__defaultVhost__" "live" "cam1" "pull"
                           ["rtsp"; "rtmp"])).
  - reflexivity.
  - left. reflexivity.
Defined.

End Streams.

(* ================================================================== *)
(** * The files after a run *)
(* ================================================================== *)

Module SweepFrame.
Import PyFacts FSFacts SweepFacts.

Section Run.
Variable may_unlink : path -> bool.
Variable keep_videos : Z.

Lemma apps_after (apps : list (string * node)) (a : string) :
  wf (Dir apps) = true ->
  assoc a (fst (for_apps may_unlink keep_videos apps))
  = match assoc a apps with
    | Some n => app_after may_unlink keep_videos a n
    | None => None
    end.
Proof.
  intros Hwf. apply wf_Dir in Hwf as [Hnd _].
  rewrite for_apps_eq. apply sweep_entries_assoc, Hnd.
Qed.

Lemma streams_after (a : string) (streams : list (string * node))
      (s : string) :
  wf (Dir streams) = true ->
  assoc s (fst (for_streams may_unlink keep_videos a streams))
  = match assoc s streams with
    | Some n => stream_after may_unlink keep_videos a s n
    | None => None
    end.
Proof.
  intros Hwf. apply wf_Dir in Hwf as [Hnd _].
  rewrite for_streams_eq. apply sweep_entries_assoc, Hnd.
Qed.

Lemma lookup_cons (x : string) (q : path) (es : list (string * node)) :
  lookup (x :: q) (Dir es)
  = match assoc x es with
    | Some c => lookup q c
    | None => None
    end.
Proof. reflexivity. Qed.

Lemma lookup_below_file (q : path) (sz sz' : Z) :
  q <> [] -> lookup q (File sz) <> Some (File sz').
Proof. destruct q; [congruence | discriminate]. Qed.

Lemma no_deletion_above_streams (apps : list (string * node)) (p : path) :
  (length p <= 2)%nat ->
  ~ In (Deleted p) (log (snd (for_apps may_unlink keep_videos apps))).
Proof.
  intros Hl H.
  apply deleted_provenance in H as (a & streams & s & n & f & _ & _ & _
                                    & -> & Hf & _).
  destruct f; [congruence | simpl in Hl; lia].
Qed.

(** The iteration of a stream directory leaves a directory, if it
    leaves anything. *)
Lemma process_stream_dir (base : path) (stream n' : node) :
  is_dir stream = true ->
  fst (process_stream may_unlink keep_videos base stream) = Some n' ->
  is_dir n' = true.
Proof.
  intros Hd. rewrite process_stream_eq. cbv zeta.
  destruct (Z.of_nat (length (rglob stream)) <=? keep_videos).
  { simpl. intros H; inversion H; subst. exact Hd. }
  destruct (SweepSafety.delete_files_count may_unlink base
              (slice_from keep_videos (newest_first (rglob stream))) stream)
    as (_ & _ & H3). cbv zeta in H3.
  destruct (deleted_any (snd (delete_files _ _ _ _))) eqn:Ha; cbn [andb].
  - destruct (negb _); [destruct (may_unlink base)|]; cbn [fst];
      [discriminate| |];
      intros H; inversion H; subst; apply H3; reflexivity.
  - cbn [fst]. intros H; inversion H; subst.
    rewrite (delete_files_none _ _ _ _ Ha). exact Hd.
Qed.

(** The files of a stream directory after the run. *)
Lemma stream_files (apps : list (string * node)) (a s : string)
      (n : node) (r : path) (sz : Z) :
  wf (Dir apps) = true ->
  lookup [a; s] (Dir apps) = Some n ->
  (match stream_after may_unlink keep_videos a s n with
   | Some n' => lookup r n'
   | None => None
   end = Some (File sz)
   <-> lookup r n = Some (File sz)
       /\ ~ In (Deleted (a :: s :: r))
               (log (snd (for_apps may_unlink keep_videos apps)))).
Proof.
  intros Hwf Hl. unfold stream_after.
  destruct (is_dir n) eqn:Hd.
  - destruct r as [|x q].
    + split.
      * destruct (fst (process_stream _ _ _ _)) as [n'|] eqn:E;
          [|discriminate].
        simpl. intros H; inversion H; subst n'.
        apply process_stream_dir in E; [discriminate E | exact Hd].
      * simpl. intros [H _]. inversion H; subst n. discriminate Hd.
    + assert (Hq : x :: q <> []) by discriminate.
      pose proof (SweepSafety.process_stream_files may_unlink keep_videos
                    [a; s] n (x :: q) sz (wf_lookup _ _ _ Hwf Hl) Hq) as Hiff.
      unfold SweepSafety.found_after in Hiff. rewrite Hiff.
      change ([a; s] ++ x :: q) with (a :: s :: x :: q).
      split; intros [H1 H2]; (split; [exact H1|]); intros H; apply H2.
      * exact (proj2 (SweepSafety.attempt_in_stream may_unlink keep_videos
                        apps a s n (x :: q) _ Hwf Hl H eq_refl)).
      * apply (sweep_log_stream may_unlink keep_videos apps a s n _ Hl).
        unfold stream_effect. rewrite Hd. exact H.
  - destruct n as [sz0|?]; [|discriminate Hd].
    destruct r as [|x q].
    + simpl. split; [|tauto]. intros H. split; [exact H|].
      apply no_deletion_above_streams. simpl. lia.
    + simpl. split; [discriminate | intros [H _]; discriminate H].
Qed.

End Run.

(** X17.  After a run of [cleanup_old_videos] the regular files of the
    store are those it had before, each with its size, but for the ones
    the run printed as deleted: the run creates no file, changes none
    and loses none silently, not even when it removes a directory. *)
Theorem files_after_a_run
        (may_unlink : path -> bool) (root : node) (keep_videos : Z) :
  wf root = true ->
  exists root',
    fst (cleanup_old_videos may_unlink (Some root) keep_videos) = Some root'
    /\ forall p sz,
        lookup p root' = Some (File sz)
        <-> lookup p root = Some (File sz)
            /\ ~ In (Deleted p)
                    (log (snd (cleanup_old_videos may_unlink (Some root)
                                 keep_videos))).
Proof.
  intros Hwf. destruct root as [sz0|apps].
  { simpl. eexists. split; [reflexivity|]. intros p sz.
    split; [|tauto]. intros H. split; [exact H|].
    intros [E|[]]. discriminate E. }
  rewrite cleanup_Dir. cbn [fst snd]. eexists. split; [reflexivity|].
  intros p sz. destruct p as [|a q].
  { simpl. split; [discriminate | intros [H _]; discriminate H]. }
  rewrite !lookup_cons, (apps_after _ _ _ _ Hwf).
  destruct (assoc a apps) as [[sz1|streams]|] eqn:Ha.
  - cbn [app_after]. destruct q as [|s r].
    + simpl. split; [|tauto]. intros H. split; [exact H|].
      apply no_deletion_above_streams. simpl. lia.
    + simpl. split; [discriminate | intros [H _]; discriminate H].
  - pose proof (wf_assoc _ _ _ Hwf Ha) as Hwfs.
    destruct q as [|s r].
    + split.
      * unfold app_after. cbv zeta.
        destruct (app_deleted_any _ && negb _ && may_unlink [a]); simpl;
          discriminate.
      * simpl. intros [H _]. discriminate H.
    + assert (Hl : forall n, assoc s streams = Some n ->
                             lookup [a; s] (Dir apps) = Some n).
      { intros n Hs. simpl. rewrite Ha, Hs. reflexivity. }
      rewrite lookup_cons.
      destruct (assoc s streams) as [n|] eqn:Hs.
      * rewrite <- (stream_files may_unlink keep_videos apps a s n r sz
                      Hwf (Hl n eq_refl)).
        pose proof (streams_after may_unlink keep_videos a streams s Hwfs) as Hss.
        rewrite Hs in Hss.
        unfold app_after. cbv zeta.
        destruct (app_deleted_any _ && negb _ && may_unlink [a]) eqn:Hc.
        -- apply andb_prop in Hc as [Hc _]. apply andb_prop in Hc as [_ Hc].
           destruct (fst (for_streams may_unlink keep_videos a streams));
             [|discriminate Hc].
           simpl in Hss. rewrite <- Hss. tauto.
        -- rewrite lookup_cons, Hss.
           destruct (stream_after _ _ _ _ _); tauto.
      * pose proof (streams_after may_unlink keep_videos a streams s Hwfs) as Hss.
        rewrite Hs in Hss.
        split; [|intros [H _]; discriminate H].
        unfold app_after. cbv zeta.
        destruct (app_deleted_any _ && negb _ && may_unlink [a]);
          [discriminate|].
        rewrite lookup_cons, Hss. discriminate.
  - split; [discriminate | intros [H _]; discriminate H].
Qed.

Lemma files_after_a_run_witness :
  exists root',
    fst (cleanup_old_videos (fun _ => true) (Some SweepSafety.with_note) 0)
    = Some root'
    /\ forall p sz,
        lookup p root' = Some (File sz)
        <-> lookup p SweepSafety.with_note = Some (File sz)
            /\ ~ In (Deleted p)
                    (log (snd (cleanup_old_videos (fun _ => true)
                                 (Some SweepSafety.with_note) 0))).
Proof.
  apply (files_after_a_run (fun _ => true) SweepSafety.with_note 0).
  reflexivity.
Defined.

End SweepFrame.


(* ================================================================== *)
(** * main.py: the requests, on the file system as a whole *)
(* ================================================================== *)

(** The handlers build a path from their query strings, and these are
    arbitrary: a string may be empty, hold several components, climb
    with [..] or be absolute, so the path may lead anywhere in the file
    system.  Here the handlers run on the whole file system, as
    programs that read or change it, with the paths joined as [pathlib]
    joins them and resolved as the operating system resolves them.
    Symbolic links and access rights are not modelled; the names in a
    directory are those a directory can hold. *)

Module Requests.
Import PyFacts FSFacts.

(** ** Paths as [pathlib] keeps them *)

(** An absolute [PurePosixPath]: its root, [/] or [//], and its parts
    after the root. *)
Record pure_path : Type := mk_pure_path {
  double_slash : bool;
  parts : list string
}.

(** [RECORD_ROOT = Path("/opt/zlm/record/")] *)
Definition RECORD_ROOT : pure_path :=
  mk_pure_path false ["opt"; "zlm"; "record"].

(** [s.split("/")] *)
Fixpoint split_slash (s : string) : list string :=
  match s with
  | EmptyString => [EmptyString]
  | String c r =>
      if Ascii.eqb c "/" then EmptyString :: split_slash r
      else match split_slash r with
           | p :: ps => String c p :: ps
           | [] => [String c EmptyString]
           end
  end.

(** The parts that a segment adds: empty parts and [.] are dropped,
    [..] is kept. *)
Definition segment_parts (segment : string) : list string :=
  filter (fun x => negb (String.eqb x "") && negb (String.eqb x "."))
         (split_slash segment).

Fixpoint leading_slashes (s : string) : nat :=
  match s with
  | EmptyString => O
  | String c r => if Ascii.eqb c "/" then S (leading_slashes r) else O
  end.

(** [path / segment]: a segment that starts with a slash replaces the
    path, and exactly two leading slashes make the root [//]. *)
Definition joinpath (p : pure_path) (segment : string) : pure_path :=
  if (0 <? leading_slashes segment)%nat
  then mk_pure_path (leading_slashes segment =? 2)%nat
                    (segment_parts segment)
  else mk_pure_path (double_slash p) (parts p ++ segment_parts segment).

(** An entry that [iterdir] yields: the name is a part as it is. *)
Definition child (p : pure_path) (entry_name : string) : pure_path :=
  mk_pure_path (double_slash p) (parts p ++ [entry_name]).

(** [str(path)] *)
Definition as_posix (p : pure_path) : string :=
  ((if double_slash p then "//" else "/")
   ++ String.concat "/" (parts p))%string.

Fixpoint strip_prefix (other self : list string) : option (list string) :=
  match other, self with
  | [], _ => Some self
  | x :: other', y :: self' =>
      if String.eqb x y then strip_prefix other' self' else None
  | _ :: _, [] => None
  end.

(** [self.relative_to(other)]: by the root and the parts alone, [..] is
    not followed. *)
Definition relative_to (self other : pure_path) : result (list string) :=
  if Bool.eqb (double_slash self) (double_slash other) then
    match strip_prefix (parts other) (parts self) with
    | Some rel => Ok rel
    | None => Raise ValueError
    end
  else Raise ValueError.

(** ["/" in s] *)
Fixpoint has_slash (s : string) : bool :=
  match s with
  | EmptyString => false
  | String c r => Ascii.eqb c "/" || has_slash r
  end.

(** ["\0" in s] *)
Fixpoint has_nul (s : string) : bool :=
  match s with
  | EmptyString => false
  | String c r => Ascii.eqb c zero || has_nul r
  end.

(** A query string that is one name, as a directory can hold it: not
    empty, not [.] or [..], without a slash or a NUL byte, of at most
    255 bytes. *)
Definition plain (s : string) : bool :=
  negb (String.eqb s "") && negb (String.eqb s ".")
  && negb (String.eqb s "..")
  && negb (has_slash s) && negb (has_nul s)
  && (String.length s <=? 255)%nat.

(** ** What the operating system finds at a path *)

Inductive found : Type :=
| Found (location : path) (n : node)   (* where it really is, and what *)
| Absent                               (* ENOENT, ENOTDIR *)
| NameTooLong                          (* ENAMETOOLONG *)
| EmbeddedNull.                        (* refused by Python: [ValueError] *)

(** The way along the parts, from the directory at [here] (its
    location, innermost name first).  [..] leads to the parent, and at
    the root to the root; a part is looked up in a directory only; a
    part of more than 255 bytes cannot be looked up. *)
Fixpoint resolve (fs : node) (here : list string) (p : list string)
  : found :=
  match p with
  | [] =>
      match lookup (rev here) fs with
      | Some n => Found (rev here) n
      | None => Absent
      end
  | c :: p' =>
      match lookup (rev here) fs with
      | Some (Dir es) =>
          if String.eqb c ".." then resolve fs (tl here) p'
          else if (255 <? String.length c)%nat then NameTooLong
          else match assoc c es with
               | Some _ => resolve fs (c :: here) p'
               | None => Absent
               end
      | _ => Absent
      end
  end.

(** [os.stat(path)]: a path of 4096 bytes or more is refused before
    it is looked at. *)
Definition stat (fs : node) (p : pure_path) : found :=
  if existsb has_nul (parts p) then EmbeddedNull
  else if (4096 <=? String.length (as_posix p))%nat then NameTooLong
  else resolve fs [] (parts p).

(** ** Handlers as programs over the file system *)

(** A computation that reads or changes the file system and returns or
    raises. *)
Definition M (A : Type) : Type := node -> result A * node.

Definition ret {A} (a : A) : M A := fun fs => (Ok a, fs).

Definition raise {A} (e : exn) : M A := fun fs => (Raise e, fs).

Definition mbind {A B} (m : M A) (k : A -> M B) : M B :=
  fun fs =>
    match m fs with
    | (Ok a, fs') => k a fs'
    | (Raise e, fs') => (Raise e, fs')
    end.

(** [try: m except ...: handler(e)] *)
Definition catch {A} (m : M A) (handler : exn -> M A) : M A :=
  fun fs =>
    match m fs with
    | (Ok a, fs') => (Ok a, fs')
    | (Raise e, fs') => handler e fs'
    end.

Notation "x <- m ;; k" := (mbind m (fun x => k))
  (at level 61, m at next level, right associativity).

(** [for x in xs: acc = body(x, acc)] *)
Fixpoint for_each {A S} (xs : list A) (body : A -> S -> M S) (acc : S)
  : M S :=
  match xs with
  | [] => ret acc
  | x :: rest => acc' <- body x acc ;; for_each rest body acc'
  end.

(** The file system after a computation. *)
Definition after {A} (m : M A) (fs : node) : node := snd (m fs).

(** The subclasses of [OSError] among the exceptions. *)
Definition is_OSError (e : exn) : bool :=
  match e with
  | FileNotFoundError | IsADirectoryError | NotADirectoryError
  | PermissionError | OSError => true
  | ValueError | OverflowError | RequestError => false
  end.

(** [Path.exists()] and [Path.is_dir()], as they are up to Python 3.12:
    absence is [False], any other [OSError] is raised. *)
Definition path_exists (p : pure_path) : M bool :=
  fun fs =>
    (match stat fs p with
     | Found _ _ => Ok true
     | Absent | EmbeddedNull => Ok false
     | NameTooLong => Raise OSError
     end, fs).

Definition path_is_dir (p : pure_path) : M bool :=
  fun fs =>
    (match stat fs p with
     | Found _ n => Ok (is_dir n)
     | Absent | EmbeddedNull => Ok false
     | NameTooLong => Raise OSError
     end, fs).

(** [os.listdir(path)] *)
Definition listdir (p : pure_path) : M (list string) :=
  fun fs =>
    (match stat fs p with
     | Found _ (Dir es) => Ok (map fst es)
     | Found _ (File _) => Raise NotADirectoryError
     | Absent => Raise FileNotFoundError
     | NameTooLong => Raise OSError
     | EmbeddedNull => Raise ValueError
     end, fs).

(** [Path.iterdir()] *)
Definition iterdir_paths (p : pure_path) : M (list pure_path) :=
  names <- listdir p ;; ret (map (child p) names).

(** [Path.stat().st_size].  For a directory, which [os.walk] never
    lists among the files, it is the size of a block. *)
Definition st_size (p : pure_path) : M Z :=
  fun fs =>
    (match stat fs p with
     | Found _ (File sz) => Ok sz
     | Found _ (Dir _) => Ok 4096
     | Absent => Raise FileNotFoundError
     | NameTooLong => Raise OSError
     | EmbeddedNull => Raise ValueError
     end, fs).

(** [os.walk(top)], top down: each directory from [top] on with its
    path and the names of its entries that are not directories.  A
    directory whose path is too long to be scanned is passed over with
    all that is beneath it, as every error is. *)
Fixpoint walk_from (top : pure_path) (n : node)
  : list (pure_path * list string) :=
  match n with
  | File _ => []
  | Dir es =>
      if (4096 <=? String.length (as_posix top))%nat then []
      else (top, Dates.file_names es)
           :: flat_map (fun e => walk_from (joinpath top (fst e)) (snd e)) es
  end.

Definition os_walk (top : pure_path) : M (list (pure_path * list string)) :=
  fun fs =>
    (match stat fs top with
     | Found _ n => Ok (walk_from top n)
     | _ => Ok []
     end, fs).

(** The directory at a location is replaced. *)
Fixpoint graft (location : path) (n' : node) (fs : node) : node :=
  match location with
  | [] => n'
  | x :: rest =>
      match fs with
      | File sz => File sz
      | Dir es =>
          match assoc x es with
          | Some c => Dir (replace_entry x (graft rest n' c) es)
          | None => Dir es
          end
      end
  end.

(** What [stat] tells about an entry: a regular file with its size, or
    a directory. *)
Inductive kind : Type :=
| RegularFile (size : Z)
| Directory.

Definition kind_of (n : node) : kind :=
  match n with
  | File sz => RegularFile sz
  | Dir _ => Directory
  end.

(** The texts of the ["msg"] entry. *)
Inductive message : Type :=
| RootUnusable                          (* "... 目录不存在或不是目录" *)
| WalkFailed                            (* "目录遍历异常" *)
| DirectoryMissing (p : pure_path)      (* "目录不存在: ..." *)
| NotADirectory (p : pure_path)         (* "路径不是目录: ..." *)
| StreamDeleted (p : pure_path)         (* "已删除整个流录像: ..." *)
| StreamDeleteFailed (e : exn)          (* "删除流目录失败: ..." *)
| RecordingsExist                       (* "该流ID录像存在，为防止覆盖，请先删除" *)
| BadSourceUrl.                         (* "源流地址必须以 ... 开头" *)

(** The JSON object a handler returns; an absent key is [None]. *)
Record response (A : Type) : Type := mk_response {
  code : Z;
  msg : option message;
  data : option A
}.
Arguments mk_response {A} code msg data.
Arguments code {A} r.
Arguments msg {A} r.
Arguments data {A} r.

(** [str(n)] of an [int]. *)
Definition str_int (n : Z) : string := NilEmpty.string_of_int (Z.to_int n).

(** The body of [post_active_pull]. *)
Record ActivePullRequest : Type := mk_ActivePullRequest {
  pull_vhost : string;
  pull_app : string;
  pull_stream : string;
  pull_url : string;
  rtp_type : Z;
  audio_type : Z;
  enable_rtsp : bool;
  enable_rtmp : bool;
  enable_hls : bool;
  enable_hls_fmp4 : bool;
  enable_ts : bool;
  enable_fmp4 : bool
}.

(** [str(int(b))] *)
Definition str_flag (b : bool) : string := if b then "1" else "0".

Section Handlers.
Context {num : PyNumber}.
Variable timestamp : Type.
Variable timestamp_leb : timestamp -> timestamp -> bool.

(** [utils.get_video_shanghai_time(file_path)], which is not part of
    these sources: what it tells about the file at a path, or [None].
    It is taken to read the file only. *)
Variable get_video_shanghai_time : pure_path -> option (video_info timestamp).

Definition probe (p : pure_path) : M (option (video_info timestamp)) :=
  ret (get_video_shanghai_time p).

(** *** [get_video] *)

(** Lines 497-514: one entry of the directory. *)
Definition add_record (file_path : pure_path)
           (results : list (segment timestamp))
  : M (list (segment timestamp)) :=
  if String.eqb (lower (suffix (name (parts file_path)))) ".mp4" then
    info <- probe file_path ;;
    match info with
    | Some info =>
        match relative_to file_path RECORD_ROOT with
        | Ok rel_path => ret (results ++ [mk_segment info rel_path])
        | Raise ValueError => ret results
        | Raise e => raise e
        end
    | None => ret results
    end
  else ret results.

(** [get_video(app, stream, date)] *)
Definition get_video (app stream date : string)
  : M (response (list (segment timestamp))) :=
  let target_dir := joinpath (joinpath (joinpath RECORD_ROOT app) stream)
                             date in
  there <- path_exists target_dir ;;
  if negb there then
    ret (mk_response 1 (Some (DirectoryMissing target_dir)) None)
  else
    is_directory <- path_is_dir target_dir ;;
    if negb is_directory then
      ret (mk_response 1 (Some (NotADirectory target_dir)) None)
    else
      entries <- iterdir_paths target_dir ;;
      results <- for_each entries add_record [] ;;
      ret (mk_response 0 None
             (Some (sort_by_start timestamp timestamp_leb results))).

(** *** [delete_recordings] *)

(** Where [shutil.rmtree] of the directory at a location stops, if the
    operating system stops it: the error, and the file system with what
    had been removed by then.  [None]: it gets through. *)
Variable rmtree_stops : path -> node -> option (exn * node).

(** [shutil.rmtree(path)]: all that is beneath the directory is
    removed through the open directory, then [os.rmdir(path)] removes
    the directory that the path denotes by then.  A path that leads
    through the directory and back with [..] denotes nothing by then,
    and the root directory cannot be removed; the emptied directory
    stays in both cases. *)
Definition rmtree_path (p : pure_path) : M unit :=
  fun fs =>
    match stat fs p with
    | Found location (Dir _) =>
        match rmtree_stops location fs with
        | Some (e, remains) => (Raise e, remains)
        | None =>
            let emptied := graft location (Dir []) fs in
            match stat emptied p with
            | Found [] _ => (Raise OSError, emptied)
            | Found (x :: rest) _ =>
                match rmtree (x :: rest) emptied with
                | Ok fs' => (Ok tt, fs')
                | Raise e => (Raise e, emptied)
                end
            | Absent => (Raise FileNotFoundError, emptied)
            | NameTooLong => (Raise OSError, emptied)
            | EmbeddedNull => (Raise ValueError, emptied)
            end
        end
    | Found _ (File _) => (Raise NotADirectoryError, fs)
    | Absent => (Raise FileNotFoundError, fs)
    | NameTooLong => (Raise OSError, fs)
    | EmbeddedNull => (Raise ValueError, fs)
    end.

(** [delete_recordings(app, stream)] *)
Definition delete_recordings (app stream : string) : M (response unit) :=
  let base_dir := joinpath (joinpath RECORD_ROOT app) stream in
  there <- path_exists base_dir ;;
  if negb there then
    ret (mk_response (-1) (Some (DirectoryMissing base_dir)) None)
  else
    is_directory <- path_is_dir base_dir ;;
    if negb is_directory then
      ret (mk_response (-1) (Some (NotADirectory base_dir)) None)
    else
      catch (_ <- rmtree_path base_dir ;;
             ret (mk_response 0 (Some (StreamDeleted base_dir)) None))
            (fun e => ret (mk_response (-1) (Some (StreamDeleteFailed e))
                                       None)).

(** *** [get_video_list] *)

(** An entry of the index: the summary of a stream and its ["dates"]. *)
Record index_entry : Type := mk_index_entry {
  summary : stream_summary;
  dates : list string
}.

(** Lines 425-447: one file of a directory of the walk.  The state is
    the three counters and [has_mp4_in_dir]. *)
Definition visit_file (root_dir : pure_path) (file : string)
           (st : tally * bool) : M (tally * bool) :=
  if negb (endswith (lower file) ".mp4") then ret st
  else
    let file_path := joinpath root_dir file in
    there <- path_exists file_path ;;
    if negb there then ret st
    else
      sized <- catch (size <- st_size file_path ;; ret (Some size))
                     (fun e => if is_OSError e then ret None else raise e) ;;
      match sized with
      | None => ret st
      | Some size =>
          let t := mk_tally (total_slices (fst st) + 1)
                            (total_size_bytes (fst st) + size)
                            (first_video_duration (fst st)) in
          if is_zero (first_video_duration t) then
            info <- probe file_path ;;
            match info with
            | Some info =>
                ret (mk_tally (total_slices t) (total_size_bytes t)
                              (snap (duration info)), true)
            | None => ret (t, true)
            end
          else ret (t, true)
      end.

(** Lines 399-451: one directory of the walk.  The state is the three
    counters and the elements of [dates] as they were added. *)
Definition visit_dir (walked : pure_path * list string)
           (st : tally * list string) : M (tally * list string) :=
  let root_dir := fst walked in
  let formatted_date := Dates.formatted_date (name (parts root_dir)) in
  r <- for_each (snd walked) (visit_file root_dir) (fst st, false) ;;
  ret (fst r,
       if snd r then
         match formatted_date with
         | Some d => snd st ++ [d]
         | None => snd st
         end
       else snd st).

(** Lines 389-472: one entry of an application directory. *)
Definition visit_stream (app_name : string) (app_path : pure_path)
           (stream_name : string) (result : list index_entry)
  : M (list index_entry) :=
  let stream_path := joinpath app_path stream_name in
  is_directory <- path_is_dir stream_path ;;
  if negb is_directory then ret result
  else
    walked <- os_walk stream_path ;;
    r <- for_each walked visit_dir (mk_tally 0 0 (of_int 0), []) ;;
    let t := fst r in
    if total_slices t =? 0 then ret result
    else
      let record_days :=
        if is_zero (first_video_duration t) then "-"
        else Main.str (truediv (mul (of_int KEEP_VIDEOS)
                                    (first_video_duration t))
                               (of_int 86400)) in
      ret (result
           ++ [mk_index_entry
                 (mk_stream_summary app_name stream_name (total_slices t)
                    (round_ndigits (truediv (of_int (total_size_bytes t))
                                            (of_int (1024 ^ 3))) 2)
                    record_days)
                 (Dates.sorted_set (snd r))]).

(** Lines 385-472: one entry of the root directory. *)
Definition visit_app (app_name : string) (result : list index_entry)
  : M (list index_entry) :=
  let app_path := joinpath RECORD_ROOT app_name in
  is_directory <- path_is_dir app_path ;;
  if negb is_directory then ret result
  else
    streams <- listdir app_path ;;
    for_each streams (visit_stream app_name app_path) result.

(** [get_video_list()] *)
Definition get_video_list : M (response (list index_entry)) :=
  there <- path_exists RECORD_ROOT ;;
  usable <- (if there then path_is_dir RECORD_ROOT else ret false) ;;
  if negb usable then ret (mk_response (-1) (Some RootUnusable) None)
  else
    catch (apps <- listdir RECORD_ROOT ;;
           result <- for_each apps visit_app [] ;;
           ret (mk_response 0 None (Some result)))
          (fun _ => ret (mk_response (-1) (Some WalkFailed) None)).

(** *** The handlers that ask the media server *)

(** A JSON value, as the media server answers and the handlers pass
    on. *)
Variable Json : Type.

(** The media server: its answer to a request, read as JSON
    ([response.json()]); the request may fail ([RequestError]) and the
    answer may fail to be JSON ([ValueError]). *)
Variable zlm : string -> list (string * string) -> result Json.

(** [await client.get(url, params=query)] and [response.json()].  The
    program itself does nothing to the file system here. *)
Definition client_get (url : string) (query : list (string * string))
  : M Json :=
  fun fs => (zlm url query, fs).

(** [ZLM_SERVER = "http://127.0.0.1:8080"] *)
Definition ZLM_SERVER : string := "http://127.0.0.1:8080".

(** [ZLM_SECRET], read from the configuration of the media server when
    the program starts. *)
Variable ZLM_SECRET : string.

Definition get_statistic : M Json :=
  client_get (ZLM_SERVER ++ "/index/api/getStatistic")
             [("secret", ZLM_SECRET)].

Definition get_work_threads_load : M Json :=
  client_get (ZLM_SERVER ++ "/index/api/getWorkThreadsLoad")
             [("secret", ZLM_SECRET)].

Definition get_threads_load : M Json :=
  client_get (ZLM_SERVER ++ "/index/api/getThreadsLoad")
             [("secret", ZLM_SECRET)].

(** [get_system_stats()]: the clock and the counters that [psutil]
    reads, rounded. *)
Variable host_stats : Json.

Definition get_system_stats : M (response Json) :=
  ret (mk_response 0 None (Some host_stats)).

(** [if value: query[key] = value] *)
Definition optional (key : string) (value : option string)
  : list (string * string) :=
  match value with
  | Some v => if String.eqb v "" then [] else [(key, v)]
  | None => []
  end.

(** The media list in an answer of the media server: its ["code"] and
    its ["data"], if it has one. *)
Variables (Origin Schema : Type).
Variable media_list_of :
  Json -> Z * option (list (Streams.media Origin Schema)).

(** [get_streamid_list(schema, vhost, app, stream)]: the answer of the
    media server as it is, or its media grouped by stream (lines
    190-227, [Streams.get_streamid_list]). *)
Definition get_streamid_list (schema vhost app stream : option string)
  : M (Json + response (list (Streams.stream_info Origin Schema))) :=
  raw_data <- client_get (ZLM_SERVER ++ "/index/api/getMediaList")
                ([("secret", ZLM_SECRET)]
                 ++ optional "schema" schema ++ optional "vhost" vhost
                 ++ optional "app" app ++ optional "stream" stream) ;;
  match Streams.get_streamid_list (fst (media_list_of raw_data))
                                   (snd (media_list_of raw_data)) with
  | None => ret (inl raw_data)
  | Some result => ret (inr (mk_response 0 None (Some result)))
  end.

(** [post_active_pull(body)] *)
Definition post_active_pull (body : ActivePullRequest)
  : M (response unit + Json) :=
  if negb (existsb (fun p => String.prefix p (pull_url body))
                   ["rtsp://"; "rtmp://"; "http://"; "https://"])
  then ret (inl (mk_response (-1) (Some BadSourceUrl) None))
  else
    answer <- client_get (ZLM_SERVER ++ "/index/api/addStreamProxy")
                ([("secret", ZLM_SECRET);
                  ("vhost", pull_vhost body);
                  ("app", pull_app body);
                  ("stream", pull_stream body);
                  ("url", pull_url body);
                  ("rtp_type", str_int (rtp_type body));
                  ("enable_rtsp", str_flag (enable_rtsp body));
                  ("enable_rtmp", str_flag (enable_rtmp body));
                  ("enable_hls", str_flag (enable_hls body));
                  ("enable_hls_fmp4", str_flag (enable_hls_fmp4 body));
                  ("enable_ts", str_flag (enable_ts body));
                  ("enable_fmp4", str_flag (enable_fmp4 body))]
                 ++ (if audio_type body =? 0 then [("enable_audio", "0")]
                     else if audio_type body =? 1
                          then [("enable_audio", "1")]
                     else if audio_type body =? 2
                          then [("enable_audio", "1");
                                ("add_mute_audio", "1")]
                     else [])) ;;
    ret (inr answer).

(** [delete_streamid(vhost, app, stream)]: the answer is dropped. *)
Definition delete_streamid (vhost app stream : string) : M unit :=
  _ <- client_get (ZLM_SERVER ++ "/index/api/close_streams")
         [("secret", ZLM_SECRET); ("vhost", vhost); ("app", app);
          ("stream", stream); ("force", "1")] ;;
  ret tt.

(** [a / b] on two integers: the quotient as a float, or
    [OverflowError] when it rounds beyond the largest float. *)
Definition int_truediv (a b : Z) : result number :=
  if (2 ^ 1024 - 2 ^ 970) * Z.abs b <=? Z.abs a then Raise OverflowError
  else Ok (truediv (of_int a) (of_int b)).

Inductive started : Type :=
| Refused (answer : response unit)
| Passed (answer : Json).

(** Lines 316-330 of [get_start_record]: the request to the media
    server, after [int(record_days)] and the division. *)
Definition start_request (vhost app stream record_days : string)
  : M started :=
  days <- (fun fs => (Dates.int_of_str record_days, fs)) ;;
  max_second <- (fun fs => (int_truediv (days * 24 * 60 * 60) KEEP_VIDEOS,
                            fs)) ;;
  answer <- client_get (ZLM_SERVER ++ "/index/api/startRecord")
              [("secret", ZLM_SECRET); ("vhost", vhost); ("app", app);
               ("stream", stream); ("type", "1");
               ("max_second", Main.str max_second)] ;;
  ret (Passed answer).

(** [get_start_record(vhost, app, stream, record_days)] *)
Definition get_start_record (vhost app stream record_days : string)
  : M started :=
  let stream_record_dir := joinpath (joinpath RECORD_ROOT app) stream in
  there <- path_exists stream_record_dir ;;
  if there then ret (Refused (mk_response (-1) (Some RecordingsExist) None))
  else start_request vhost app stream record_days.

Definition get_stop_record (vhost app stream : string) : M Json :=
  client_get (ZLM_SERVER ++ "/index/api/stopRecord")
             [("secret", ZLM_SECRET); ("vhost", vhost); ("app", app);
              ("stream", stream); ("type", "1")].

Definition get_event_record (vhost app stream path back_ms forward_ms : string)
  : M Json :=
  client_get (ZLM_SERVER ++ "/index/api/startRecordTask")
             [("secret", ZLM_SECRET); ("vhost", vhost); ("app", app);
              ("stream", stream); ("path", path); ("back_ms", back_ms);
              ("forward_ms", forward_ms)].

Definition get_server_config : M Json :=
  client_get (ZLM_SERVER ++ "/index/api/getServerConfig")
             [("secret", ZLM_SECRET)].

(** [query_params["secret"] = ZLM_SECRET] on the parameters of the
    request: the value of an entry that is there is replaced, a new
    entry comes last. *)
Fixpoint set_secret (query_params : list (string * string))
  : list (string * string) :=
  match query_params with
  | [] => [("secret", ZLM_SECRET)]
  | (k, v) :: rest =>
      if String.eqb k "secret" then ("secret", ZLM_SECRET) :: rest
      else (k, v) :: set_secret rest
  end.

(** [put_server_config(request)], given [dict(request.query_params)]. *)
Definition put_server_config (query_params : list (string * string))
  : M Json :=
  client_get (ZLM_SERVER ++ "/index/api/setServerConfig")
             (set_secret query_params).

(** *** The scheduled job *)

(** Whether the operating system lets the sweep remove an entry, see
    [Scheduler.cleanup_old_videos]. *)
Variable may_unlink : path -> bool.

(** [cleanup_old_videos(path=RECORD_ROOT, keep_videos=KEEP_VIDEOS)], as
    the scheduler calls it: the sweep of the directory found at
    [RECORD_ROOT]; the rest of the file system stays. *)
Definition cleanup_job : M effects :=
  fun fs =>
    match stat fs RECORD_ROOT with
    | Found location root =>
        let r := cleanup_old_videos may_unlink (Some root) KEEP_VIDEOS in
        (Ok (snd r),
         match fst r with
         | Some root' => graft location root' fs
         | None => fs
         end)
    | _ => (Ok (snd (cleanup_old_videos may_unlink None KEEP_VIDEOS)), fs)
    end.

(** ** The operations of the program *)

Inductive operation : Type :=
| Sweep
| Statistic
| WorkThreadsLoad
| ThreadsLoad
| SystemStats
| StreamidList (schema vhost app stream : option string)
| ActivePull (body : ActivePullRequest)
| DeleteStreamid (vhost app stream : string)
| StartRecord (vhost app stream record_days : string)
| StopRecord (vhost app stream : string)
| EventRecord (vhost app stream path back_ms forward_ms : string)
| VideoList
| Video (app stream date : string)
| DeleteRecordings (app stream : string)
| ServerConfig
| SetServerConfig (query_params : list (string * string)).

(** The file system after an operation, whether it returned or
    raised. *)
Definition step (op : operation) (fs : node) : node :=
  match op with
  | Sweep => after cleanup_job fs
  | Statistic => after get_statistic fs
  | WorkThreadsLoad => after get_work_threads_load fs
  | ThreadsLoad => after get_threads_load fs
  | SystemStats => after get_system_stats fs
  | StreamidList schema vhost app stream =>
      after (get_streamid_list schema vhost app stream) fs
  | ActivePull body => after (post_active_pull body) fs
  | DeleteStreamid vhost app stream =>
      after (delete_streamid vhost app stream) fs
  | StartRecord vhost app stream record_days =>
      after (get_start_record vhost app stream record_days) fs
  | StopRecord vhost app stream => after (get_stop_record vhost app stream) fs
  | EventRecord vhost app stream path back_ms forward_ms =>
      after (get_event_record vhost app stream path back_ms forward_ms) fs
  | VideoList => after get_video_list fs
  | Video app stream date => after (get_video app stream date) fs
  | DeleteRecordings app stream => after (delete_recordings app stream) fs
  | ServerConfig => after get_server_config fs
  | SetServerConfig query_params => after (put_server_config query_params) fs
  end.

End Handlers.

Arguments Refused {Json} answer.
Arguments Passed {Json} answer.

End Requests.

(* ================================================================== *)
(** * Facts about paths and about programs over the file system *)
(* ================================================================== *)

Module RequestFacts.
Import PyFacts FSFacts Requests.

(** ** Running a program step by step *)

Lemma mbind_ok {A B} (m : M A) (k : A -> M B) (fs fs' : node) (a : A) :
  m fs = (Ok a, fs') -> mbind m k fs = k a fs'.
Proof. intros H. unfold mbind. rewrite H. reflexivity. Qed.

Lemma mbind_raise {A B} (m : M A) (k : A -> M B) (fs fs' : node) (e : exn) :
  m fs = (Raise e, fs') -> mbind m k fs = (Raise e, fs').
Proof. intros H. unfold mbind. rewrite H. reflexivity. Qed.

(** What a program that returned was made of. *)
Lemma mbind_inv {A B} (m : M A) (k : A -> M B) (fs fs' : node) (b : B) :
  mbind m k fs = (Ok b, fs') ->
  exists a fs1, m fs = (Ok a, fs1) /\ k a fs1 = (Ok b, fs').
Proof.
  unfold mbind. destruct (m fs) as [[a|e] fs1]; [eauto | discriminate].
Qed.

Lemma catch_inv {A} (m : M A) (handler : exn -> M A) (fs fs' : node)
      (a : A) :
  catch m handler fs = (Ok a, fs') ->
  m fs = (Ok a, fs')
  \/ exists e fs1, m fs = (Raise e, fs1) /\ handler e fs1 = (Ok a, fs').
Proof.
  unfold catch. destruct (m fs) as [[a0|e] fs1]; [left | right]; eauto.
Qed.

(** ** Programs that only read *)

(** A computation that leaves the file system as it found it, whether
    it returns or raises. *)
Definition reads {A} (m : M A) : Prop := forall fs, snd (m fs) = fs.

Lemma reads_ret {A} (a : A) : reads (ret a).
Proof. intros fs. reflexivity. Qed.

Lemma reads_raise {A} (e : exn) : reads (@raise A e).
Proof. intros fs. reflexivity. Qed.

Lemma reads_bind {A B} (m : M A) (k : A -> M B) :
  reads m -> (forall a, reads (k a)) -> reads (mbind m k).
Proof.
  intros Hm Hk fs. unfold mbind. specialize (Hm fs).
  destruct (m fs) as [[a|e] fs1]; simpl in Hm; subst fs1;
    [apply Hk | reflexivity].
Qed.

Lemma reads_catch {A} (m : M A) (handler : exn -> M A) :
  reads m -> (forall e, reads (handler e)) -> reads (catch m handler).
Proof.
  intros Hm Hh fs. unfold catch. specialize (Hm fs).
  destruct (m fs) as [[a|e] fs1]; simpl in Hm; subst fs1;
    [reflexivity | apply Hh].
Qed.

Lemma reads_for_each {A S} (body : A -> S -> M S) (xs : list A) :
  (forall x acc, reads (body x acc)) ->
  forall acc, reads (for_each xs body acc).
Proof.
  intros Hbody. induction xs as [|x xs IH]; intros acc; simpl.
  - apply reads_ret.
  - apply reads_bind; [apply Hbody | exact IH].
Qed.

(** What holds of the state of a loop before it holds after, when each
    turn keeps it and only reads. *)
Lemma for_each_invariant {A S} (I : S -> Prop) (body : A -> S -> M S)
      (fs : node) :
  (forall x acc, reads (body x acc)) ->
  (forall x acc acc' fs', I acc -> body x acc fs = (Ok acc', fs') -> I acc') ->
  forall xs acc acc' fs',
    I acc -> for_each xs body acc fs = (Ok acc', fs') -> I acc'.
Proof.
  intros Hreads Hbody. induction xs as [|x xs IH]; intros acc acc' fs' HI H.
  - inversion H; subst. exact HI.
  - simpl in H. apply mbind_inv in H as (a1 & fs1 & H1 & H2).
    pose proof (Hreads x acc fs) as Hfs. rewrite H1 in Hfs. simpl in Hfs.
    subst fs1. exact (IH a1 acc' fs' (Hbody _ _ _ _ HI H1) H2).
Qed.

(** A computation that answers from the file system without changing
    it. *)
Lemma reads_query {A} (f : node -> result A) : reads (fun fs => (f fs, fs)).
Proof. intros fs. reflexivity. Qed.

Lemma reads_path_exists (p : pure_path) : reads (path_exists p).
Proof. apply reads_query. Qed.

Lemma reads_path_is_dir (p : pure_path) : reads (path_is_dir p).
Proof. apply reads_query. Qed.

Lemma reads_listdir (p : pure_path) : reads (listdir p).
Proof. apply reads_query. Qed.

Lemma reads_st_size (p : pure_path) : reads (st_size p).
Proof. apply reads_query. Qed.

Lemma reads_os_walk (p : pure_path) : reads (os_walk p).
Proof. apply reads_query. Qed.

Lemma reads_iterdir_paths (p : pure_path) : reads (iterdir_paths p).
Proof.
  apply reads_bind; [apply reads_listdir | intros; apply reads_ret].
Qed.

Create HintDb reads.
#[export] Hint Resolve reads_ret reads_raise reads_path_exists
  reads_path_is_dir reads_listdir reads_st_size reads_os_walk
  reads_iterdir_paths reads_query : reads.

(** One step through the structure of a reading program. *)
Ltac reads_step :=
  match goal with
  | |- reads (mbind _ _) => apply reads_bind; [|intros ?]
  | |- reads (catch _ _) => apply reads_catch; [|intros ?]
  | |- reads (for_each _ _ _) => apply reads_for_each; intros ? ?
  | |- reads (if ?b then _ else _) => destruct b
  | |- reads (match ?x with _ => _ end) => destruct x
  | |- reads _ => solve [auto with reads]
  end.

Section Handlers.
Context {num : PyNumber}.
Variable timestamp : Type.
Variable timestamp_leb : timestamp -> timestamp -> bool.
Variable get_video_shanghai_time : pure_path -> option (video_info timestamp).
Variable Json : Type.
Variable zlm : string -> list (string * string) -> result Json.
Variable ZLM_SECRET : string.

Lemma reads_probe (p : pure_path) :
  reads (probe timestamp get_video_shanghai_time p).
Proof. apply reads_ret. Qed.

Lemma reads_client_get (url : string) (query : list (string * string)) :
  reads (client_get Json zlm url query).
Proof. apply reads_query. Qed.

Hint Resolve reads_probe reads_client_get : reads.

Lemma reads_add_record (file_path : pure_path)
      (results : list (segment timestamp)) :
  reads (add_record timestamp get_video_shanghai_time file_path results).
Proof. unfold add_record. repeat reads_step. Qed.

Lemma reads_get_video (app stream date : string) :
  reads (get_video timestamp timestamp_leb get_video_shanghai_time
                   app stream date).
Proof.
  unfold get_video. cbv zeta. repeat reads_step. apply reads_add_record.
Qed.

Lemma reads_visit_file (root_dir : pure_path) (file : string)
      (st : tally * bool) :
  reads (visit_file timestamp get_video_shanghai_time root_dir file st).
Proof. unfold visit_file. cbv zeta. repeat reads_step. Qed.

Lemma reads_visit_dir (walked : pure_path * list string)
      (st : tally * list string) :
  reads (visit_dir timestamp get_video_shanghai_time walked st).
Proof.
  unfold visit_dir. cbv zeta. repeat reads_step. apply reads_visit_file.
Qed.

Lemma reads_visit_stream (app_name : string) (app_path : pure_path)
      (stream_name : string) (result : list index_entry) :
  reads (visit_stream timestamp get_video_shanghai_time
                      app_name app_path stream_name result).
Proof.
  unfold visit_stream. cbv zeta. repeat reads_step. apply reads_visit_dir.
Qed.

Lemma reads_visit_app (app_name : string) (result : list index_entry) :
  reads (visit_app timestamp get_video_shanghai_time app_name result).
Proof.
  unfold visit_app. cbv zeta. repeat reads_step. apply reads_visit_stream.
Qed.

Lemma reads_get_video_list :
  reads (get_video_list timestamp get_video_shanghai_time).
Proof.
  unfold get_video_list. repeat reads_step. apply reads_visit_app.
Qed.

Lemma reads_start_request (vhost app stream record_days : string) :
  reads (start_request Json zlm ZLM_SECRET vhost app stream record_days).
Proof. unfold start_request. repeat reads_step. Qed.

Lemma reads_get_start_record (vhost app stream record_days : string) :
  reads (get_start_record Json zlm ZLM_SECRET vhost app stream record_days).
Proof.
  unfold get_start_record. cbv zeta. repeat reads_step.
  apply reads_start_request.
Qed.

End Handlers.

End RequestFacts.

Module PathFacts.
Import PyFacts FSFacts Requests.

(** ** Plain names *)

Lemma split_slash_plain (s : string) :
  has_slash s = false -> split_slash s = [s].
Proof.
  induction s as [|c s IH]; simpl; [reflexivity|].
  destruct (Ascii.eqb c "/"); simpl; [discriminate|].
  intros H. rewrite (IH H). reflexivity.
Qed.

Lemma leading_slashes_plain (s : string) :
  has_slash s = false -> leading_slashes s = O.
Proof.
  destruct s as [|c s]; simpl; [reflexivity|].
  destruct (Ascii.eqb c "/"); simpl; [discriminate | reflexivity].
Qed.

Lemma plain_spec (s : string) :
  plain s = true ->
  s <> ""%string /\ s <> "."%string /\ s <> ".."%string
  /\ has_slash s = false /\ has_nul s = false
  /\ (String.length s <= 255)%nat.
Proof.
  unfold plain. rewrite !andb_true_iff, !negb_true_iff.
  intros [[[[[H1 H2] H3] H4] H5] H6].
  apply String.eqb_neq in H1, H2, H3. apply Nat.leb_le in H6.
  repeat split; assumption.
Qed.

Lemma segment_parts_plain (s : string) :
  plain s = true -> segment_parts s = [s].
Proof.
  intros H. destruct (plain_spec s H) as (H1 & H2 & _ & H4 & _).
  unfold segment_parts. rewrite (split_slash_plain s H4). simpl.
  apply String.eqb_neq in H1, H2. rewrite H1, H2. reflexivity.
Qed.

(** Joining a plain name adds it as one part. *)
Lemma joinpath_plain (p : pure_path) (s : string) :
  plain s = true -> joinpath p s = child p s.
Proof.
  intros H. unfold joinpath, child.
  rewrite (leading_slashes_plain s) by apply (plain_spec s H).
  rewrite (segment_parts_plain s H). reflexivity.
Qed.

(** A segment that does not start with a slash adds its parts. *)
Lemma joinpath_relative (p : pure_path) (s : string) :
  leading_slashes s = O ->
  joinpath p s = mk_pure_path (double_slash p) (parts p ++ segment_parts s).
Proof. intros H. unfold joinpath. rewrite H. reflexivity. Qed.

(** ** Resolution *)

(** Along plain names the way is the one that [lookup] takes. *)
Lemma resolve_plain (fs : node) (p : list string) : forall here,
  Forall (fun c => plain c = true) p ->
  resolve fs here p
  = match lookup (rev here ++ p) fs with
    | Some n => Found (rev here ++ p) n
    | None => Absent
    end.
Proof.
  induction p as [|c p IH]; intros here Hp.
  - simpl. rewrite app_nil_r. reflexivity.
  - inversion Hp as [|? ? Hc Hp']; subst.
    destruct (plain_spec c Hc) as (_ & _ & H3 & _ & _ & H6).
    simpl resolve. rewrite (SweepSafety.lookup_app (rev here) (c :: p)).
    destruct (lookup (rev here) fs) as [[sz|es]|] eqn:E; try reflexivity.
    apply String.eqb_neq in H3. rewrite H3.
    replace (255 <? String.length c)%nat with false
      by (symmetry; apply Nat.ltb_ge; exact H6).
    simpl lookup. destruct (assoc c es) as [n1|] eqn:Ea; [|reflexivity].
    rewrite (IH (c :: here) Hp'). simpl rev.
    rewrite <- app_assoc. simpl app.
    rewrite (SweepSafety.lookup_app (rev here) (c :: p)), E. simpl.
    rewrite Ea. reflexivity.
Qed.

(** Where plain names lead to nothing, no longer way leads anywhere. *)
Lemma resolve_beyond_absent (fs : node) (p rest : list string) :
  forall here,
  Forall (fun c => plain c = true) p ->
  lookup (rev here ++ p) fs = None ->
  resolve fs here (p ++ rest) = Absent.
Proof.
  induction p as [|c p IH]; intros here Hp Hnone.
  - rewrite app_nil_r in Hnone. simpl.
    destruct rest as [|c rest]; simpl; rewrite Hnone; reflexivity.
  - inversion Hp as [|? ? Hc Hp']; subst.
    destruct (plain_spec c Hc) as (_ & _ & H3 & _ & _ & H6).
    simpl. destruct (lookup (rev here) fs) as [[sz|es]|] eqn:E;
      try reflexivity.
    apply String.eqb_neq in H3. rewrite H3.
    replace (255 <? String.length c)%nat with false
      by (symmetry; apply Nat.ltb_ge; exact H6).
    destruct (assoc c es) as [n1|] eqn:Ea; [|reflexivity].
    apply IH; [exact Hp'|]. simpl rev. rewrite <- app_assoc. exact Hnone.
Qed.

Lemma plain_no_nul (p : list string) :
  Forall (fun c => plain c = true) p -> existsb has_nul p = false.
Proof.
  induction 1 as [|c p Hc _ IH]; simpl; [reflexivity|].
  rewrite IH. destruct (plain_spec c Hc) as (_ & _ & _ & _ & H5 & _).
  rewrite H5. reflexivity.
Qed.

(** [os.stat] of a path of plain names that is not too long. *)
Lemma stat_plain (fs : node) (p : list string) :
  Forall (fun c => plain c = true) p ->
  (String.length (as_posix (mk_pure_path false p)) < 4096)%nat ->
  stat fs (mk_pure_path false p)
  = match lookup p fs with
    | Some n => Found p n
    | None => Absent
    end.
Proof.
  intros Hp Hlen. unfold stat. cbn [parts].
  rewrite (plain_no_nul p Hp).
  replace (4096 <=? _)%nat with false
    by (symmetry; apply Nat.leb_gt; exact Hlen).
  apply (resolve_plain fs p [] Hp).
Qed.

(** ** Paths below [RECORD_ROOT] *)

Lemma plain_root : Forall (fun c => plain c = true) (parts RECORD_ROOT).
Proof. repeat constructor. Qed.

Lemma plain_below_root (names : list string) :
  Forall (fun c => plain c = true) names ->
  Forall (fun c => plain c = true) (parts RECORD_ROOT ++ names).
Proof. intros H. apply Forall_app. split; [apply plain_root | exact H]. Qed.

Lemma below_root_not_root (names : list string) :
  parts RECORD_ROOT ++ names <> [].
Proof. simpl. discriminate. Qed.

Lemma stream_path (a s : string) :
  plain a = true -> plain s = true ->
  joinpath (joinpath RECORD_ROOT a) s
  = mk_pure_path false (parts RECORD_ROOT ++ [a; s]).
Proof.
  intros Ha Hs. rewrite (joinpath_plain _ a Ha), (joinpath_plain _ s Hs).
  reflexivity.
Qed.

Lemma stream_path_short (a s : string) :
  plain a = true -> plain s = true ->
  (String.length (as_posix (mk_pure_path false (parts RECORD_ROOT ++ [a; s])))
   < 4096)%nat.
Proof.
  intros Ha Hs.
  destruct (plain_spec a Ha) as (_ & _ & _ & _ & _ & La).
  destruct (plain_spec s Hs) as (_ & _ & _ & _ & _ & Ls).
  unfold as_posix. cbn [double_slash parts RECORD_ROOT List.app String.concat].
  rewrite !Names.append_length. simpl String.length. lia.
Qed.

(** [os.stat] of a stream directory named by two plain names. *)
Lemma stat_stream (fs : node) (a s : string) :
  plain a = true -> plain s = true ->
  stat fs (joinpath (joinpath RECORD_ROOT a) s)
  = match lookup (parts RECORD_ROOT ++ [a; s]) fs with
    | Some n => Found (parts RECORD_ROOT ++ [a; s]) n
    | None => Absent
    end.
Proof.
  intros Ha Hs. rewrite (stream_path a s Ha Hs).
  apply stat_plain; [|apply stream_path_short; assumption].
  apply plain_below_root. repeat constructor; assumption.
Qed.

Lemma date_path (a s d : string) :
  plain a = true -> plain s = true -> plain d = true ->
  joinpath (joinpath (joinpath RECORD_ROOT a) s) d
  = mk_pure_path false (parts RECORD_ROOT ++ [a; s; d]).
Proof.
  intros Ha Hs Hd.
  rewrite (joinpath_plain _ a Ha), (joinpath_plain _ s Hs),
    (joinpath_plain _ d Hd).
  reflexivity.
Qed.

(** [os.stat] of a date directory named by three plain names. *)
Lemma stat_date (fs : node) (a s d : string) :
  plain a = true -> plain s = true -> plain d = true ->
  stat fs (joinpath (joinpath (joinpath RECORD_ROOT a) s) d)
  = match lookup (parts RECORD_ROOT ++ [a; s; d]) fs with
    | Some n => Found (parts RECORD_ROOT ++ [a; s; d]) n
    | None => Absent
    end.
Proof.
  intros Ha Hs Hd. rewrite (date_path a s d Ha Hs Hd).
  apply stat_plain.
  - apply plain_below_root. repeat constructor; assumption.
  - destruct (plain_spec a Ha) as (_ & _ & _ & _ & _ & La).
    destruct (plain_spec s Hs) as (_ & _ & _ & _ & _ & Ls).
    destruct (plain_spec d Hd) as (_ & _ & _ & _ & _ & Ld).
    unfold as_posix. cbn [double_slash parts RECORD_ROOT List.app String.concat].
    rewrite !Names.append_length. simpl String.length. lia.
Qed.

(** ** Removing a tree *)

Lemma remove_replace (x : string) (c' : node) (es : list (string * node)) :
  remove_entry x (replace_entry x c' es) = remove_entry x es.
Proof.
  induction es as [|[n0 c0] es IH]; simpl; [reflexivity|].
  destruct (String.eqb x n0) eqn:E; simpl; rewrite E;
    [reflexivity | rewrite IH; reflexivity].
Qed.

Lemma replace_replace (x : string) (c' c'' : node)
      (es : list (string * node)) :
  replace_entry x c' (replace_entry x c'' es) = replace_entry x c' es.
Proof.
  induction es as [|[n0 c0] es IH]; simpl; [reflexivity|].
  destruct (String.eqb x n0) eqn:E; simpl; rewrite E;
    [reflexivity | rewrite IH; reflexivity].
Qed.

(** The directory that was put at a location is found there. *)
Lemma lookup_graft (location : path) (n' : node) : forall fs n,
  lookup location fs = Some n ->
  lookup location (graft location n' fs) = Some n'.
Proof.
  induction location as [|x l IH]; intros fs n H; simpl; [reflexivity|].
  simpl in H. destruct fs as [sz|es]; [discriminate|].
  destruct (assoc x es) as [c|] eqn:E; [|discriminate].
  simpl. rewrite (SweepSafety.assoc_replace_same _ _ _ _ E).
  apply (IH c n H).
Qed.

(** What was put at a location does not matter once the location is
    removed. *)
Lemma rmtree_graft (location : path) (n' : node) : forall fs n,
  lookup location fs = Some n ->
  rmtree location (graft location n' fs) = rmtree location fs.
Proof.
  induction location as [|x l IH]; intros fs n H; [reflexivity|].
  simpl in H. destruct fs as [sz|es]; [discriminate|].
  destruct (assoc x es) as [c|] eqn:E; [|discriminate].
  cbn [graft]. rewrite E. cbn [rmtree].
  rewrite (SweepSafety.assoc_replace_same _ _ _ _ E), E.
  destruct l as [|y l].
  - rewrite remove_replace. reflexivity.
  - rewrite (IH c n H). destruct (rmtree (y :: l) c) as [c'|e]; simpl;
      [rewrite replace_replace|]; reflexivity.
Qed.

(** [rmtree] of a location that exists: the location and all beneath it
    are gone, every other path denotes what it denoted, and names are
    still unique. *)
Lemma rmtree_spec (location : path) : forall fs n,
  location <> [] ->
  wf fs = true ->
  lookup location fs = Some n ->
  exists fs',
    rmtree location fs = Ok fs'
    /\ (forall q, lookup (location ++ q) fs' = None)
    /\ (forall p, (forall q, p <> location ++ q) ->
                  option_map kind_of (lookup p fs')
                  = option_map kind_of (lookup p fs))
    /\ wf fs' = true.
Proof.
  induction location as [|x l IH]; intros fs n Hne Hwf H; [congruence|].
  simpl in H. destruct fs as [sz|es]; [discriminate|].
  destruct (assoc x es) as [c|] eqn:E; [|discriminate].
  pose proof (proj1 (wf_Dir _) Hwf) as [Hnd Hall].
  pose proof (wf_assoc _ _ _ Hwf E) as Hwfc.
  cbn [rmtree]. rewrite E. destruct l as [|y l].
  - exists (Dir (remove_entry x es)). split; [reflexivity|].
    split; [|split].
    + intros q. simpl. rewrite (SweepSafety.assoc_remove_same _ _ Hnd).
      reflexivity.
    + intros p Hp. destruct p as [|z p]; [reflexivity|]. simpl.
      destruct (String.eqb_spec z x) as [->|Hzx].
      * exfalso. apply (Hp p). reflexivity.
      * rewrite (SweepSafety.assoc_remove_other _ _ _ Hzx). reflexivity.
    + apply wf_Dir. split; [apply remove_entry_NoDup, Hnd|].
      apply Forall_forall. intros e He. rewrite Forall_forall in Hall.
      apply Hall. eapply remove_entry_In, He.
  - destruct (IH c n ltac:(discriminate) Hwfc H)
      as (c' & Hrm & Hgone & Hother & Hwf').
    rewrite Hrm. simpl bind.
    exists (Dir (replace_entry x c' es)). split; [reflexivity|].
    split; [|split].
    + intros q. simpl. rewrite (SweepSafety.assoc_replace_same _ _ _ _ E).
      apply (Hgone q).
    + intros p Hp. destruct p as [|z p]; [reflexivity|]. simpl.
      destruct (String.eqb_spec z x) as [->|Hzx].
      * rewrite (SweepSafety.assoc_replace_same _ _ _ _ E), E.
        apply Hother. intros q Hq. apply (Hp q). simpl. rewrite Hq.
        reflexivity.
      * rewrite (SweepSafety.assoc_replace_other _ _ _ _ Hzx). reflexivity.
    + apply wf_Dir. rewrite replace_entry_names. split; [exact Hnd|].
      apply Forall_forall. intros e He. rewrite Forall_forall in Hall.
      destruct (replace_entry_In _ _ _ _ He) as [He'| ->]; [auto|].
      exact Hwf'.
Qed.

End PathFacts.

(* ================================================================== *)
(** * The detailed listing of a date *)
(* ================================================================== *)

Module Listing.
Import PyFacts FSFacts Requests RequestFacts PathFacts.

Section Listing.
Context {num : PyNumber}.
Variable timestamp : Type.
Variable timestamp_leb : timestamp -> timestamp -> bool.
Variable get_video_shanghai_time : pure_path -> option (video_info timestamp).

(** The record that an entry of the target directory contributes, if
    it contributes one: its name ends in [.mp4] in any case, its
    metadata can be read, and its path lies below [RECORD_ROOT]. *)
Definition record_of (file_path : pure_path) : list (segment timestamp) :=
  if String.eqb (lower (suffix (name (parts file_path)))) ".mp4" then
    match get_video_shanghai_time file_path,
          relative_to file_path RECORD_ROOT with
    | Some info, Ok rel_path => [mk_segment info rel_path]
    | _, _ => []
    end
  else [].

(** The records of the entries of a directory, in enumeration order. *)
Definition collect (target_dir : pure_path) (entries : list (string * node))
  : list (segment timestamp) :=
  flat_map (fun e => record_of (child target_dir (fst e))) entries.


Lemma relative_to_raises (p q : pure_path) (e : exn) :
  relative_to p q = Raise e -> e = ValueError.
Proof.
  unfold relative_to. destruct (Bool.eqb _ _); [|congruence].
  destruct (strip_prefix _ _); congruence.
Qed.

Lemma add_record_run (file_path : pure_path)
      (results : list (segment timestamp)) (fs : node) :
  add_record timestamp get_video_shanghai_time file_path results fs
  = (Ok (results ++ record_of file_path), fs).
Proof.
  unfold add_record, record_of, probe, mbind, ret, raise.
  destruct (String.eqb _ ".mp4"); [|rewrite app_nil_r; reflexivity].
  destruct (get_video_shanghai_time file_path) as [info|];
    [|rewrite app_nil_r; reflexivity].
  destruct (relative_to file_path RECORD_ROOT) as [rel|e] eqn:E;
    [reflexivity|].
  rewrite (relative_to_raises _ _ _ E), app_nil_r. reflexivity.
Qed.

(** The loop over the entries adds the record of each in turn. *)
Lemma for_each_add_record (entries : list pure_path) (fs : node) :
  forall results,
    for_each entries (add_record timestamp get_video_shanghai_time)
             results fs
    = (Ok (results ++ flat_map record_of entries), fs).
Proof.
  induction entries as [|x entries IH]; intros results; simpl.
  - rewrite app_nil_r. reflexivity.
  - unfold mbind at 1. rewrite add_record_run, IH, <- app_assoc.
    reflexivity.
Qed.


(** For three plain names the answer is the one that [Main.get_video]
    gives on the directory found at [RECORD_ROOT]: the same code and
    the same records. *)
Lemma get_video_plain (fs : node) (a s d : string) :
  plain a = true -> plain s = true -> plain d = true ->
  exists answer,
    get_video timestamp timestamp_leb get_video_shanghai_time a s d fs
    = (Ok answer, fs)
    /\ code answer
       = Main.code
           (Main.get_video timestamp timestamp_leb
              (fun rel => get_video_shanghai_time
                            (mk_pure_path false (parts RECORD_ROOT ++ rel)))
              (lookup (parts RECORD_ROOT) fs) a s d)
    /\ data answer
       = Main.data
           (Main.get_video timestamp timestamp_leb
              (fun rel => get_video_shanghai_time
                            (mk_pure_path false (parts RECORD_ROOT ++ rel)))
              (lookup (parts RECORD_ROOT) fs) a s d).
Proof.
  intros Ha Hs Hd.
  assert (Hroot : bind_root (lookup (parts RECORD_ROOT) fs)
                            (lookup [a; s; d])
                  = lookup (parts RECORD_ROOT ++ [a; s; d]) fs).
  { rewrite SweepSafety.lookup_app. unfold bind_root.
    destruct (lookup (parts RECORD_ROOT) fs); reflexivity. }
  unfold get_video, Main.get_video. cbv zeta. rewrite Hroot.
  pose proof (stat_date fs a s d Ha Hs Hd) as E.
  set (target_dir := joinpath (joinpath (joinpath RECORD_ROOT a) s) d) in *.
  destruct (lookup (parts RECORD_ROOT ++ [a; s; d]) fs)
    as [[sz|entries]|] eqn:El.
  - rewrite (mbind_ok _ _ fs fs true)
      by (unfold path_exists; rewrite E; reflexivity).
    cbn [negb].
    rewrite (mbind_ok _ _ fs fs false)
      by (unfold path_is_dir; rewrite E; reflexivity).
    cbn [negb ret]. eexists. repeat split.
  - rewrite (mbind_ok _ _ fs fs true)
      by (unfold path_exists; rewrite E; reflexivity).
    cbn [negb].
    rewrite (mbind_ok _ _ fs fs true)
      by (unfold path_is_dir; rewrite E; reflexivity).
    cbn [negb].
    rewrite (mbind_ok _ _ fs fs (map (child target_dir) (map fst entries)))
      by (unfold iterdir_paths;
          rewrite (mbind_ok _ _ fs fs (map fst entries))
            by (unfold listdir; rewrite E; reflexivity);
          reflexivity).
    rewrite (mbind_ok _ _ fs fs _ (for_each_add_record _ fs [])).
    cbn [List.app ret].
    eexists. split; [reflexivity|]. split; [reflexivity|].
    cbn [data Main.data]. f_equal. f_equal.
    rewrite map_map. unfold Main.collect.
    rewrite !flat_map_concat_map, map_map. f_equal.
    apply map_ext. intros [x n]. cbn [fst].
    unfold record_of, child. subst target_dir.
    rewrite (date_path a s d Ha Hs Hd). cbn [parts double_slash].
    unfold name. rewrite last_last.
    destruct (String.eqb _ ".mp4"); [|reflexivity].
    rewrite <- app_assoc.
    destruct (get_video_shanghai_time _) as [info|]; reflexivity.
  - rewrite (mbind_ok _ _ fs fs false)
      by (unfold path_exists; rewrite E; reflexivity).
    cbn [negb ret]. eexists. repeat split.
Qed.

End Listing.








End Listing.

(* ================================================================== *)
(** * Which operations delete *)
(* ================================================================== *)

Module Operations.
Import PyFacts FSFacts Requests RequestFacts PathFacts.

Section Operations.
Context {num : PyNumber}.
Variable timestamp : Type.
Variable timestamp_leb : timestamp -> timestamp -> bool.
Variable get_video_shanghai_time : pure_path -> option (video_info timestamp).
Variable rmtree_stops : path -> node -> option (exn * node).
Variable Json : Type.
Variable zlm : string -> list (string * string) -> result Json.
Variable ZLM_SECRET : string.
Variable host_stats : Json.
Variables (Origin Schema : Type).
Variable media_list_of :
  Json -> Z * option (list (Streams.media Origin Schema)).
Variable may_unlink : path -> bool.

(** The file system after an operation of the program. *)
Definition after_operation : operation -> node -> node :=
  step timestamp timestamp_leb get_video_shanghai_time rmtree_stops
       Json zlm ZLM_SECRET host_stats Origin Schema media_list_of
       may_unlink.

(** The file at [p] is there before the operation and not after. *)
Definition deletes (op : operation) (fs : node) (p : path) : Prop :=
  (exists sz, lookup p fs = Some (File sz))
  /\ lookup p (after_operation op fs) = None.

(** C9 as the design document states it: only the sweep deletes. *)
Definition only_the_sweep_deletes : Prop :=
  forall op fs p, deletes op fs p -> op = Sweep.

Hint Resolve reads_client_get : reads.

Lemma reads_get_streamid_list (schema vhost app stream : option string) :
  reads (get_streamid_list Json zlm ZLM_SECRET Origin Schema media_list_of
                           schema vhost app stream).
Proof. unfold get_streamid_list. repeat reads_step. Qed.

Lemma reads_post_active_pull (body : ActivePullRequest) :
  reads (post_active_pull Json zlm ZLM_SECRET body).
Proof. unfold post_active_pull. repeat reads_step. Qed.

Lemma reads_delete_streamid (vhost app stream : string) :
  reads (delete_streamid Json zlm ZLM_SECRET vhost app stream).
Proof. unfold delete_streamid. repeat reads_step. Qed.

(** Every operation but the sweep and [delete_recordings] is a program
    that only reads. *)
Lemma other_operations_read (op : operation) (fs : node) :
  op <> Sweep ->
  (forall app stream, op <> DeleteRecordings app stream) ->
  after_operation op fs = fs.
Proof.
  intros Hsweep Hdelete.
  destruct op; unfold after_operation, step, after;
    try congruence; try (exfalso; eapply Hdelete; reflexivity).
  - apply reads_client_get.
  - apply reads_client_get.
  - apply reads_client_get.
  - reflexivity.
  - apply reads_get_streamid_list.
  - apply reads_post_active_pull.
  - apply reads_delete_streamid.
  - apply reads_get_start_record.
  - apply reads_client_get.
  - apply reads_client_get.
  - apply reads_get_video_list.
  - apply reads_get_video.
  - apply reads_client_get.
  - apply reads_client_get.
Qed.

(** C9, as the code has it.  An operation that deletes a file is the
    sweep or [delete_recordings]; every other operation of the program
    (the index, the detailed listing, [get_start_record] and the
    handlers that only ask the media server) leaves the file system
    exactly as it was, whether it returns or raises. *)
Theorem only_sweep_and_delete_recordings_delete
        (op : operation) (fs : node) (p : path) :
  (deletes op fs p ->
   op = Sweep \/ exists app stream, op = DeleteRecordings app stream)
  /\ (op <> Sweep ->
      (forall app stream, op <> DeleteRecordings app stream) ->
      after_operation op fs = fs).
Proof.
  split; [|apply other_operations_read].
  intros [(sz & Hbefore) Hafter].
  destruct op; try (left; reflexivity); try (right; eauto; fail);
    exfalso;
    rewrite other_operations_read in Hafter by discriminate;
    congruence.
Qed.

End Operations.

(** One stream with one segment. *)
Definition one_segment : node :=
  Dir [("opt",
        Dir [("zlm",
              Dir [("record",
                    Dir [("live",
                          Dir [("cam1",
                                Dir [("2025-01-01-00-00-00-0.mp4",
                                      File 10)])])])])])].

(** The program in a setting where the operating system refuses
    nothing and the media server answers nothing of interest. *)
Definition quiet : operation -> node -> node :=
  after_operation (num := Exact.rational) Z Z.leb (fun _ => None)
    (fun _ _ => None) unit (fun _ _ => Ok tt) "" tt unit unit
    (fun _ => (0, None)) (fun _ => true).

Lemma delete_recordings_deletes :
  deletes (num := Exact.rational) Z Z.leb (fun _ => None)
    (fun _ _ => None) unit (fun _ _ => Ok tt) "" tt unit unit
    (fun _ => (0, None)) (fun _ => true)
    (DeleteRecordings "live" "cam1") one_segment
    ["opt"; "zlm"; "record"; "live"; "cam1"; "2025-01-01-00-00-00-0.mp4"].
Proof. split; [exists 10; reflexivity | reflexivity]. Defined.

Lemma only_sweep_and_delete_recordings_delete_witness :
  (DeleteRecordings "live" "cam1" = Sweep
   \/ exists app stream,
       DeleteRecordings "live" "cam1" = DeleteRecordings app stream)
  /\ quiet (Video "live" "cam1" "2025-01-01") one_segment = one_segment.
Proof.
  split.
  - exact (proj1 (only_sweep_and_delete_recordings_delete
                    (num := Exact.rational) Z Z.leb (fun _ => None)
                    (fun _ _ => None) unit (fun _ _ => Ok tt) "" tt
                    unit unit (fun _ => (0, None)) (fun _ => true)
                    (DeleteRecordings "live" "cam1") one_segment
                    ["opt"; "zlm"; "record"; "live"; "cam1";
                     "2025-01-01-00-00-00-0.mp4"])
                 delete_recordings_deletes).
  - apply (proj2 (only_sweep_and_delete_recordings_delete
                    (num := Exact.rational) Z Z.leb (fun _ => None)
                    (fun _ _ => None) unit (fun _ _ => Ok tt) "" tt
                    unit unit (fun _ => (0, None)) (fun _ => true)
                    (Video "live" "cam1" "2025-01-01") one_segment [])).
    + discriminate.
    + discriminate.
Defined.

(** [delete_recordings("live", "cam1")] removes the stream directory
    and the segment in it. *)
Lemma only_the_sweep_deletes_counterexample :
  ~ only_the_sweep_deletes (num := Exact.rational) Z Z.leb (fun _ => None)
      (fun _ _ => None) unit (fun _ _ => Ok tt) "" tt unit unit
      (fun _ => (0, None)) (fun _ => true).
Proof.
  intros H.
  specialize (H _ _ _ delete_recordings_deletes). discriminate H.
Qed.

End Operations.

(* ================================================================== *)
(** * Deleting the recordings of a stream *)
(* ================================================================== *)

Module Recordings.
Import PyFacts FSFacts Requests RequestFacts PathFacts.

Section Recordings.
Context {num : PyNumber}.
Variable timestamp : Type.
Variable timestamp_leb : timestamp -> timestamp -> bool.
Variable get_video_shanghai_time : pure_path -> option (video_info timestamp).
Variable rmtree_stops : path -> node -> option (exn * node).

(** The stream directory of an entry of the index is a directory. *)
Definition is_stream_dir (fs : node) (r : index_entry) : Prop :=
  fst (path_is_dir (joinpath (joinpath RECORD_ROOT (app (summary r)))
                             (stream (summary r))) fs)
  = Ok true.

(** A [delete_recordings] for two plain names that answered with code
    0: the stream directory was there, [rmtree] was not stopped, and
    the file system afterwards is the one without it. *)
Lemma delete_recordings_done (fs fs' : node) (a s : string)
      (answer : response unit) :
  wf fs = true -> plain a = true -> plain s = true ->
  delete_recordings rmtree_stops a s fs = (Ok answer, fs') ->
  code answer = 0 ->
  (exists es, lookup (parts RECORD_ROOT ++ [a; s]) fs = Some (Dir es))
  /\ rmtree (parts RECORD_ROOT ++ [a; s]) fs = Ok fs'.
Proof.
  intros Hwf Ha Hs Hrun Hcode. unfold delete_recordings in Hrun.
  cbv zeta in Hrun.
  pose proof (stat_stream fs a s Ha Hs) as E.
  set (base_dir := joinpath (joinpath RECORD_ROOT a) s) in *.
  set (location := parts RECORD_ROOT ++ [a; s]) in *.
  destruct (lookup location fs) as [[sz|es]|] eqn:El.
  - rewrite (mbind_ok _ _ fs fs true) in Hrun
      by (unfold path_exists; rewrite E; reflexivity).
    cbn [negb] in Hrun.
    rewrite (mbind_ok _ _ fs fs false) in Hrun
      by (unfold path_is_dir; rewrite E; reflexivity).
    inversion Hrun; subst. discriminate Hcode.
  - rewrite (mbind_ok _ _ fs fs true) in Hrun
      by (unfold path_exists; rewrite E; reflexivity).
    cbn [negb] in Hrun.
    rewrite (mbind_ok _ _ fs fs true) in Hrun
      by (unfold path_is_dir; rewrite E; reflexivity).
    cbn [negb] in Hrun.
    split; [eauto|].
    unfold catch, mbind, rmtree_path in Hrun. rewrite E in Hrun.
    destruct (rmtree_stops location fs) as [[e remains]|].
    { inversion Hrun; subst. discriminate Hcode. }
    cbv zeta in Hrun.
    assert (E' : stat (graft location (Dir []) fs) base_dir
                 = Found location (Dir [])).
    { subst base_dir. rewrite (stat_stream _ a s Ha Hs). fold location.
      rewrite (lookup_graft location (Dir []) fs _ El). reflexivity. }
    rewrite E' in Hrun.
    change location with ("opt" :: "zlm" :: "record" :: [a; s])%string
      in Hrun at 1.
    cbv iota in Hrun. fold location in Hrun.
    change ("opt" :: "zlm" :: "record" :: [a; s])%string with location
      in Hrun.
    rewrite (rmtree_graft location (Dir []) fs _ El) in Hrun.
    destruct (rmtree_spec location fs (Dir es) (below_root_not_root [a; s]) Hwf El)
      as (fs'' & Hrm & _).
    rewrite Hrm in Hrun. rewrite Hrm. inversion Hrun; subst. reflexivity.
  - rewrite (mbind_ok _ _ fs fs false) in Hrun
      by (unfold path_exists; rewrite E; reflexivity).
    inversion Hrun; subst. discriminate Hcode.
Qed.

(** X7.  A [delete_recordings] for an application and a stream given
    by plain names that answers with code 0 has removed the stream
    directory with all that was beneath it and nothing else: every
    other path of the file system denotes what it denoted before, a
    file of the same size or a directory.  The application directory
    stays, even when the stream was its only entry. *)
Theorem delete_recordings_removes_one_stream
        (fs fs' : node) (a s : string) (answer : response unit) :
  wf fs = true -> plain a = true -> plain s = true ->
  delete_recordings rmtree_stops a s fs = (Ok answer, fs') ->
  code answer = 0 ->
  let stream_dir := parts RECORD_ROOT ++ [a; s] in
  (forall q, lookup (stream_dir ++ q) fs' = None)
  /\ (forall p, (forall q, p <> stream_dir ++ q) ->
                option_map kind_of (lookup p fs')
                = option_map kind_of (lookup p fs))
  /\ option_map kind_of (lookup (parts RECORD_ROOT ++ [a]) fs')
     = Some Directory
  /\ wf fs' = true.
Proof.
  intros Hwf Ha Hs Hrun Hcode stream_dir.
  destruct (delete_recordings_done _ _ _ _ _ Hwf Ha Hs Hrun Hcode)
    as [(es & El) Hrm].
  destruct (rmtree_spec _ fs (Dir es) (below_root_not_root [a; s]) Hwf El)
    as (fs'' & Hrm' & Hgone & Hother & Hwf').
  fold stream_dir in Hrm, Hrm', El, Hgone, Hother.
  rewrite Hrm in Hrm'. inversion Hrm'; subst fs''.
  split; [exact Hgone|]. split; [exact Hother|]. split; [|exact Hwf'].
  rewrite Hother.
  - change stream_dir with ((parts RECORD_ROOT ++ [a]) ++ [s]) in El.
    rewrite SweepSafety.lookup_app in El.
    destruct (lookup (parts RECORD_ROOT ++ [a]) fs) as [[sz|streams]|];
      [discriminate | reflexivity | discriminate].
  - intros q Hq. apply (f_equal (@length string)) in Hq.
    subst stream_dir. rewrite !length_app in Hq. simpl in Hq. lia.
Qed.

Lemma visit_stream_entries (fs fs' : node) (app_name stream_name : string)
      (result result' : list index_entry) :
  Forall (is_stream_dir fs) result ->
  visit_stream timestamp get_video_shanghai_time app_name
               (joinpath RECORD_ROOT app_name) stream_name result fs
  = (Ok result', fs') ->
  Forall (is_stream_dir fs) result'.
Proof.
  intros Hres H. unfold visit_stream in H. cbv zeta in H.
  apply mbind_inv in H as (is_directory & fs1 & H1 & H2).
  assert (fs1 = fs) by (unfold path_is_dir in H1; congruence). subst fs1.
  destruct is_directory; cbn [negb] in H2;
    [|inversion H2; subst; exact Hres].
  apply mbind_inv in H2 as (walked & fs2 & _ & H3).
  apply mbind_inv in H3 as (r & fs3 & _ & H4).
  destruct (total_slices (fst r) =? 0); inversion H4; subst;
    [exact Hres|].
  apply Forall_app. split; [exact Hres|]. constructor; [|constructor].
  unfold is_stream_dir. cbn [summary Main.app Main.stream].
  rewrite H1. reflexivity.
Qed.

Lemma visit_app_entries (fs fs' : node) (app_name : string)
      (result result' : list index_entry) :
  Forall (is_stream_dir fs) result ->
  visit_app timestamp get_video_shanghai_time app_name result fs
  = (Ok result', fs') ->
  Forall (is_stream_dir fs) result'.
Proof.
  intros Hres H. unfold visit_app in H. cbv zeta in H.
  apply mbind_inv in H as (is_directory & fs1 & H1 & H2).
  assert (fs1 = fs) by (unfold path_is_dir in H1; congruence). subst fs1.
  destruct is_directory; cbn [negb] in H2;
    [|inversion H2; subst; exact Hres].
  apply mbind_inv in H2 as (streams & fs2 & H3 & H4).
  assert (fs2 = fs) by (unfold listdir in H3; congruence). subst fs2.
  revert H4. apply for_each_invariant; [| |exact Hres].
  - intros x acc. apply reads_visit_stream.
  - intros x acc acc' fs1 HI Hx. exact (visit_stream_entries _ _ _ _ _ _ HI Hx).
Qed.

(** Each entry of the index stands for a stream directory that is
    there. *)
Lemma get_video_list_entries (fs : node) (answer : response (list index_entry))
      (l : list index_entry) :
  fst (get_video_list timestamp get_video_shanghai_time fs) = Ok answer ->
  data answer = Some l ->
  Forall (is_stream_dir fs) l.
Proof.
  intros H Hl.
  pose proof (reads_get_video_list timestamp get_video_shanghai_time fs)
    as Hfs.
  destruct (get_video_list timestamp get_video_shanghai_time fs)
    as [r fs'] eqn:Hrun.
  simpl in H, Hfs. subst r fs'.
  unfold get_video_list in Hrun.
  apply mbind_inv in Hrun as (there & fs1 & H1 & Hrun).
  assert (fs1 = fs) by (unfold path_exists in H1; congruence). subst fs1.
  apply mbind_inv in Hrun as (usable & fs2 & H2 & Hrun).
  assert (fs2 = fs).
  { destruct there; [unfold path_is_dir in H2 | unfold ret in H2];
      congruence. }
  subst fs2.
  destruct usable; cbn [negb] in Hrun;
    [|inversion Hrun; subst; discriminate Hl].
  apply catch_inv in Hrun as [Hrun|(e & fs3 & _ & Hrun)];
    [|inversion Hrun; subst; discriminate Hl].
  apply mbind_inv in Hrun as (apps & fs3 & H3 & Hrun).
  assert (fs3 = fs) by (unfold listdir in H3; congruence). subst fs3.
  apply mbind_inv in Hrun as (result & fs4 & H4 & Hrun).
  inversion Hrun; subst. cbn [data] in Hl. inversion Hl; subst.
  revert H4. apply for_each_invariant; [| |constructor].
  - intros x acc. apply reads_visit_app.
  - intros x acc acc' fs1 HI Hx. exact (visit_app_entries _ _ _ _ _ HI Hx).
Qed.

(** X8.  Once [delete_recordings] has answered with code 0 for an
    application and a stream given by plain names, the stream is gone
    for every handler: a second [delete_recordings] answers -1 (no
    such directory) and leaves the file system as it is; [get_video]
    for a date that does not start with a slash answers 1 (no such
    directory), unless the path is too long for the operating system,
    in which case it raises; and the index of [get_video_list] has no
    entry for the stream. *)
Theorem deleted_stream_is_gone
        (fs fs' : node) (a s : string) (answer : response unit) :
  wf fs = true -> plain a = true -> plain s = true ->
  delete_recordings rmtree_stops a s fs = (Ok answer, fs') ->
  code answer = 0 ->
  delete_recordings rmtree_stops a s fs'
  = (Ok (mk_response (-1)
           (Some (DirectoryMissing (joinpath (joinpath RECORD_ROOT a) s)))
           None),
     fs')
  /\ (forall date,
         leading_slashes date = O ->
         let target_dir :=
           joinpath (joinpath (joinpath RECORD_ROOT a) s) date in
         get_video timestamp timestamp_leb get_video_shanghai_time
                   a s date fs'
         = (Ok (mk_response 1 (Some (DirectoryMissing target_dir)) None),
            fs')
         \/ ((4096 <= String.length (as_posix target_dir))%nat
             /\ get_video timestamp timestamp_leb get_video_shanghai_time
                          a s date fs'
                = (Raise OSError, fs')))
  /\ (forall answer' l r,
         fst (get_video_list timestamp get_video_shanghai_time fs')
         = Ok answer' ->
         data answer' = Some l ->
         In r l -> ~ (app (summary r) = a /\ stream (summary r) = s)).
Proof.
  intros Hwf Ha Hs Hrun Hcode.
  destruct (delete_recordings_done _ _ _ _ _ Hwf Ha Hs Hrun Hcode)
    as [(es & El) Hrm].
  destruct (rmtree_spec _ fs (Dir es) (below_root_not_root [a; s]) Hwf El)
    as (fs'' & Hrm' & Hgone & _).
  rewrite Hrm in Hrm'. inversion Hrm'; subst fs''.
  pose proof (Hgone []) as Hnone. rewrite app_nil_r in Hnone.
  pose proof (stat_stream fs' a s Ha Hs) as E. rewrite Hnone in E.
  split; [|split].
  - unfold delete_recordings. cbv zeta.
    rewrite (mbind_ok _ _ fs' fs' false)
      by (unfold path_exists; rewrite E; reflexivity).
    reflexivity.
  - intros date Hrel target_dir.
    assert (Ht : target_dir
                 = mk_pure_path false
                     ((parts RECORD_ROOT ++ [a; s]) ++ segment_parts date)).
    { subst target_dir. rewrite (stream_path a s Ha Hs).
      apply joinpath_relative, Hrel. }
    unfold get_video. fold target_dir. cbv zeta.
    assert (Hstat : stat fs' target_dir = Absent
                    \/ stat fs' target_dir = EmbeddedNull
                    \/ (stat fs' target_dir = NameTooLong
                        /\ (4096 <= String.length (as_posix target_dir))%nat)).
    { unfold stat. destruct (existsb has_nul (parts target_dir)); [auto|].
      destruct (4096 <=? String.length (as_posix target_dir))%nat eqn:Elen.
      - right. right. split; [reflexivity|]. apply Nat.leb_le, Elen.
      - left. rewrite Ht. cbn [parts].
        apply (resolve_beyond_absent fs' _ _ []); [|exact Hnone].
        apply plain_below_root. repeat constructor; assumption. }
    destruct Hstat as [Hst|[Hst|[Hst Hlen]]].
    + left. rewrite (mbind_ok _ _ fs' fs' false)
        by (unfold path_exists; rewrite Hst; reflexivity).
      reflexivity.
    + left. rewrite (mbind_ok _ _ fs' fs' false)
        by (unfold path_exists; rewrite Hst; reflexivity).
      reflexivity.
    + right. split; [exact Hlen|].
      apply mbind_raise. unfold path_exists. rewrite Hst. reflexivity.
  - intros answer' l r Hans Hl Hin [Hra Hrs].
    pose proof (get_video_list_entries fs' answer' l Hans Hl) as Hall.
    rewrite Forall_forall in Hall. specialize (Hall r Hin).
    unfold is_stream_dir in Hall. rewrite Hra, Hrs in Hall.
    unfold path_is_dir in Hall. rewrite E in Hall. discriminate Hall.
Qed.

End Recordings.

(** A file system with two streams of one application and a stray
    file. *)
Definition two_cameras : node :=
  Dir [("opt",
        Dir [("zlm",
              Dir [("record",
                    Dir [("live",
                          Dir [("cam1",
                                Dir [("2025-01-05",
                                      Dir [("2025-01-05-00-00-00-0.mp4",
                                            File 10)])]);
                               ("cam2",
                                Dir [("2025-01-05",
                                      Dir [("2025-01-05-00-00-00-0.mp4",
                                            File 20)])])]);
                         ("notes.txt", File 3)])])]);
       ("etc", Dir [("passwd", File 1)])].

(** [two_cameras] without the first stream. *)
Definition one_camera : node :=
  Dir [("opt",
        Dir [("zlm",
              Dir [("record",
                    Dir [("live",
                          Dir [("cam2",
                                Dir [("2025-01-05",
                                      Dir [("2025-01-05-00-00-00-0.mp4",
                                            File 20)])])]);
                         ("notes.txt", File 3)])])]);
       ("etc", Dir [("passwd", File 1)])].

(** An operating system that does not stop [rmtree]. *)
Definition never_stops (location : path) (fs : node) : option (exn * node) :=
  None.

Lemma delete_recordings_removes_one_stream_witness :
  lookup ["opt"; "zlm"; "record"; "live"; "cam1"; "2025-01-05"] one_camera
  = None
  /\ option_map kind_of (lookup ["etc"; "passwd"] one_camera)
     = option_map kind_of (lookup ["etc"; "passwd"] two_cameras).
Proof.
  pose proof (delete_recordings_removes_one_stream never_stops
                two_cameras one_camera "live" "cam1" _
                eq_refl eq_refl eq_refl eq_refl eq_refl) as (H1 & H2 & _).
  split.
  - exact (H1 ["2025-01-05"]).
  - apply H2. intros q Hq. discriminate Hq.
Defined.

Lemma deleted_stream_is_gone_witness :
  delete_recordings never_stops "live" "cam1" one_camera
  = (Ok (mk_response (-1)
           (Some (DirectoryMissing
                    (joinpath (joinpath RECORD_ROOT "live") "cam1")))
           None),
     one_camera).
Proof.
  exact (proj1 (deleted_stream_is_gone
                  (num := Exact.rational) Z Z.leb (fun _ => None)
                  never_stops two_cameras one_camera "live" "cam1" _
                  eq_refl eq_refl eq_refl eq_refl eq_refl)).
Defined.

End Recordings.

(* ================================================================== *)
(** * Starting a recording *)
(* ================================================================== *)

Module StartRecord.
Import PyFacts FSFacts Requests RequestFacts PathFacts.

Section Handler.
Context {num : PyNumber}.
Variable rmtree_stops : path -> node -> option (exn * node).
Variable Json : Type.
Variable zlm : string -> list (string * string) -> result Json.
Variable ZLM_SECRET : string.


End Handler.


End StartRecord.
